(** * codesandbox-sdk: the session/event core, embedded and verified

    The development follows the TypeScript sources:

    - [src/utils/handle-response.ts], second part (the event module):
      [Emitter], [AsyncEmitter]
    - [src/setup.ts], second part (the shells module): [ShellInstance],
      [Shells.run], [LanguageInterpreter.run], [runCommandAsUser]
    - [src/ports.ts], first part: [Ports], [PortInfo]
    - [src/utils/handle-response.ts], first part: [handleResponse], with
      [RateLimitError.fromResponse]
    - [src/sandbox-client.ts]: [VMTier]

    Asynchronous functions are embedded as state machines: every [await] is
    a suspension point, and what the environment does at that point (a
    remote call settles, a notification arrives, the caller invokes
    [kill()]) is an event consumed by a step function. *)

From Stdlib Require Import List Bool Arith ZArith NArith Lia.
From Stdlib Require String Ascii DecimalString QArith.
Import ListNotations.
Import String.StringSyntax.
Delimit Scope string_scope with string.

Set Implicit Arguments.

(* ===================================================================== *)
(** ** JavaScript values used by the sources *)
(* ===================================================================== *)

Module JS.

(** A JavaScript string is a sequence of UTF-16 code units. *)
Definition jsstring := list N.

(** ASCII literals of the sources. *)
Definition str (s : String.string) : jsstring :=
  map Ascii.N_of_ascii (String.list_ascii_of_string s).
Arguments str s%_string.

Definition eqb (a b : jsstring) : bool :=
  if list_eq_dec N.eq_dec a b then true else false.

(** A string is truthy when it is not empty ([if (s)]). *)
Definition truthy (s : jsstring) : bool :=
  match s with [] => false | _ :: _ => true end.

(** ECMAScript WhiteSpace and LineTerminator code points, the characters
    [String.prototype.trim] removes.  All of them lie in the basic
    plane, so the test is per code unit. *)
Definition is_whitespace (c : N) : bool :=
  (   (c =? 9) || (c =? 10) || (c =? 11) || (c =? 12) || (c =? 13)
   || (c =? 32) || (c =? 160) || (c =? 5760)
   || ((8192 <=? c) && (c <=? 8202))
   || (c =? 8232) || (c =? 8233) || (c =? 8239) || (c =? 8287)
   || (c =? 12288) || (c =? 65279))%N.

Fixpoint trimStart (s : jsstring) : jsstring :=
  match s with
  | [] => []
  | c :: r => if is_whitespace c then trimStart r else s
  end.

Definition trimEnd (s : jsstring) : jsstring :=
  rev (trimStart (rev s)).

(** [s.trim()] *)
Definition trim (s : jsstring) : jsstring := trimEnd (trimStart s).

(** [xs.join(sep)] *)
Fixpoint join (sep : jsstring) (xs : list jsstring) : jsstring :=
  match xs with
  | [] => []
  | [x] => x
  | x :: r => x ++ sep ++ join sep r
  end.

Definition newline : jsstring := [10%N].

(** Decimal rendering of an integral number inside a template literal.
    This is what JavaScript prints for an integer of absolute value
    below 10^21; from there on it prints an exponent. *)
Definition of_int (z : Z) : jsstring :=
  str (DecimalString.NilZero.string_of_int (Z.to_int z)).

(** Outcome of a call that may throw, or of a promise once settled. *)
Inductive completion (A E : Type) : Type :=
| Returned (a : A)
| Threw (e : E).
Arguments Returned {A E} a.
Arguments Threw {A E} e.

(** [new Error(message)] *)
Inductive error : Type := Error (message : jsstring).

End JS.

Import JS.

(* ===================================================================== *)
(** ** src/utils/handle-response.ts (event module) : Emitter *)
(* ===================================================================== *)

Module Emitter.

(** A listener is a function value; the [Set] that holds listeners
    compares them by identity, which is all the emitter ever looks at. *)
Definition listener := nat.

(** The entry list of a JavaScript [Set]: insertion order, and a deleted
    entry leaves an empty slot behind so that a [forEach] in progress
    keeps its position. *)
Definition SetData := list (option listener).

Definition is_entry (l : listener) (e : option listener) : bool :=
  match e with Some x => Nat.eqb x l | None => false end.

(** [set.has(l)] *)
Definition has (d : SetData) (l : listener) : bool := existsb (is_entry l) d.

(** [set.add(l)] *)
Definition add (d : SetData) (l : listener) : SetData :=
  if has d l then d else d ++ [Some l].

(** [set.delete(l)] *)
Definition delete (d : SetData) (l : listener) : SetData :=
  map (fun e => if is_entry l e then None else e) d.

(** [Array.from(set)] *)
Fixpoint elements (d : SetData) : list listener :=
  match d with
  | [] => []
  | Some l :: r => l :: elements r
  | None :: r => elements r
  end.

Record t : Type := { registeredListeners : SetData }.

(** [new Emitter()] *)
Definition new : t := {| registeredListeners := [] |}.

(** The disposable [Disposable.create(() => registeredListeners.delete(listener))]
    returned by a registration. *)
Inductive registration : Type := RemoveListener (l : listener).

(** [emitter.event(listener)] *)
Definition event (em : t) (l : listener) : t * registration :=
  ({| registeredListeners := add (registeredListeners em) l |}, RemoveListener l).

(** [registration.dispose()] *)
Definition dispose_registration (r : registration) (em : t) : t :=
  match r with
  | RemoveListener l => {| registeredListeners := delete (registeredListeners em) l |}
  end.

(** [emitter.dispose()] *)
Definition dispose (em : t) : t := {| registeredListeners := [] |}.

(** What a listener does to the emitter it is registered on while it
    runs: it can register listeners, dispose registrations, and throw. *)
Inductive action : Type :=
| Register (l : listener)
| Unregister (l : listener)
| Throw (e : error).

Fixpoint run_body (acts : list action) (d : SetData)
  : SetData * completion unit error :=
  match acts with
  | [] => (d, Returned tt)
  | Register l :: r => run_body r (add d l)
  | Unregister l :: r => run_body r (delete d l)
  | Throw e :: _ => (d, Threw e)
  end.

Section Fire.
Variable V : Type.
(** The code of each listener. *)
Variable behaviour : listener -> V -> list action.

(** [registeredListeners.forEach((listener) => listener(event))]: walk the
    entry list by index, skipping empty slots and re-reading the length
    after every call; an exception leaves the loop. *)
Fixpoint forEach (fuel : nat) (v : V) (index : nat) (d : SetData)
  (log : list (listener * V))
  : option (SetData * list (listener * V) * completion unit error) :=
  match fuel with
  | O => None
  | S fuel' =>
    match nth_error d index with
    | None => Some (d, log, Returned tt)
    | Some None => forEach fuel' v (S index) d log
    | Some (Some l) =>
      match run_body (behaviour l v) d with
      | (d', Returned _) => forEach fuel' v (S index) d' (log ++ [(l, v)])
      | (d', Threw e) => Some (d', log ++ [(l, v)], Threw e)
      end
    end
  end.

(** [emitter.fire(event)]; the second component is the list of calls
    made, in order. *)
Definition fire (fuel : nat) (em : t) (v : V)
  : option (t * list (listener * V) * completion unit error) :=
  match forEach fuel v 0 (registeredListeners em) [] with
  | Some (d, log, c) => Some ({| registeredListeners := d |}, log, c)
  | None => None
  end.

End Fire.

(** A listener whose only effect on the emitter is to dispose its own
    registration (any number of times, possibly never). *)
Definition removes_only_itself (V : Type) (behaviour : listener -> V -> list action)
  (v : V) (l : listener) : Prop :=
  Forall (fun a => a = Unregister l) (behaviour l v).

(** [fire] when the listeners only observe the value. *)
Definition fire_observers (V : Type) (em : t) (v : V) : list (listener * V) :=
  map (fun l => (l, v)) (elements (registeredListeners em)).

End Emitter.

(* ===================================================================== *)
(** ** src/utils/handle-response.ts (event module) : AsyncEmitter *)
(* ===================================================================== *)

Module AsyncEmitter.

Import Emitter.

Record t : Type := { timeoutMs : N; registeredListeners : SetData }.

(** [new AsyncEmitter(timeoutMs)] *)
Definition new (ms : N) : t := {| timeoutMs := ms; registeredListeners := [] |}.

Definition event (em : t) (l : listener) : t * registration :=
  ({| timeoutMs := timeoutMs em;
      registeredListeners := add (registeredListeners em) l |}, RemoveListener l).

Definition dispose_registration (r : registration) (em : t) : t :=
  match r with
  | RemoveListener l =>
    {| timeoutMs := timeoutMs em;
       registeredListeners := delete (registeredListeners em) l |}
  end.

Definition dispose (em : t) : t :=
  {| timeoutMs := timeoutMs em; registeredListeners := [] |}.

(** How the promise returned by one listener settles. *)
Inductive settlement : Type :=
| Fulfils
| Rejects (reason : error).

Definition timeout_error : error := Error (str "Timeout firing async event").

(** The [for (const result of results)] loop of the [then] callback. *)
Fixpoint first_rejection (results : list settlement) : completion unit error :=
  match results with
  | [] => Returned tt
  | Rejects reason :: _ => Threw reason
  | Fulfils :: r => first_rejection r
  end.

(** [Promise.allSettled]: the result array is there once every input
    promise has settled. *)
Fixpoint all_settled (rs : list (option settlement)) : option (list settlement) :=
  match rs with
  | [] => Some []
  | None :: _ => None
  | Some s :: r =>
    match all_settled r with
    | Some ss => Some (s :: ss)
    | None => None
    end
  end.

(** A broadcast in flight. [invoked] is the list of listener calls made
    by [map]; [results] holds, per call, how its promise has settled so
    far; [outcome] is the state of the promise of [Promise.race]. *)
Record firing (V : Type) : Type := {
  deadline : N;
  invoked : list (listener * V);
  results : list (option settlement);
  outcome : option (completion unit error)
}.

(** The reaction of the [allSettled(...).then(...)] branch; the race
    keeps the first settlement it sees. *)
Definition react (V : Type) (f : firing V) : firing V :=
  match outcome f with
  | Some _ => f
  | None =>
    match all_settled (results f) with
    | Some rs =>
      {| deadline := deadline f; invoked := invoked f; results := results f;
         outcome := Some (first_rejection rs) |}
    | None => f
    end
  end.

(** [emitter.fire(event)] up to its return: the timer is started, every
    listener is called. *)
Definition fire (V : Type) (em : t) (v : V) : firing V :=
  let ls := elements (registeredListeners em) in
  react {| deadline := timeoutMs em;
           invoked := map (fun l => (l, v)) ls;
           results := map (fun _ => None) ls;
           outcome := None |}.

(** What happens afterwards: the promise of call number [i] settles, or
    the [sleep(timeoutMs)] timer elapses. *)
Inductive occurrence : Type :=
| ListenerSettled (i : nat) (s : settlement)
| TimerElapsed.

Fixpoint record_result (rs : list (option settlement)) (i : nat) (s : settlement)
  : list (option settlement) :=
  match rs, i with
  | [], _ => []
  | None :: r, O => Some s :: r
  | Some s0 :: r, O => Some s0 :: r
  | x :: r, S i' => x :: record_result r i' s
  end.

Definition step (V : Type) (f : firing V) (o : occurrence) : firing V :=
  match o with
  | ListenerSettled i s =>
    react {| deadline := deadline f; invoked := invoked f;
             results := record_result (results f) i s;
             outcome := outcome f |}
  | TimerElapsed =>
    match outcome f with
    | Some _ => f
    | None =>
      {| deadline := deadline f; invoked := invoked f; results := results f;
         outcome := Some (Threw timeout_error) |}
    end
  end.

Definition run (V : Type) (f : firing V) (os : list occurrence) : firing V :=
  fold_left (@step V) os f.

(** Reading a history of occurrences: how call [i] first settled, if it
    did; how each of [n] calls settled; the part of the history that
    precedes the timer; whether the timer has elapsed. *)
Fixpoint first_settlement (i : nat) (os : list occurrence) : option settlement :=
  match os with
  | [] => None
  | ListenerSettled j s :: r =>
    if Nat.eqb j i then Some s else first_settlement i r
  | TimerElapsed :: r => first_settlement i r
  end.

Definition settlements (n : nat) (os : list occurrence) : list (option settlement) :=
  map (fun i => first_settlement i os) (seq 0 n).

Fixpoint before_timer (os : list occurrence) : list occurrence :=
  match os with
  | [] => []
  | TimerElapsed :: _ => []
  | o :: r => o :: before_timer r
  end.

Fixpoint timer_elapsed (os : list occurrence) : bool :=
  match os with
  | [] => false
  | TimerElapsed :: _ => true
  | _ :: r => timer_elapsed r
  end.

(** [results], read against the history, from position [k] on. *)
Fixpoint merge (k : nat) (rs : list (option settlement)) (os : list occurrence)
  : list (option settlement) :=
  match rs with
  | [] => []
  | r :: rs' =>
    match r with Some s => Some s | None => first_settlement k os end
    :: merge (S k) rs' os
  end.

(** The race has settled exactly when, and as, the [then] callback of
    [allSettled] has run. *)
Definition follows_listeners (V : Type) (f : firing V) : Prop :=
  outcome f = option_map first_rejection (all_settled (results f)).

End AsyncEmitter.

(* ===================================================================== *)
(** ** The protocol collaborator (pitcher client) *)
(* ===================================================================== *)

Module Protocol.

Definition Id := jsstring.

Inductive ShellStatus : Type := RUNNING | FINISHED | ERROR | KILLED | RESTARTING.

Definition ShellStatus_eqb (a b : ShellStatus) : bool :=
  match a, b with
  | RUNNING, RUNNING | FINISHED, FINISHED | ERROR, ERROR
  | KILLED, KILLED | RESTARTING, RESTARTING => true
  | _, _ => false
  end.

Record ShellSize : Type := { cols : Z; rows : Z }.

Definition DEFAULT_SHELL_SIZE : ShellSize := {| cols := 128; rows := 24 |}.

Record ShellDTO : Type := {
  shellId : Id;
  name : jsstring;
  status : ShellStatus;
  exitCode : option Z
}.

(** [OpenShellDTO]: a shell together with its buffered output. *)
Record OpenShellDTO : Type := {
  dto : ShellDTO;
  buffer : list jsstring
}.

(** Requests sent to the collaborator, as the sources issue them. *)
Inductive remote_call : Type :=
| CallCreate (workspacePath : jsstring) (size : ShellSize) (command : jsstring)
    (kind : jsstring) (interactive : bool)
| CallRename (id : Id) (newName : jsstring)
| CallDelete (id : Id)
| CallClose (id : Id)
| CallWriteFile (path : jsstring) (content : jsstring) (create overwrite : bool).

(** Notifications pushed by the collaborator. *)
Inductive notification : Type :=
| ShellOut (id : Id) (out : jsstring)
| ShellExited (id : Id) (code : Z)
| ShellTerminated (id : Id).

End Protocol.

Import Protocol.

(* ===================================================================== *)
(** ** pitcher-common : Barrier and DisposableStore *)
(* ===================================================================== *)

Module Barrier.

(** Modelled from the spec: the [Barrier] of pitcher-common, whose code is
    not part of the repository.  A barrier is pending, opened with a
    value, or disposed; the first [open] or [dispose] decides and later
    ones are ignored. *)
Inductive t (V : Type) : Type :=
| Pending
| Opened (v : V)
| Disposed.
Arguments Pending {V}.
Arguments Opened {V} v.
Arguments Disposed {V}.

Definition open (V : Type) (b : t V) (v : V) : t V :=
  match b with Pending => Opened v | _ => b end.

Definition dispose (V : Type) (b : t V) : t V :=
  match b with Pending => Disposed | _ => b end.

Inductive wait_result (V : Type) : Type :=
| StatusOpened (value : V)
| StatusDisposed.
Arguments StatusOpened {V} value.
Arguments StatusDisposed {V}.

(** [barrier.wait()]: [None] while the returned promise is still pending. *)
Definition wait (V : Type) (b : t V) : option (wait_result V) :=
  match b with
  | Pending => None
  | Opened v => Some (StatusOpened v)
  | Disposed => Some StatusDisposed
  end.

End Barrier.

(* ===================================================================== *)
(** ** src/setup.ts (shells module) : runCommandAsUser *)
(* ===================================================================== *)

Module Command.

Import Emitter.

(** What [runCommandAsUser] puts into its [DisposableStore]. *)
Inductive store_item : Type :=
| ItemOnOutput          (* the [onOutput] emitter *)
| ItemShellOut          (* the registration on [onShellOut] *)
| ItemShellExited       (* the registration on [onShellExited] *)
| ItemShellTerminated.  (* the registration on [onShellTerminated] *)

(** Modelled from the spec: the [DisposableStore] of pitcher-common, whose
    code is not part of the repository.  It releases what it holds once;
    a released store ignores a further [dispose] and no longer takes
    ownership of what is added. *)
Record DisposableStore : Type := {
  isDisposed : bool;
  toDispose : list store_item
}.

Definition store_add (s : DisposableStore) (i : store_item) : DisposableStore :=
  if isDisposed s then s
  else {| isDisposed := false; toDispose := toDispose s ++ [i] |}.

(** Where the asynchronous body of [runCommandAsUser] is suspended. *)
Inductive phase : Type :=
| AwaitPreCommand    (* [await runPreCommand()] *)
| AwaitCreate        (* [await pitcher.clients.shell.create(...)] *)
| AwaitBarrier       (* [await barrier.wait()] *)
| Completed.         (* the body has returned or thrown *)

Record result : Type := { output : jsstring; resultExitCode : option Z }.

Inductive promise : Type :=
| PromisePending
| PromiseFulfilled (r : result)
| PromiseRejected (e : error).

(** The arguments of [runCommandAsUser].  [runPreCommand] is given by the
    requests the callback sends when it is called. *)
Record args : Type := {
  workspacePath : jsstring;
  command : jsstring;
  shellSize : ShellSize;
  runPreCommand : option (list remote_call);
  env : option (list (jsstring * jsstring));
  shellName : option jsstring
}.

(** The variables of one [runCommandAsUser] activation, with the part of
    the collaborator it touches: which of its handlers are registered on
    the notification streams, and the requests sent so far. *)
Record t : Type := {
  params : args;
  disposableStore : DisposableStore;
  onOutput : Emitter.t;
  shell : option OpenShellDTO;
  combinedOut : jsstring;
  barrier : Barrier.t (option Z);
  onShellOut : bool;
  onShellExited : bool;
  onShellTerminated : bool;
  calls : list remote_call;
  emitted : list (listener * jsstring);
  at_ : phase;
  resultPromise : promise
}.

Definition set_store (s : t) (x : DisposableStore) : t :=
  {| params := params s; disposableStore := x; onOutput := onOutput s;
     shell := shell s; combinedOut := combinedOut s; barrier := barrier s;
     onShellOut := onShellOut s; onShellExited := onShellExited s;
     onShellTerminated := onShellTerminated s; calls := calls s;
     emitted := emitted s; at_ := at_ s; resultPromise := resultPromise s |}.

Definition set_onOutput (s : t) (x : Emitter.t) : t :=
  {| params := params s; disposableStore := disposableStore s; onOutput := x;
     shell := shell s; combinedOut := combinedOut s; barrier := barrier s;
     onShellOut := onShellOut s; onShellExited := onShellExited s;
     onShellTerminated := onShellTerminated s; calls := calls s;
     emitted := emitted s; at_ := at_ s; resultPromise := resultPromise s |}.

Definition set_shell (s : t) (x : option OpenShellDTO) : t :=
  {| params := params s; disposableStore := disposableStore s;
     onOutput := onOutput s; shell := x; combinedOut := combinedOut s;
     barrier := barrier s; onShellOut := onShellOut s;
     onShellExited := onShellExited s;
     onShellTerminated := onShellTerminated s; calls := calls s;
     emitted := emitted s; at_ := at_ s; resultPromise := resultPromise s |}.

Definition set_combinedOut (s : t) (x : jsstring) : t :=
  {| params := params s; disposableStore := disposableStore s;
     onOutput := onOutput s; shell := shell s; combinedOut := x;
     barrier := barrier s; onShellOut := onShellOut s;
     onShellExited := onShellExited s;
     onShellTerminated := onShellTerminated s; calls := calls s;
     emitted := emitted s; at_ := at_ s; resultPromise := resultPromise s |}.

Definition set_barrier (s : t) (x : Barrier.t (option Z)) : t :=
  {| params := params s; disposableStore := disposableStore s;
     onOutput := onOutput s; shell := shell s; combinedOut := combinedOut s;
     barrier := x; onShellOut := onShellOut s;
     onShellExited := onShellExited s;
     onShellTerminated := onShellTerminated s; calls := calls s;
     emitted := emitted s; at_ := at_ s; resultPromise := resultPromise s |}.

Definition set_listening (s : t) (i : store_item) (x : bool) : t :=
  {| params := params s; disposableStore := disposableStore s;
     onOutput := onOutput s; shell := shell s; combinedOut := combinedOut s;
     barrier := barrier s;
     onShellOut := match i with ItemShellOut => x | _ => onShellOut s end;
     onShellExited := match i with ItemShellExited => x | _ => onShellExited s end;
     onShellTerminated :=
       match i with ItemShellTerminated => x | _ => onShellTerminated s end;
     calls := calls s; emitted := emitted s; at_ := at_ s;
     resultPromise := resultPromise s |}.

Definition send (s : t) (c : remote_call) : t :=
  {| params := params s; disposableStore := disposableStore s;
     onOutput := onOutput s; shell := shell s; combinedOut := combinedOut s;
     barrier := barrier s; onShellOut := onShellOut s;
     onShellExited := onShellExited s;
     onShellTerminated := onShellTerminated s; calls := calls s ++ [c];
     emitted := emitted s; at_ := at_ s; resultPromise := resultPromise s |}.

Definition set_emitted (s : t) (x : list (listener * jsstring)) : t :=
  {| params := params s; disposableStore := disposableStore s;
     onOutput := onOutput s; shell := shell s; combinedOut := combinedOut s;
     barrier := barrier s; onShellOut := onShellOut s;
     onShellExited := onShellExited s;
     onShellTerminated := onShellTerminated s; calls := calls s;
     emitted := x; at_ := at_ s; resultPromise := resultPromise s |}.

Definition suspend (s : t) (p : phase) : t :=
  {| params := params s; disposableStore := disposableStore s;
     onOutput := onOutput s; shell := shell s; combinedOut := combinedOut s;
     barrier := barrier s; onShellOut := onShellOut s;
     onShellExited := onShellExited s;
     onShellTerminated := onShellTerminated s; calls := calls s;
     emitted := emitted s; at_ := p; resultPromise := resultPromise s |}.

(** The body returns or throws: the promise settles. *)
Definition settle (s : t) (p : promise) : t :=
  {| params := params s; disposableStore := disposableStore s;
     onOutput := onOutput s; shell := shell s; combinedOut := combinedOut s;
     barrier := barrier s; onShellOut := onShellOut s;
     onShellExited := onShellExited s;
     onShellTerminated := onShellTerminated s; calls := calls s;
     emitted := emitted s; at_ := Completed; resultPromise := p |}.

(** [onOutput.fire(v)] when the functions registered on the live-output
    stream only observe: they do not throw and do not touch the emitter.
    [CommandFire.fire_onOutput] is the pass for any functions. *)
Definition fire_onOutput (s : t) (v : jsstring) : t :=
  set_emitted s (emitted s ++ fire_observers (onOutput s) v).

Definition dispose_item (s : t) (i : store_item) : t :=
  match i with
  | ItemOnOutput => set_onOutput s (Emitter.dispose (onOutput s))
  | _ => set_listening s i false
  end.

(** [disposableStore.dispose()] *)
Definition dispose_store (s : t) : t :=
  if isDisposed (disposableStore s) then s
  else set_store (fold_left dispose_item (toDispose (disposableStore s)) s)
         {| isDisposed := true; toDispose := [] |}.

(** [disposableStore.add(pitcher.clients.shell.onX(handler))] *)
Definition subscribe (s : t) (i : store_item) : t :=
  let s1 := set_listening s i true in
  set_store s1 (store_add (disposableStore s1) i).

Definition commandWithEnv (a : args) : jsstring :=
  str "env "
  ++ join (str " ")
       (map (fun kv => fst kv ++ str "=" ++ snd kv)
            (match env a with Some e => e | None => [] end))
  ++ str " " ++ command a.

(** The body from the computation of [commandWithEnv] to
    [await pitcher.clients.shell.create(...)]. *)
Definition createShell (s : t) : t :=
  suspend
    (send s (CallCreate (workspacePath (params s)) (shellSize (params s))
               (commandWithEnv (params s)) (str "TERMINAL") true))
    AwaitCreate.

(** [runCommandAsUser(...)] up to its return: the store, the emitter, and
    the asynchronous body run to its first [await]. *)
Definition runCommandAsUser (a : args) : t :=
  let s0 :=
    {| params := a;
       disposableStore := {| isDisposed := false; toDispose := [ItemOnOutput] |};
       onOutput := Emitter.new;
       shell := None; combinedOut := []; barrier := Barrier.Pending;
       onShellOut := false; onShellExited := false; onShellTerminated := false;
       calls := []; emitted := [];
       at_ := AwaitPreCommand; resultPromise := PromisePending |} in
  match runPreCommand a with
  | Some requests => suspend (fold_left send requests s0) AwaitPreCommand
  | None => createShell s0
  end.

(** The body after [await runPreCommand()]. *)
Definition afterPreCommand (s : t) (r : completion unit error) : t :=
  match r with
  | Threw e => settle s (PromiseRejected e)
  | Returned _ => createShell s
  end.

(** The body after [await pitcher.clients.shell.create(...)], up to
    [await barrier.wait()]. *)
Definition afterCreate (s : t) (r : completion OpenShellDTO error) : t :=
  match r with
  | Threw e => settle s (PromiseRejected e)
  | Returned sh =>
    let s1 := set_shell s (Some sh) in
    let s2 :=
      match shellName (params s1) with
      | Some n => if truthy n then send s1 (CallRename (shellId (dto sh)) n) else s1
      | None => s1
      end in
    if ShellStatus_eqb (status (dto sh)) FINISHED then
      settle s2 (PromiseFulfilled
                   {| output := trim (join newline (buffer sh));
                      resultExitCode := exitCode (dto sh) |})
    else
      let s3 := set_combinedOut s2 (join newline (buffer sh)) in
      let s4 := if truthy (combinedOut s3)
                then fire_onOutput s3 (combinedOut s3) else s3 in
      let s5 := set_barrier s4 Barrier.Pending in
      let s6 := subscribe s5 ItemShellOut in
      let s7 := subscribe s6 ItemShellExited in
      let s8 := subscribe s7 ItemShellTerminated in
      suspend s8 AwaitBarrier
  end.

(** [shellId === shell.shellId] inside the three handlers. *)
Definition is_mine (s : t) (id : Id) : bool :=
  match shell s with
  | Some sh => JS.eqb id (shellId (dto sh))
  | None => false
  end.

(** A notification reaches the handlers that are still registered. *)
Definition notify (s : t) (n : notification) : t :=
  match n with
  | ShellOut id out =>
    if onShellOut s && is_mine s id then
      let s1 := fire_onOutput s out in
      set_combinedOut s1 (combinedOut s1 ++ out)
    else s
  | ShellExited id code =>
    if onShellExited s && is_mine s id then
      set_barrier s (Barrier.open (barrier s) (Some code))
    else s
  | ShellTerminated id =>
    if onShellTerminated s && is_mine s id then
      set_barrier s (Barrier.open (barrier s) None)
    else s
  end.

(** The body after [await barrier.wait()]; it stays suspended while the
    barrier is pending. *)
Definition afterBarrier (s : t) : t :=
  match at_ s, Barrier.wait (barrier s) with
  | AwaitBarrier, Some r =>
    let s1 := dispose_store s in
    match r with
    | Barrier.StatusDisposed =>
      settle s1 (PromiseRejected (Error (str "Shell was disposed")))
    | Barrier.StatusOpened v =>
      settle s1 (PromiseFulfilled
                   {| output := trim (combinedOut s1); resultExitCode := v |})
    end
  | _, _ => s
  end.

(** [resultPromise.kill()] *)
Definition kill (s : t) : t :=
  let s1 := dispose_store s in
  match shell s1 with
  | Some sh => send s1 (CallDelete (shellId (dto sh)))
  | None => s1
  end.

(** What can happen to a command once [runCommandAsUser] has returned:
    an awaited promise settles, a notification arrives, the caller uses
    the handle.  [WaitResumes] is the job the engine runs for
    [await barrier.wait()]; it continues the body once the barrier is no
    longer pending and does nothing before. *)
Inductive event : Type :=
| PreCommandSettled (r : completion unit error)
| CreateSettled (r : completion OpenShellDTO error)
| Notification (n : notification)
| WaitResumes
| KillCalled
| OnOutputCalled (l : listener)
| OnOutputDisposed (l : listener).

Definition step (s : t) (e : event) : t :=
  match e with
  | PreCommandSettled r =>
    match at_ s with AwaitPreCommand => afterPreCommand s r | _ => s end
  | CreateSettled r =>
    match at_ s with AwaitCreate => afterCreate s r | _ => s end
  | Notification n => notify s n
  | WaitResumes => afterBarrier s
  | KillCalled => kill s
  | OnOutputCalled l => set_onOutput s (fst (Emitter.event (onOutput s) l))
  | OnOutputDisposed l =>
    set_onOutput s (Emitter.dispose_registration (RemoveListener l) (onOutput s))
  end.

Definition run (s : t) (es : list event) : t := fold_left step es s.

(** Reading a list of notifications for the session [id]: its output
    chunks in arrival order, and the exit code carried by its first
    terminal notification ([Some None] when that one is a termination). *)
Fixpoint chunks_for (id : Id) (ns : list notification) : list jsstring :=
  match ns with
  | [] => []
  | ShellOut i out :: r =>
    if JS.eqb i id then out :: chunks_for id r else chunks_for id r
  | _ :: r => chunks_for id r
  end.

Fixpoint first_terminal (id : Id) (ns : list notification) : option (option Z) :=
  match ns with
  | [] => None
  | ShellExited i code :: r =>
    if JS.eqb i id then Some (Some code) else first_terminal id r
  | ShellTerminated i :: r =>
    if JS.eqb i id then Some None else first_terminal id r
  | _ :: r => first_terminal id r
  end.

(** The command is suspended at [await barrier.wait()] for the session
    [id], its three handlers registered and owned by the store. *)
Definition waiting (s : t) (id : Id) : Prop :=
  at_ s = AwaitBarrier
  /\ resultPromise s = PromisePending
  /\ (exists sh, shell s = Some sh /\ shellId (dto sh) = id)
  /\ onShellOut s = true /\ onShellExited s = true /\ onShellTerminated s = true
  /\ disposableStore s
     = {| isDisposed := false;
          toDispose := [ItemOnOutput; ItemShellOut; ItemShellExited;
                        ItemShellTerminated] |}.

(** No session is known yet: the store holds the live-output emitter
    only and the promise is pending. *)
Definition before_session (s : t) : Prop :=
  shell s = None
  /\ resultPromise s = PromisePending
  /\ disposableStore s = {| isDisposed := false; toDispose := [ItemOnOutput] |}.

(** The command is suspended at [await barrier.wait()], the barrier is
    pending, and none of its handlers is registered any more. *)
Definition cut_off (s : t) : Prop :=
  at_ s = AwaitBarrier
  /\ resultPromise s = PromisePending
  /\ barrier s = Barrier.Pending
  /\ onShellOut s = false /\ onShellExited s = false /\ onShellTerminated s = false
  /\ isDisposed (disposableStore s) = true.

End Command.

(* ===================================================================== *)
(** ** src/setup.ts (shells module) : Shells.run and LanguageInterpreter.run *)
(* ===================================================================== *)

Module Shells.

Record ShellRunOpts : Type := {
  ptySize : option ShellSize;
  shellName : option jsstring
}.

(** [shells.run(command, opts)] for a client whose workspace is [ws]. *)
Definition run (ws : jsstring) (command : jsstring) (opts : option ShellRunOpts)
  : Command.t :=
  Command.runCommandAsUser
    {| Command.workspacePath := ws;
       Command.command := command;
       Command.shellSize :=
         match opts with
         | Some o => match ptySize o with Some z => z | None => DEFAULT_SHELL_SIZE end
         | None => DEFAULT_SHELL_SIZE
         end;
       Command.runPreCommand := None;
       Command.env := None;
       Command.shellName :=
         match opts with Some o => shellName o | None => None end |}.

End Shells.

Module LanguageInterpreter.

Record ILanguageInterpreterOpts : Type := {
  runtime : jsstring;
  extension : jsstring;
  env : list (jsstring * jsstring)
}.

Definition js : ILanguageInterpreterOpts :=
  {| runtime := str "node"; extension := str "js";
     env := [(str "NO_COLOR", str "true")] |}.

Definition python : ILanguageInterpreterOpts :=
  {| runtime := str "python"; extension := str "py"; env := [] |}.

Definition tmpFileName (opts : ILanguageInterpreterOpts) (randomString : jsstring)
  : jsstring :=
  str "/tmp/tmp." ++ randomString ++ str "." ++ extension opts.

(** The command that [interpreter.run(code)] starts, the [result] of
    its body; [randomString] is what [getRandomString()] returned.  The
    file content is the UTF-8 encoding of [code]. *)
Definition run (ws : jsstring) (opts : ILanguageInterpreterOpts)
  (randomString code : jsstring) : Command.t :=
  Command.runCommandAsUser
    {| Command.workspacePath := ws;
       Command.command := runtime opts ++ str " " ++ tmpFileName opts randomString;
       Command.shellSize := DEFAULT_SHELL_SIZE;
       Command.runPreCommand :=
         Some [CallWriteFile (tmpFileName opts randomString) code true true];
       Command.env := Some (env opts);
       Command.shellName := None |}.

(** What [fs.writeFile] answers. *)
Inductive WriteFileResult : Type :=
| WriteOk
| WriteError (errno : Z) (error : jsstring).

(** The pre-command callback after [await writeFile(...)]. *)
Definition preCommand (w : completion WriteFileResult error) : completion unit error :=
  match w with
  | Threw e => Threw e
  | Returned WriteOk => Returned tt
  | Returned (WriteError errno err) =>
    Threw (Error (of_int errno ++ str ": " ++ err))
  end.

(** [interpreter.run] is an [async] method that returns the command:
    its caller holds a promise that settles as the promise of the
    command does, and neither the [kill] nor the [onOutput] of the
    command.  So what can happen to the command is that its two
    requests settle and that the collaborator sends notifications. *)
Inductive event : Type :=
| WriteSettled (w : completion WriteFileResult error)
| CreateSettled (r : completion OpenShellDTO error)
| Notification (n : notification)
| WaitResumes.

Definition to_command (e : event) : Command.event :=
  match e with
  | WriteSettled w => Command.PreCommandSettled (preCommand w)
  | CreateSettled r => Command.CreateSettled r
  | Notification n => Command.Notification n
  | WaitResumes => Command.WaitResumes
  end.

Definition step (c : Command.t) (e : event) : Command.t :=
  Command.step c (to_command e).

(** The command after a sequence of events. *)
Definition after (c : Command.t) (es : list event) : Command.t :=
  fold_left step es c.

(** The promise [interpreter.run(code)] returns, as far as it has
    settled. *)
Definition promise (c : Command.t) : Command.promise := Command.resultPromise c.

End LanguageInterpreter.

(* ===================================================================== *)
(** ** src/setup.ts (shells module) : ShellInstance *)
(* ===================================================================== *)

Module ShellInstance.

Import Emitter.

(** The fields of a [ShellInstance], the registrations it holds on the
    collaborator's streams, and the requests it has sent. [shellBuffer]
    is [this.shell.buffer]. *)
Record t : Type := {
  shell : ShellDTO;
  shellBuffer : option (list jsstring);
  output : list jsstring;
  onShellOutputEmitter : Emitter.t;
  onShellUpdatedEmitter : Emitter.t;
  onShellsUpdated : bool;
  onShellOut : bool;
  isDisposed : bool;
  calls : list remote_call;
  emittedOutput : list (listener * jsstring);
  emittedUpdated : list (listener * unit)
}.

(** [new ShellInstance(shell, pitcherClient)]; [output] starts as
    [this.shell.buffer || []]. *)
Definition new (sh : ShellDTO) (buf : option (list jsstring)) : t :=
  {| shell := sh;
     shellBuffer := buf;
     output := match buf with Some b => b | None => [] end;
     onShellOutputEmitter := Emitter.new;
     onShellUpdatedEmitter := Emitter.new;
     onShellsUpdated := true;
     onShellOut := true;
     isDisposed := false;
     calls := [];
     emittedOutput := [];
     emittedUpdated := [] |}.

(** [this.output.push(out); if (this.output.length > 1000) this.output.shift()] *)
Definition push_output (o : list jsstring) (out : jsstring) : list jsstring :=
  let o1 := o ++ [out] in
  if 1000 <? length o1 then tl o1 else o1.

(** The handler registered on [onShellOut], when the functions
    registered on [onOutput] only observe;
    [ShellInstanceFire.handleShellOut] is the handler for any functions. *)
Definition handleShellOut (s : t) (id : Id) (out : jsstring) : t :=
  if onShellOut s && JS.eqb id (shellId (shell s)) then
    {| shell := shell s; shellBuffer := shellBuffer s;
       output := push_output (output s) out;
       onShellOutputEmitter := onShellOutputEmitter s;
       onShellUpdatedEmitter := onShellUpdatedEmitter s;
       onShellsUpdated := onShellsUpdated s; onShellOut := onShellOut s;
       isDisposed := isDisposed s; calls := calls s;
       emittedOutput :=
         emittedOutput s ++ fire_observers (onShellOutputEmitter s) out;
       emittedUpdated := emittedUpdated s |}
  else s.

(** The handler registered on [onShellsUpdated], when the functions
    registered on [onShellUpdated] only observe;
    [ShellInstanceFire.handleShellsUpdated] is the handler for any
    functions. *)
Definition handleShellsUpdated (s : t) (shells : list ShellDTO) : t :=
  if onShellsUpdated s then
    match find (fun x => JS.eqb (shellId x) (shellId (shell s))) shells with
    | Some updatedShell =>
      {| shell := updatedShell; shellBuffer := Some [];
         output := output s;
         onShellOutputEmitter := onShellOutputEmitter s;
         onShellUpdatedEmitter := onShellUpdatedEmitter s;
         onShellsUpdated := onShellsUpdated s; onShellOut := onShellOut s;
         isDisposed := isDisposed s; calls := calls s;
         emittedOutput := emittedOutput s;
         emittedUpdated :=
           emittedUpdated s ++ fire_observers (onShellUpdatedEmitter s) tt |}
    | None => s
    end
  else s.

(** [getOutput()] *)
Definition getOutput (s : t) : jsstring := join newline (output s).

(** [try { await body } catch (e) { handler }] *)
Definition try_catch (A E : Type) (body : completion A E)
  (handler : E -> completion A E) : completion A E :=
  match body with
  | Returned a => Returned a
  | Threw e => handler e
  end.

(** The callback given to [onWillDispose], once the promise of
    [pitcherClient.clients.shell.close(shellId)] has settled as [closed]:
    how the promise of the callback settles. *)
Definition onWillDispose (closed : completion unit error) : completion unit error :=
  try_catch closed (fun _ => Returned tt).

(** Modelled from the spec: [dispose()] of the [Disposable] base class
    (utils/disposable.ts, which is not among the sources).  The first
    call runs the teardown hook, which sends the close request, and
    releases the owned children: the two emitters and the two
    registrations; a further call does nothing. *)
Definition dispose (s : t) : t :=
  if isDisposed s then s
  else
    {| shell := shell s; shellBuffer := shellBuffer s; output := output s;
       onShellOutputEmitter := Emitter.dispose (onShellOutputEmitter s);
       onShellUpdatedEmitter := Emitter.dispose (onShellUpdatedEmitter s);
       onShellsUpdated := false; onShellOut := false;
       isDisposed := true;
       calls := calls s ++ [CallClose (shellId (shell s))];
       emittedOutput := emittedOutput s;
       emittedUpdated := emittedUpdated s |}.

Inductive event : Type :=
| ShellsUpdated (shells : list ShellDTO)
| Out (id : Id) (out : jsstring)
| DisposeCalled.

Definition step (s : t) (e : event) : t :=
  match e with
  | ShellsUpdated shells => handleShellsUpdated s shells
  | Out id out => handleShellOut s id out
  | DisposeCalled => dispose s
  end.

Definition run (s : t) (es : list event) : t := fold_left step es s.

(** The last [k] entries of a list. *)
Definition lastn (A : Type) (k : nat) (l : list A) : list A :=
  skipn (length l - k) l.

(** The output chunks for the shell [id] among the events, up to the
    disposal of the handle. *)
Fixpoint chunks_for (id : Id) (es : list event) : list jsstring :=
  match es with
  | [] => []
  | Out i out :: r =>
    if JS.eqb i id then out :: chunks_for id r else chunks_for id r
  | ShellsUpdated _ :: r => chunks_for id r
  | DisposeCalled :: _ => []
  end.

End ShellInstance.

(* ===================================================================== *)
(** ** src/ports.ts : Ports *)
(* ===================================================================== *)

Module Ports.

(** A port as the collaborator reports it. Port numbers are integers. *)
Record Port : Type := { port : Z; url : jsstring }.

(** [class PortInfo] *)
Record PortInfo : Type := { infoPort : Z; hostname : jsstring }.

(** A [Set<number>], in insertion order. *)
Definition NumberSet := list Z.

Definition has (s : NumberSet) (n : Z) : bool := existsb (Z.eqb n) s.

Definition add (s : NumberSet) (n : Z) : NumberSet :=
  if has s n then s else s ++ [n].

(** [new Set(xs)] *)
Definition set_of (xs : list Z) : NumberSet := fold_left add xs [].

(** A call of [fire] on one of the two emitters. *)
Inductive fired : Type :=
| DidPortOpen (p : PortInfo)
| DidPortClose (n : Z).

Record t : Type := {
  lastOpenedPorts : NumberSet;
  events : list fired
}.

(** The constructor, [getPorts()] returning [ports]. *)
Definition new (ports : list Port) : t :=
  {| lastOpenedPorts := fold_left (fun s p => add s (port p)) ports [];
     events := [] |}.

Definition openedPorts (s : t) (ports : list Port) : list PortInfo :=
  map (fun p => {| infoPort := port p; hostname := url p |})
      (filter (fun p => negb (has (lastOpenedPorts s) (port p))) ports).

Definition closedPorts (s : t) (ports : list Port) : list Z :=
  filter (fun n => negb (existsb (fun p => Z.eqb (port p) n) ports))
         (lastOpenedPorts s).

(** The handler registered on [onPortsUpdated]. *)
Definition onPortsUpdated (s : t) (ports : list Port) : t :=
  let opened := openedPorts s ports in
  let closed := closedPorts s ports in
  let fired1 := match opened with [] => [] | _ => map DidPortOpen opened end in
  let fired2 := match closed with [] => [] | _ => map DidPortClose closed end in
  {| lastOpenedPorts := set_of (map port ports);
     events := events s ++ fired1 ++ fired2 |}.

(** The component after a sequence of batches. *)
Definition run (s : t) (batches : list (list Port)) : t :=
  fold_left onPortsUpdated batches s.

(** Whether the batch lists the port number [n]. *)
Definition in_batch (ports : list Port) (n : Z) : bool :=
  existsb (fun p => Z.eqb (port p) n) ports.

(** How many open events, and how many close events, for the port
    number [n] a list of fired events holds. *)
Definition opens_for (n : Z) (evs : list fired) : nat :=
  length (filter (fun e => match e with
                           | DidPortOpen p => Z.eqb (infoPort p) n
                           | DidPortClose _ => false
                           end) evs).

Definition closes_for (n : Z) (evs : list fired) : nat :=
  length (filter (fun e => match e with
                           | DidPortOpen _ => false
                           | DidPortClose m => Z.eqb m n
                           end) evs).

End Ports.

(* ===================================================================== *)
(** ** src/utils/handle-response.ts (event module) : listenOnce, onceEvent *)
(* ===================================================================== *)

Module Events.

Import Emitter.

Section Passes.
Variable V : Type.
Variable behaviour : listener -> V -> list action.

(** Successive calls of [emitter.fire], one per value, up to the first
    one that throws. *)
Fixpoint fires (fuel : nat) (em : Emitter.t) (vs : list V)
  : option (Emitter.t * list (listener * V) * completion unit error) :=
  match vs with
  | [] => Some (em, [], Returned tt)
  | v :: r =>
    match fire behaviour fuel em v with
    | None => None
    | Some (em', log, Threw e) => Some (em', log, Threw e)
    | Some (em', log, Returned _) =>
      match fires fuel em' r with
      | None => None
      | Some (em'', log', c) => Some (em'', log ++ log', c)
      end
    end
  end.

(** The listeners with the function [w] given the code [body]. *)
Definition with_listener (w : listener) (body : V -> list action)
  : listener -> V -> list action :=
  fun l v => if Nat.eqb l w then body v else behaviour l v.

End Passes.

(** The function that [onceEvent(event)] registers for a listener whose
    code is [inner]: [result.dispose(); return listener.call(thisArgs, e)]. *)
Definition onceEvent_callback (V : Type) (w : listener) (inner : V -> list action)
  : V -> list action :=
  fun v => Unregister w :: inner v.

(** [typeof condition === "undefined" || condition(result)] *)
Definition passes (V : Type) (condition : option (V -> bool)) (v : V) : bool :=
  match condition with
  | None => true
  | Some c => c v
  end.

(** The function that [listenOnce(event, condition)] registers: when the
    value passes it disposes its registration and resolves the promise. *)
Definition listenOnce_callback (V : Type) (w : listener)
  (condition : option (V -> bool)) : V -> list action :=
  fun v => if passes condition v then [Unregister w] else [].

(** The promise of [listenOnce], read off the calls made to its function:
    [resolve(result)] is called in each call whose value passes, and a
    promise keeps the first value it is resolved with. *)
Definition listenOnce_promise (V : Type) (w : listener)
  (condition : option (V -> bool)) (log : list (listener * V)) : option V :=
  match find (fun c => Nat.eqb (fst c) w && passes condition (snd c)) log with
  | Some c => Some (snd c)
  | None => None
  end.

(** The calls made to the function [w], in order. *)
Definition calls_to (V : Type) (w : listener) (log : list (listener * V))
  : list (listener * V) :=
  filter (fun c => Nat.eqb (fst c) w) log.

(** The values up to and including the first one that passes. *)
Fixpoint until_first (V : Type) (p : V -> bool) (vs : list V) : list V :=
  match vs with
  | [] => []
  | v :: r => if p v then [v] else v :: until_first p r
  end.

Section Reading.
Variable V : Type.
Variable behaviour : listener -> V -> list action.

(** Whether the code of [l] leaves the registrations alone for [v]. *)
Definition stays (v : V) (l : listener) : bool :=
  match behaviour l v with
  | [] => true
  | _ :: _ => false
  end.

(** The entry list after a pass for [v] in which every listener at most
    disposed its own registration. *)
Definition after_pass (v : V) (d : SetData) : SetData :=
  map (fun e => match e with
                | Some l => if stays v l then Some l else None
                | None => None
                end) d.

Definition after_passes (vs : list V) (d : SetData) : SetData :=
  fold_left (fun d v => after_pass v d) vs d.

(** The calls of successive passes over the listeners [ls], those that
    dispose their registration dropping out after the pass. *)
Fixpoint calls_of (ls : list listener) (vs : list V) : list (listener * V) :=
  match vs with
  | [] => []
  | v :: r => map (fun l => (l, v)) ls ++ calls_of (filter (stays v) ls) r
  end.

End Reading.

End Events.

(* ===================================================================== *)
(** ** src/unnamed/part_001 (rate-limit module) : RateLimitError *)
(* ===================================================================== *)

Module RateLimitError.

Record RateLimitHeaders : Type := {
  unit_ : jsstring;
  remaining : jsstring;
  reset : option jsstring;
  used : jsstring
}.

(** [Object.values(RATE_LIMIT_HEADERS)] *)
Definition RATE_LIMIT_HEADERS : list RateLimitHeaders :=
  [ {| unit_ := str "sandboxes";
       remaining := str "x-csb-sandbox-hourly-remaining";
       reset := Some (str "x-csb-sandbox-hourly-reset");
       used := str "x-csb-sandbox-hourly-used" |};
    {| unit_ := str "requests";
       remaining := str "x-csb-rate-hourly-remaining";
       reset := Some (str "x-csb-rate-hourly-reset");
       used := str "x-csb-rate-hourly-used" |};
    {| unit_ := str "concurrently running vms";
       remaining := str "x-csb-vms-remaining";
       reset := None;
       used := str "x-csb-vms-used" |} ].

(** A value in a template literal: [null], [undefined], a number that
    may be [NaN]. *)
Definition render_null (x : option jsstring) : jsstring :=
  match x with Some s => s | None => str "null" end.

Definition render_undefined (x : option jsstring) : jsstring :=
  match x with Some s => s | None => str "undefined" end.

Definition render_number (n : option Z) : jsstring :=
  match n with Some z => of_int z | None => str "NaN" end.

(** [a + b] on numbers that may be [NaN]. *)
Definition plus (a b : option Z) : option Z :=
  match a, b with
  | Some x, Some y => Some (x + y)%Z
  | _, _ => None
  end.

Section FromResponse.
(** [parseInt], with [None] for [NaN]. *)
Variable parseInt : jsstring -> option Z.
(** [response.headers.get] *)
Variable get : jsstring -> option jsstring.

(** [remaining && parseInt(remaining) <= 0] *)
Definition exceeded (h : RateLimitHeaders) : bool :=
  match get (remaining h) with
  | Some r =>
    truthy r && match parseInt r with Some n => (n <=? 0)%Z | None => false end
  | None => false
  end.

(** [x ?? "0"] *)
Definition or_zero (x : option jsstring) : jsstring :=
  match x with Some s => s | None => str "0" end.

(** The message of [RateLimitError.fromResponse(response, errorPrefix, serverError)]. *)
Definition fromResponse (errorPrefix : jsstring) (serverError : option jsstring)
  : jsstring :=
  match find exceeded RATE_LIMIT_HEADERS with
  | Some h =>
    let total := plus (parseInt (or_zero (get (remaining h))))
                      (parseInt (or_zero (get (used h)))) in
    let message := errorPrefix ++ str ": 0 of " ++ render_number total
                   ++ str " " ++ unit_ h ++ str " remaining." in
    let message' :=
      match reset h with
      | Some r =>
        if truthy r
        then message ++ str " Limit resets at " ++ render_null (get r) ++ str "."
        else message
      | None => message
      end in
    message' ++ str " Contact hello@codesandbox.io to raise your rate limit."
  | None => errorPrefix ++ str ": " ++ render_undefined serverError
  end.

End FromResponse.

End RateLimitError.

(* ===================================================================== *)
(** ** src/utils/handle-response.ts, first part : handleResponse *)
(* ===================================================================== *)

Module HandleResponse.

Record Response : Type := {
  status : Z;
  get : jsstring -> option jsstring
}.

(** What the key [error] of a result holds, as far as
    [(result.error as { errors: string[] }).errors[0]] looks at it; the
    cast is not checked, so the value need not have the shape the type
    names. *)
Inductive error_value : Type :=
| Nullish                           (* [undefined] or [null] *)
| NoErrors                          (* a value whose [errors] is [undefined] or [null] *)
| Errors (errors : list jsstring).  (* a value whose [errors] is an array of strings *)

(** The result of a request: [data] is [result.data] and, inside it,
    [result.data.data]; [error] is there when the result has the key
    [error]. *)
Record Result (D : Type) : Type := {
  data : option (option D);
  error : option error_value;
  response : Response
}.

(** What [handleResponse] throws: an [Error] or a [RateLimitError] it
    has made, or the [TypeError] of the engine for reading a property
    of [undefined] or [null], whose message is the engine's. *)
Inductive thrown : Type :=
| PlainError (message : jsstring)
| RateLimit (message : jsstring)
| TypeError.

Definition message_of (t : thrown) : option jsstring :=
  match t with
  | PlainError m => Some m
  | RateLimit m => Some m
  | TypeError => None
  end.

Definition is_rate_limit (t : thrown) : bool :=
  match t with RateLimit _ => true | _ => false end.

Section HandleResponse.
Variable D : Type.
(** Whether a value of the data type is truthy. *)
Variable truthyD : D -> bool.
Variable parseInt : jsstring -> option Z.

(** [errors[0]] *)
Definition first_error (errs : list jsstring) : option jsstring := nth_error errs 0.

(** [(result.error as { errors: string[] }).errors[0]] *)
Definition read_error (e : error_value) : completion (option jsstring) thrown :=
  match e with
  | Nullish => Threw TypeError
  | NoErrors => Threw TypeError
  | Errors errs => Returned (first_error errs)
  end.

Definition handleResponse (result : Result D) (errorPrefix : jsstring)
  : completion D thrown :=
  let st := status (response result) in
  match (if (st =? 429)%Z then error result else None) with
  | Some e =>
    match read_error e with
    | Threw t => Threw t
    | Returned first =>
      Threw (RateLimit
               (RateLimitError.fromResponse parseInt (get (response result))
                  errorPrefix first))
    end
  | None =>
    if (st =? 404)%Z then Threw (PlainError (errorPrefix ++ str ": Sandbox not found"))
    else if (st =? 403)%Z then Threw (PlainError (errorPrefix ++ str ": Unauthorized"))
    else if (st =? 502)%Z then Threw (PlainError (errorPrefix ++ str ": Bad gateway"))
    else
      match error result with
      | Some e =>
        match read_error e with
        | Threw t => Threw t
        | Returned first =>
          Threw (PlainError
                   (errorPrefix ++ str ": " ++ RateLimitError.render_undefined first))
        end
      | None =>
        match data result with
        | Some (Some d) =>
          if truthyD d then Returned d
          else Threw (PlainError (errorPrefix ++ str ": No data returned"))
        | _ => Threw (PlainError (errorPrefix ++ str ": No data returned"))
        end
      end
  end.

End HandleResponse.

End HandleResponse.

(* ===================================================================== *)
(** ** src/setup.ts (shells module) : the ShellInstance handle in use *)
(* ===================================================================== *)

Module ShellHandle.

Import ShellInstance.

(** [shell.onOutput(listener)]: [onOutput] is the [event] of the output
    emitter. *)
Definition onOutput (s : t) (l : Emitter.listener) : t :=
  {| shell := shell s; shellBuffer := shellBuffer s; output := output s;
     onShellOutputEmitter := fst (Emitter.event (onShellOutputEmitter s) l);
     onShellUpdatedEmitter := onShellUpdatedEmitter s;
     onShellsUpdated := onShellsUpdated s; onShellOut := onShellOut s;
     isDisposed := isDisposed s; calls := calls s;
     emittedOutput := emittedOutput s;
     emittedUpdated := emittedUpdated s |}.

(** A handle on which the functions [ls] were registered for output
    right after its construction. *)
Definition listened (sh : ShellDTO) (buf : option (list jsstring))
  (ls : list Emitter.listener) : t :=
  fold_left onOutput ls (new sh buf).

(** [get id()], [get name()], [get exitCode()], [get status()] *)
Definition id (s : t) : jsstring := shellId (shell s).
Definition name (s : t) : jsstring := Protocol.name (shell s).
Definition exitCode (s : t) : option Z := Protocol.exitCode (shell s).
Definition status (s : t) : ShellStatus := Protocol.status (shell s).

(** [shell.onShellUpdated(listener)]: [onShellUpdated] is the [event] of
    the update emitter. *)
Definition onShellUpdated (s : t) (l : Emitter.listener) : t :=
  {| shell := shell s; shellBuffer := shellBuffer s; output := output s;
     onShellOutputEmitter := onShellOutputEmitter s;
     onShellUpdatedEmitter := fst (Emitter.event (onShellUpdatedEmitter s) l);
     onShellsUpdated := onShellsUpdated s; onShellOut := onShellOut s;
     isDisposed := isDisposed s; calls := calls s;
     emittedOutput := emittedOutput s;
     emittedUpdated := emittedUpdated s |}.

(** A handle on which the functions [ls] were registered for updates
    right after its construction. *)
Definition watched (sh : ShellDTO) (buf : option (list jsstring))
  (ls : list Emitter.listener) : t :=
  fold_left onShellUpdated ls (new sh buf).

(** Reading a list of events for the shell [id]: for every update batch
    that lists the shell, the first entry the batch holds for it, in
    arrival order and up to the disposal of the handle. *)
Fixpoint updates_for (id : Id) (es : list event) : list ShellDTO :=
  match es with
  | [] => []
  | ShellsUpdated shells :: r =>
    match find (fun x => JS.eqb (shellId x) id) shells with
    | Some u => u :: updates_for id r
    | None => updates_for id r
    end
  | Out _ _ :: r => updates_for id r
  | DisposeCalled :: _ => []
  end.

(** A disposed handle has no handler registered any more. *)
Definition handle_ok (s : t) : Prop :=
  isDisposed s = true -> onShellsUpdated s = false /\ onShellOut s = false.

End ShellHandle.

(* ===================================================================== *)
(** ** src/setup.ts (shells module) : a command in use *)
(* ===================================================================== *)

Module CommandUse.

Import Command.

(** The session [sh] is known to the command: the body is past
    [await create] and waits on the barrier or is over. *)
Definition created (s : t) (sh : OpenShellDTO) : Prop :=
  shell s = Some sh /\ (at_ s = AwaitBarrier \/ at_ s = Completed).

(** What the live-output stream carries for a session that was created
    with the buffer [buf] and then received the notifications [ns]: the
    buffered lines as one value when there are any characters, then the
    chunks of the session. *)
Definition heard (id : Id) (buf : list jsstring) (ns : list notification)
  : list jsstring :=
  (if truthy (join newline buf) then [join newline buf] else [])
  ++ chunks_for id ns.

(** The values passed to the listeners [ls], one after the other. *)
Definition delivered (ls : list Emitter.listener) (values : list jsstring)
  : list (Emitter.listener * jsstring) :=
  flat_map (fun c => map (fun l => (l, c)) ls) values.

(** How often [kill()] is called among the events. *)
Fixpoint kills (es : list event) : nat :=
  match es with
  | [] => 0
  | KillCalled :: r => S (kills r)
  | _ :: r => kills r
  end.

(** The create request has been sent and its promise has not settled:
    no session is known and no handler is registered. *)
Definition before_create (s : t) : Prop :=
  shell s = None /\ at_ s = AwaitCreate /\ resultPromise s = PromisePending
  /\ onShellOut s = false /\ onShellExited s = false
  /\ onShellTerminated s = false.

(** No handler is registered on the notification streams, and the body
    is past the creation of the session. *)
Definition quiet (s : t) : Prop :=
  onShellOut s = false /\ onShellExited s = false /\ onShellTerminated s = false
  /\ (at_ s = AwaitBarrier \/ at_ s = Completed).

(** How often the promise of the create request settles among the
    events. *)
Fixpoint creates (es : list event) : nat :=
  match es with
  | [] => 0
  | CreateSettled _ :: r => S (creates r)
  | _ :: r => creates r
  end.

End CommandUse.

(* ===================================================================== *)
(** ** src/ports.ts, first part : the getters of [Ports] and [PortInfo] *)
(* ===================================================================== *)

Module PortsGetters.

Import Ports.

(** A parameter [protocol = "https://"]. *)
Definition protocol_or_default (protocol : option jsstring) : jsstring :=
  match protocol with Some p => p | None => str "https://" end.

(** [portInfo.getPreviewUrl(protocol)] *)
Definition PortInfo_getPreviewUrl (info : PortInfo) (protocol : option jsstring)
  : jsstring :=
  protocol_or_default protocol ++ hostname info.

(** [ports.getOpenedPorts()], [getPorts()] returning [ports]. *)
Definition getOpenedPorts (ports : list Port) : list PortInfo :=
  map (fun p => {| infoPort := port p; hostname := url p |}) ports.

(** [ports.getOpenedPort(port)] *)
Definition getOpenedPort (ports : list Port) (n : Z) : option PortInfo :=
  find (fun p => Z.eqb (infoPort p) n) (getOpenedPorts ports).

(** [ports.getPreviewUrl(port, protocol)] *)
Definition getPreviewUrl (ports : list Port) (n : Z) (protocol : option jsstring)
  : option jsstring :=
  match find (fun p => Z.eqb (port p) n) ports with
  | Some p =>
    if truthy (url p) then Some (protocol_or_default protocol ++ url p) else None
  | None => None
  end.

End PortsGetters.

(* ===================================================================== *)
(** ** src/sandbox-client.ts : VMTier *)
(* ===================================================================== *)

Module VMTier.

(** The names of the tiers. *)
Inductive tier : Type :=
| NamePico | NameNano | NameMicro | NameSmall | NameMedium | NameLarge | NameXLarge.

(** The numbers of a tier and of the specs asked for; they are taken
    to be finite, so that [>=] is the order of the rationals. *)
Record t : Type := {
  name : tier;
  cpuCores : QArith_base.Q;
  memoryGiB : QArith_base.Q;
  diskGB : QArith_base.Q
}.

Definition Pico : t :=
  {| name := NamePico; cpuCores := QArith_base.inject_Z 1;
     memoryGiB := QArith_base.inject_Z 2; diskGB := QArith_base.inject_Z 20 |}.
Definition Nano : t :=
  {| name := NameNano; cpuCores := QArith_base.inject_Z 2;
     memoryGiB := QArith_base.inject_Z 4; diskGB := QArith_base.inject_Z 20 |}.
Definition Micro : t :=
  {| name := NameMicro; cpuCores := QArith_base.inject_Z 4;
     memoryGiB := QArith_base.inject_Z 8; diskGB := QArith_base.inject_Z 20 |}.
Definition Small : t :=
  {| name := NameSmall; cpuCores := QArith_base.inject_Z 8;
     memoryGiB := QArith_base.inject_Z 16; diskGB := QArith_base.inject_Z 30 |}.
Definition Medium : t :=
  {| name := NameMedium; cpuCores := QArith_base.inject_Z 16;
     memoryGiB := QArith_base.inject_Z 32; diskGB := QArith_base.inject_Z 40 |}.
Definition Large : t :=
  {| name := NameLarge; cpuCores := QArith_base.inject_Z 32;
     memoryGiB := QArith_base.inject_Z 64; diskGB := QArith_base.inject_Z 50 |}.
Definition XLarge : t :=
  {| name := NameXLarge; cpuCores := QArith_base.inject_Z 64;
     memoryGiB := QArith_base.inject_Z 128; diskGB := QArith_base.inject_Z 50 |}.

(** [Object.values(VMTier)]: the static fields, in the order of their
    definition. *)
Definition values : list t := [Pico; Nano; Micro; Small; Medium; Large; XLarge].

(** [VMTier.fromName(name)] *)
Definition fromName (n : tier) : t :=
  match n with
  | NamePico => Pico | NameNano => Nano | NameMicro => Micro
  | NameSmall => Small | NameMedium => Medium | NameLarge => Large
  | NameXLarge => XLarge
  end.

Record Specs : Type := {
  cpu : QArith_base.Q;
  memGiB : QArith_base.Q;
  specsDiskGB : option QArith_base.Q
}.

(** The callback given to [find]. *)
Definition complies (specs : Specs) (tier : t) : bool :=
  QArith_base.Qle_bool (cpu specs) (cpuCores tier)
  && QArith_base.Qle_bool (memGiB specs) (memoryGiB tier)
  && match specsDiskGB specs with
     | None => true
     | Some d => QArith_base.Qle_bool d (diskGB tier)
     end.

(** [VMTier.fromSpecs(specs)] *)
Definition fromSpecs (specs : Specs) : option t := find (complies specs) values.

(** A tier has at most the cores, the memory and the disk of another. *)
Definition at_most (a b : t) : Prop :=
  QArith_base.Qle (cpuCores a) (cpuCores b)
  /\ QArith_base.Qle (memoryGiB a) (memoryGiB b)
  /\ QArith_base.Qle (diskGB a) (diskGB b).

End VMTier.

(* ===================================================================== *)
(** ** src/setup.ts (shells module) : runCommandAsUser and the functions
       registered on [onOutput] *)
(* ===================================================================== *)

(** [Command] takes the functions registered on [onOutput] to observe
    only.  Here they are any code: a function can throw, and it can
    register and remove functions on the emitter while it runs.
    [onOutput.fire] does not catch, so an exception leaves the handler
    or the body that called [fire]. *)
Module CommandFire.

Import Emitter Command.

Section Listeners.

(** The code of the functions registered on [onOutput]. *)
Variable behaviour : listener -> jsstring -> list action.
(** The number of steps a pass of [fire] is given. *)
Variable fuel : nat.

(** [onOutput.fire(v)]: the command after the pass and how the pass
    ended; [None] when the pass does not end within the steps given. *)
Definition fire_onOutput (s : t) (v : jsstring)
  : option (t * completion unit error) :=
  match Emitter.fire behaviour fuel (onOutput s) v with
  | Some (em, log, c) =>
    Some (set_emitted (set_onOutput s em) (emitted s ++ log), c)
  | None => None
  end.

(** The body after [await pitcher.clients.shell.create(...)], up to
    [await barrier.wait()]; an exception of [fire] is thrown by the
    body, which rejects the promise. *)
Definition afterCreate (s : t) (r : completion OpenShellDTO error) : option t :=
  match r with
  | Threw e => Some (settle s (PromiseRejected e))
  | Returned sh =>
    let s1 := set_shell s (Some sh) in
    let s2 :=
      match shellName (params s1) with
      | Some n => if truthy n then send s1 (CallRename (shellId (dto sh)) n) else s1
      | None => s1
      end in
    if ShellStatus_eqb (status (dto sh)) FINISHED then
      Some (settle s2 (PromiseFulfilled
                         {| output := trim (join newline (buffer sh));
                            resultExitCode := exitCode (dto sh) |}))
    else
      let s3 := set_combinedOut s2 (join newline (buffer sh)) in
      match (if truthy (combinedOut s3)
             then fire_onOutput s3 (combinedOut s3)
             else Some (s3, Returned tt)) with
      | None => None
      | Some (s4, Threw e) => Some (settle s4 (PromiseRejected e))
      | Some (s4, Returned _) =>
        let s5 := set_barrier s4 Barrier.Pending in
        let s6 := subscribe s5 ItemShellOut in
        let s7 := subscribe s6 ItemShellExited in
        let s8 := subscribe s7 ItemShellTerminated in
        Some (suspend s8 AwaitBarrier)
      end
  end.

(** A notification reaches the handlers that are still registered; in
    the output handler an exception of [fire] skips [combinedOut += out]. *)
Definition notify (s : t) (n : notification) : option t :=
  match n with
  | ShellOut id out =>
    if onShellOut s && is_mine s id then
      match fire_onOutput s out with
      | None => None
      | Some (s1, Returned _) => Some (set_combinedOut s1 (combinedOut s1 ++ out))
      | Some (s1, Threw _) => Some s1
      end
    else Some s
  | _ => Some (Command.notify s n)
  end.

Definition step (s : t) (e : event) : option t :=
  match e with
  | CreateSettled r =>
    match at_ s with AwaitCreate => afterCreate s r | _ => Some s end
  | Notification n => notify s n
  | _ => Some (Command.step s e)
  end.

Fixpoint run (s : t) (es : list event) : option t :=
  match es with
  | [] => Some s
  | e :: r =>
    match step s e with
    | Some s' => run s' r
    | None => None
    end
  end.

(** Every function registered on [onOutput] only observes the values,
    and a pass over them ends within the steps given. *)
Definition observed (s : t) : Prop :=
  (forall l v, In l (elements (registeredListeners (onOutput s))) ->
               behaviour l v = [])
  /\ length (registeredListeners (onOutput s)) < fuel.

End Listeners.

(** What of a command the functions registered on [onOutput] cannot
    touch: everything but the emitter, the accumulated output and the
    record of the calls made to the functions. *)
Definition control (s : t) :=
  (params s, disposableStore s, shell s, barrier s,
   (onShellOut s, onShellExited s, onShellTerminated s),
   calls s, at_ s, resultPromise s).

(** The command waits on its barrier, or its body is over, and its
    three handlers are either all registered and held by the store, or
    none is registered. *)
Definition settled_or_held (s : t) : Prop :=
  (at_ s = AwaitBarrier /\ resultPromise s = PromisePending
   /\ ((onShellOut s = true /\ onShellExited s = true /\ onShellTerminated s = true
        /\ disposableStore s
           = {| isDisposed := false;
                toDispose := [ItemOnOutput; ItemShellOut; ItemShellExited;
                              ItemShellTerminated] |})
       \/ (onShellOut s = false /\ onShellExited s = false
           /\ onShellTerminated s = false
           /\ isDisposed (disposableStore s) = true)))
  \/ (at_ s = Completed
      /\ onShellOut s = false /\ onShellExited s = false
      /\ onShellTerminated s = false).

End CommandFire.

(* ===================================================================== *)
(** ** src/setup.ts (shells module) : ShellInstance and the functions
       registered on its two events *)
(* ===================================================================== *)

(** [ShellInstance] takes the functions registered on [onOutput] and
    [onShellUpdated] to observe only.  Here they are any code; [fire]
    does not catch, so an exception leaves the handler that called it. *)
Module ShellInstanceFire.

Import Emitter ShellInstance.

Section Listeners.

(** The code of the functions registered on [onOutput] and on
    [onShellUpdated]. *)
Variable onOutput : listener -> jsstring -> list action.
Variable onShellUpdated : listener -> unit -> list action.
(** The number of steps a pass of [fire] is given. *)
Variable fuel : nat.

(** The handler registered on [onShellOut]: an exception of [fire]
    skips [this.output.push(out)]. *)
Definition handleShellOut (s : t) (id : Id) (out : jsstring) : option t :=
  if onShellOut s && JS.eqb id (shellId (shell s)) then
    match Emitter.fire onOutput fuel (onShellOutputEmitter s) out with
    | None => None
    | Some (em, log, c) =>
      Some {| shell := shell s; shellBuffer := shellBuffer s;
              output := match c with
                        | Returned _ => push_output (output s) out
                        | Threw _ => output s
                        end;
              onShellOutputEmitter := em;
              onShellUpdatedEmitter := onShellUpdatedEmitter s;
              onShellsUpdated := onShellsUpdated s;
              onShellOut := ShellInstance.onShellOut s;
              isDisposed := isDisposed s; calls := calls s;
              emittedOutput := emittedOutput s ++ log;
              emittedUpdated := emittedUpdated s |}
    end
  else Some s.

(** The handler registered on [onShellsUpdated]: the record is replaced
    before [fire()] is called. *)
Definition handleShellsUpdated (s : t) (shells : list ShellDTO) : option t :=
  if onShellsUpdated s then
    match find (fun x => JS.eqb (shellId x) (shellId (shell s))) shells with
    | Some updatedShell =>
      match Emitter.fire onShellUpdated fuel (onShellUpdatedEmitter s) tt with
      | None => None
      | Some (em, log, _) =>
        Some {| shell := updatedShell; shellBuffer := Some [];
                output := output s;
                onShellOutputEmitter := onShellOutputEmitter s;
                onShellUpdatedEmitter := em;
                onShellsUpdated := onShellsUpdated s;
                onShellOut := ShellInstance.onShellOut s;
                isDisposed := isDisposed s; calls := calls s;
                emittedOutput := emittedOutput s;
                emittedUpdated := emittedUpdated s ++ log |}
      end
    | None => Some s
    end
  else Some s.

Definition step (s : t) (e : event) : option t :=
  match e with
  | ShellsUpdated shells => handleShellsUpdated s shells
  | Out id out => handleShellOut s id out
  | DisposeCalled => Some (dispose s)
  end.

Fixpoint run (s : t) (es : list event) : option t :=
  match es with
  | [] => Some s
  | e :: r =>
    match step s e with
    | Some s' => run s' r
    | None => None
    end
  end.

(** Every function registered on the two events only observes, and a
    pass over them ends within the steps given. *)
Definition observed (s : t) : Prop :=
  (forall l v, In l (elements (registeredListeners (onShellOutputEmitter s))) ->
               onOutput l v = [])
  /\ (forall l v, In l (elements (registeredListeners (onShellUpdatedEmitter s))) ->
                  onShellUpdated l v = [])
  /\ length (registeredListeners (onShellOutputEmitter s)) < fuel
  /\ length (registeredListeners (onShellUpdatedEmitter s)) < fuel.

End Listeners.

End ShellInstanceFire.

(* ===================================================================== *)
(** * Properties *)
(* ===================================================================== *)

(** ** Strings *)

Lemma jseqb_eq (a b : jsstring) : JS.eqb a b = true <-> a = b.
Proof.
  unfold JS.eqb; destruct (list_eq_dec N.eq_dec a b); split; congruence.
Qed.

Lemma jseqb_refl (a : jsstring) : JS.eqb a a = true.
Proof. apply jseqb_eq; reflexivity. Qed.

Lemma jseqb_neq (a b : jsstring) : JS.eqb a b = false <-> a <> b.
Proof.
  unfold JS.eqb; destruct (list_eq_dec N.eq_dec a b); split; congruence.
Qed.

Example trim_hi : trim (str "hi" ++ newline) = str "hi".
Proof. reflexivity. Qed.

Example trim_inner_kept :
  trim (str "  a b" ++ newline ++ str "c " ++ [160%N]) = str "a b" ++ newline ++ str "c".
Proof. reflexivity. Qed.

Example join_two :
  join newline [str "a"; str "b"] = str "a" ++ newline ++ str "b".
Proof. reflexivity. Qed.

Example of_int_ex : of_int (-12) = str "-12" /\ of_int 0 = str "0".
Proof. split; reflexivity. Qed.

(** ** Emitter *)

Section EmitterFacts.

Import Emitter.

Lemma has_In (d : SetData) (l : listener) :
  has d l = true <-> In l (elements d).
Proof.
  unfold has; induction d as [|[x|] d IH]; simpl.
  - split; [discriminate | tauto].
  - rewrite orb_true_iff, IH, Nat.eqb_eq. tauto.
  - exact IH.
Qed.

Lemma elements_app (a b : SetData) :
  elements (a ++ b) = elements a ++ elements b.
Proof.
  induction a as [|[x|] a IH]; simpl; [reflexivity | f_equal; exact IH | exact IH].
Qed.

Lemma elements_add (d : SetData) (l : listener) :
  elements (add d l) = if has d l then elements d else elements d ++ [l].
Proof.
  unfold add; destruct (has d l); [reflexivity|].
  rewrite elements_app; reflexivity.
Qed.

Lemma elements_delete (d : SetData) (l : listener) :
  elements (delete d l) = filter (fun x => negb (Nat.eqb x l)) (elements d).
Proof.
  unfold delete; induction d as [|[x|] d IH]; simpl; [reflexivity| |exact IH].
  destruct (Nat.eqb x l); simpl; [exact IH | f_equal; exact IH].
Qed.

Lemma delete_app (a b : SetData) (l : listener) :
  delete (a ++ b) l = delete a l ++ delete b l.
Proof. unfold delete; apply map_app. Qed.

Lemma length_delete (d : SetData) (l : listener) :
  length (delete d l) = length d.
Proof. unfold delete; apply length_map. Qed.

Lemma delete_absent (d : SetData) (l : listener) :
  ~ In l (elements d) -> delete d l = d.
Proof.
  unfold delete; induction d as [|[x|] d IH]; simpl; intros H.
  - reflexivity.
  - destruct (Nat.eqb_spec x l) as [->|Hne]; [tauto|].
    f_equal; apply IH; tauto.
  - f_equal; apply IH; exact H.
Qed.

Lemma NoDup_elements_add (d : SetData) (l : listener) :
  NoDup (elements d) -> NoDup (elements (add d l)).
Proof.
  intros H; rewrite elements_add.
  destruct (has d l) eqn:E; [exact H|].
  apply NoDup_app; [exact H | repeat constructor; simpl; tauto |].
  intros x Hx [<-|[]].
  apply has_In in Hx; congruence.
Qed.

Lemma NoDup_elements_delete (d : SetData) (l : listener) :
  NoDup (elements d) -> NoDup (elements (delete d l)).
Proof. intros H; rewrite elements_delete; apply NoDup_filter; exact H. Qed.

End EmitterFacts.

Section EmitterFire.

Import Emitter.

Variable V : Type.
Variable behaviour : listener -> V -> list action.

Lemma delete_idem (d : SetData) (l : listener) :
  delete (delete d l) l = delete d l.
Proof.
  unfold delete; rewrite map_map; apply map_ext; intros [x|]; simpl; [|reflexivity].
  destruct (Nat.eqb x l) eqn:E; simpl; [reflexivity | rewrite E; reflexivity].
Qed.

Lemma run_body_self (l : listener) (acts : list action) (d : SetData) :
  Forall (fun a => a = Unregister l) acts ->
  run_body acts d = (d, Returned tt) \/ run_body acts d = (delete d l, Returned tt).
Proof.
  intros H; revert d; induction H as [|a acts -> _ IH]; intros d; simpl.
  - left; reflexivity.
  - right. destruct (IH (delete d l)) as [E|E]; rewrite E; [reflexivity|].
    rewrite delete_idem; reflexivity.
Qed.

(** A pass that has walked [passed] and still has [rest] ahead calls every
    listener of [rest], whichever of them remove themselves. *)
Lemma forEach_self_removal (v : V) (rest : SetData) :
  forall (passed : SetData) (log : list (listener * V)) (fuel : nat),
    NoDup (elements rest) ->
    (forall l, In l (elements rest) -> removes_only_itself behaviour v l) ->
    length rest < fuel ->
    exists d',
      forEach behaviour fuel v (length passed) (passed ++ rest) log
      = Some (d', log ++ map (fun l => (l, v)) (elements rest), Returned tt).
Proof.
  induction rest as [|e rest IH]; intros passed log fuel ND Hself Hfuel.
  - destruct fuel as [|fuel]; [simpl in Hfuel; lia|]. simpl.
    rewrite app_nil_r.
    assert (E : nth_error passed (length passed) = None)
      by (apply nth_error_None; lia).
    rewrite E. exists passed. rewrite app_nil_r. reflexivity.
  - destruct fuel as [|fuel]; [simpl in Hfuel; lia|].
    simpl in Hfuel. cbn [forEach].
    rewrite nth_error_app2 by lia. rewrite Nat.sub_diag. cbn [nth_error].
    destruct e as [l|].
    + simpl in ND, Hself. inversion ND as [|? ? Hnotin ND']; subst.
      assert (Hrest : delete rest l = rest) by (apply delete_absent; exact Hnotin).
      assert (Hshape : forall d0, d0 = passed ++ Some l :: rest \/
                                  d0 = delete (passed ++ Some l :: rest) l ->
                exists passed' e', d0 = (passed' ++ [e']) ++ rest
                                   /\ length (passed' ++ [e']) = S (length passed)).
      { intros d0 [->| ->].
        - exists passed, (Some l). rewrite <- app_assoc. split; [reflexivity|].
          rewrite length_app; simpl; lia.
        - exists (delete passed l), None.
          rewrite delete_app. change (Some l :: rest) with ([Some l] ++ rest).
          rewrite delete_app, Hrest. unfold delete at 2. simpl.
          rewrite Nat.eqb_refl. rewrite <- app_assoc. split; [reflexivity|].
          rewrite length_app, length_delete; simpl; lia. }
      destruct (run_body_self (passed ++ Some l :: rest) (Hself l (or_introl eq_refl)))
        as [E|E]; rewrite E.
      * destruct (Hshape _ (or_introl eq_refl)) as (p' & e' & -> & Hlen).
        rewrite <- Hlen.
        destruct (IH (p' ++ [e']) (log ++ [(l, v)]) fuel ND') as [d' Hd'];
          [intros; apply Hself; right; assumption | lia |].
        exists d'. rewrite Hd'. simpl. rewrite <- app_assoc. reflexivity.
      * destruct (Hshape _ (or_intror eq_refl)) as (p' & e' & Hd0 & Hlen).
        rewrite Hd0. rewrite <- Hlen.
        destruct (IH (p' ++ [e']) (log ++ [(l, v)]) fuel ND') as [d' Hd'];
          [intros; apply Hself; right; assumption | lia |].
        exists d'. rewrite Hd'. simpl. rewrite <- app_assoc. reflexivity.
    + simpl in ND, Hself.
      replace (passed ++ None :: rest) with ((passed ++ [None]) ++ rest)
        by (rewrite <- app_assoc; reflexivity).
      replace (S (length passed)) with (length (passed ++ [None]))
        by (rewrite length_app; simpl; lia).
      apply IH; [exact ND | exact Hself | lia].
Qed.

End EmitterFire.

(** C6 (Emitter: registration, disposal, firing, listener isolation).
    [event(listener)] adds the listener to the registered set and returns
    a disposable; disposing it, on whatever the set has become, removes
    that listener and keeps every other one, in order.  [fire(v)] runs to
    completion and calls every listener registered at the start of the
    pass exactly once with [v], in registration order; this holds
    whichever of the listeners dispose their own registration while they
    are being called, so the removal of a listener from within its own
    invocation takes nothing away from the other listeners of the pass. *)
Theorem emitter_event_dispose_fire :
  forall (V : Type) (behaviour : Emitter.listener -> V -> list Emitter.action)
         (em : Emitter.t) (v : V) (l : Emitter.listener) (fuel : nat),
    NoDup (Emitter.elements (Emitter.registeredListeners em)) ->
    (forall x, In x (Emitter.elements (Emitter.registeredListeners em)) ->
               Emitter.removes_only_itself behaviour v x) ->
    length (Emitter.registeredListeners em) < fuel ->
    (In l (Emitter.elements (Emitter.registeredListeners (fst (Emitter.event em l))))
     /\ (forall x, In x (Emitter.elements (Emitter.registeredListeners em)) ->
           In x (Emitter.elements (Emitter.registeredListeners (fst (Emitter.event em l)))))
     /\ NoDup (Emitter.elements (Emitter.registeredListeners (fst (Emitter.event em l))))
     /\ forall em2,
          Emitter.elements
            (Emitter.registeredListeners
               (Emitter.dispose_registration (snd (Emitter.event em l)) em2))
          = filter (fun x => negb (Nat.eqb x l))
                   (Emitter.elements (Emitter.registeredListeners em2)))
    /\ exists em',
         Emitter.fire behaviour fuel em v
         = Some (em',
                 map (fun x => (x, v)) (Emitter.elements (Emitter.registeredListeners em)),
                 Returned tt).
Proof.
  intros V behaviour em v l fuel ND Hself Hfuel. split.
  - simpl. rewrite elements_add. repeat split.
    + destruct (Emitter.has (Emitter.registeredListeners em) l) eqn:E.
      * apply has_In; exact E.
      * apply in_or_app; right; left; reflexivity.
    + intros x Hx.
      destruct (Emitter.has (Emitter.registeredListeners em) l);
        [exact Hx | apply in_or_app; left; exact Hx].
    + rewrite <- elements_add. apply NoDup_elements_add; exact ND.
    + intros em2. apply elements_delete.
  - unfold Emitter.fire.
    destruct (@forEach_self_removal V behaviour v (Emitter.registeredListeners em)
                [] [] fuel ND Hself Hfuel) as [d' Hd'].
    simpl in Hd'. rewrite Hd'. eexists; reflexivity.
Qed.

(** Three listeners, the first of which disposes its own registration
    when called. *)
Lemma emitter_event_dispose_fire_witness :
  exists em',
    Emitter.fire (fun l (_ : nat) => if Nat.eqb l 1 then [Emitter.Unregister 1] else [])
      4 {| Emitter.registeredListeners := [Some 1; Some 2; Some 3] |} 7
    = Some (em', [(1, 7); (2, 7); (3, 7)], Returned tt).
Proof.
  refine (proj2 (@emitter_event_dispose_fire nat
           (fun l (_ : nat) => if Nat.eqb l 1 then [Emitter.Unregister 1] else [])
           {| Emitter.registeredListeners := [Some 1; Some 2; Some 3] |} 7 1 4 _ _ _)).
  - simpl. repeat (constructor; [simpl; intuition discriminate|]). constructor.
  - simpl. intros x [<-|[<-|[<-|[]]]]; unfold Emitter.removes_only_itself; simpl;
      repeat constructor.
  - simpl. lia.
Defined.

(** The pass of the example really leaves listener 1 unregistered. *)
Example fire_self_removal_run :
  Emitter.fire (fun l (_ : nat) => if Nat.eqb l 1 then [Emitter.Unregister 1] else [])
    4 {| Emitter.registeredListeners := [Some 1; Some 2; Some 3] |} 7
  = Some ({| Emitter.registeredListeners := [None; Some 2; Some 3] |},
          [(1, 7); (2, 7); (3, 7)], Returned tt).
Proof. reflexivity. Qed.

(** An exception thrown by a listener is not caught by [fire]: it leaves
    the pass, and the listeners after it are not called. *)
Example fire_listener_throws :
  Emitter.fire (fun l (_ : nat) => if Nat.eqb l 1 then [Emitter.Throw (Error (str "boom"))] else [])
    4 {| Emitter.registeredListeners := [Some 1; Some 2] |} 7
  = Some ({| Emitter.registeredListeners := [Some 1; Some 2] |},
          [(1, 7)], Threw (Error (str "boom"))).
Proof. reflexivity. Qed.

(** [fire_observers] is [fire] for listeners that leave the emitter alone. *)
Lemma fire_observers_fire (V : Type) (em : Emitter.t) (v : V) (fuel : nat) :
  length (Emitter.registeredListeners em) < fuel ->
  Emitter.fire (fun _ _ => []) fuel em v
  = Some (em, Emitter.fire_observers em v, Returned tt).
Proof.
  intros Hfuel. unfold Emitter.fire, Emitter.fire_observers.
  destruct em as [d]; simpl in *.
  assert (G : forall rest passed log fuel,
             length rest < fuel ->
             Emitter.forEach (fun (_ : Emitter.listener) (_ : V) => []) fuel v
               (length passed) (passed ++ rest) log
             = Some (passed ++ rest,
                     log ++ map (fun l => (l, v)) (Emitter.elements rest), Returned tt)).
  { clear. induction rest as [|e rest IH]; intros passed log fuel Hf;
      (destruct fuel as [|fuel]; [simpl in Hf; lia|]); cbn [Emitter.forEach].
    - rewrite app_nil_r.
      assert (E : nth_error passed (length passed) = None)
        by (apply nth_error_None; lia).
      rewrite E. simpl. rewrite app_nil_r. reflexivity.
    - rewrite nth_error_app2 by lia. rewrite Nat.sub_diag. cbn [nth_error].
      simpl in Hf.
      replace (passed ++ e :: rest) with ((passed ++ [e]) ++ rest)
        by (rewrite <- app_assoc; reflexivity).
      replace (S (length passed)) with (length (passed ++ [e]))
        by (rewrite length_app; simpl; lia).
      destruct e as [l|]; simpl.
      + rewrite IH by lia. rewrite <- !app_assoc. reflexivity.
      + rewrite IH by lia. reflexivity. }
  specialize (G d [] [] fuel Hfuel). simpl in G. rewrite G. reflexivity.
Qed.

(** ** AsyncEmitter *)

Section AsyncEmitterFacts.

Import AsyncEmitter.

Variable V : Type.

Lemma merge_nil (rs : list (option settlement)) :
  forall k, merge k rs [] = rs.
Proof.
  induction rs as [|[s|] rs IH]; intros k; simpl; [reflexivity| |];
    rewrite IH; reflexivity.
Qed.

Lemma merge_timer (rs : list (option settlement)) (os : list occurrence) :
  forall k, merge k rs (TimerElapsed :: os) = merge k rs os.
Proof.
  induction rs as [|r rs IH]; intros k; simpl; [reflexivity|].
  rewrite IH; reflexivity.
Qed.

Lemma merge_earlier (rs : list (option settlement)) (os : list occurrence)
  (j : nat) (s : settlement) :
  forall k, j < k -> merge k rs (ListenerSettled j s :: os) = merge k rs os.
Proof.
  induction rs as [|r rs IH]; intros k Hk; simpl; [reflexivity|].
  rewrite IH by lia.
  destruct (Nat.eqb_spec j k); [lia | reflexivity].
Qed.

Lemma merge_record (rs : list (option settlement)) (os : list occurrence)
  (s : settlement) :
  forall k i,
    merge k (record_result rs i s) os = merge k rs (ListenerSettled (k + i) s :: os).
Proof.
  induction rs as [|r rs IH]; intros k i; [destruct i; reflexivity|].
  destruct i as [|i].
  - rewrite Nat.add_0_r.
    destruct r as [s0|]; simpl; rewrite merge_earlier by lia;
      [reflexivity | rewrite Nat.eqb_refl; reflexivity].
  - destruct r as [s0|]; simpl; rewrite IH;
      replace (S k + i) with (k + S i) by lia; [reflexivity|].
    destruct (Nat.eqb_spec (k + S i) k); [lia | reflexivity].
Qed.

Lemma merge_fresh (os : list occurrence) (A : Type) (ls : list A) :
  forall k, merge k (map (fun _ => None) ls) os
            = map (fun i => first_settlement i os) (seq k (length ls)).
Proof.
  induction ls as [|a ls IH]; intros k; simpl; [reflexivity|].
  rewrite IH; reflexivity.
Qed.

Lemma results_react (f : firing V) : results (react f) = results f.
Proof.
  unfold react. destruct (outcome f); [reflexivity|].
  destruct (all_settled (results f)); reflexivity.
Qed.

Lemma invoked_react (f : firing V) : invoked (react f) = invoked f.
Proof.
  unfold react. destruct (outcome f); [reflexivity|].
  destruct (all_settled (results f)); reflexivity.
Qed.

Lemma invoked_run (os : list occurrence) :
  forall f : firing V, invoked (run f os) = invoked f.
Proof.
  induction os as [|o os IH]; intros f; [reflexivity|].
  unfold run in *; simpl. rewrite IH.
  destruct o; simpl; [rewrite invoked_react; reflexivity|].
  destruct (outcome f); reflexivity.
Qed.

Lemma results_run (os : list occurrence) :
  forall f : firing V, results (run f os) = merge 0 (results f) os.
Proof.
  induction os as [|o os IH]; intros f.
  - simpl. rewrite merge_nil. reflexivity.
  - unfold run in *; simpl. rewrite IH. destruct o as [i s|]; simpl.
    + rewrite results_react. simpl. apply merge_record.
    + rewrite merge_timer. destruct (outcome f); reflexivity.
Qed.

Lemma record_result_all_settled (rs : list (option settlement)) :
  forall i s x, all_settled rs = Some x -> record_result rs i s = rs.
Proof.
  induction rs as [|[s0|] rs IH]; intros i s x H; simpl in *.
  - destruct i; reflexivity.
  - destruct (all_settled rs) eqn:E; [|discriminate].
    destruct i; [reflexivity|]. f_equal. eapply IH; reflexivity.
  - discriminate.
Qed.

Lemma react_follows (f : firing V) :
  outcome f = None \/ follows_listeners f -> follows_listeners (react f).
Proof.
  unfold follows_listeners, react. intros [H|H].
  - rewrite H. destruct (all_settled (results f)) eqn:E; simpl.
    + rewrite E; reflexivity.
    + rewrite H, E; reflexivity.
  - destruct (outcome f) eqn:E; [rewrite E; exact H|].
    destruct (all_settled (results f)) eqn:E'; simpl.
    + rewrite E'; reflexivity.
    + rewrite E, E'; reflexivity.
Qed.

Lemma settle_follows (f : firing V) (i : nat) (s : settlement) :
  follows_listeners f -> follows_listeners (step f (ListenerSettled i s)).
Proof.
  intros H. simpl. apply react_follows. simpl.
  destruct (outcome f) eqn:E; [right | left; reflexivity].
  unfold follows_listeners in *; simpl. rewrite E in *.
  destruct (all_settled (results f)) eqn:E'; [|discriminate].
  rewrite (record_result_all_settled _ i s E'), E'. exact H.
Qed.

Lemma outcome_stable (os : list occurrence) :
  forall (f : firing V) c, outcome f = Some c -> outcome (run f os) = Some c.
Proof.
  induction os as [|o os IH]; intros f c H; [exact H|].
  unfold run in *; simpl. apply IH. destruct o; simpl.
  - unfold react; simpl. rewrite H. reflexivity.
  - rewrite H. exact H.
Qed.

Lemma outcome_run (os : list occurrence) :
  forall f : firing V,
    follows_listeners f ->
    outcome (run f os)
    = match option_map first_rejection
              (all_settled (results (run f (before_timer os)))) with
      | Some c => Some c
      | None => if timer_elapsed os then Some (Threw timeout_error) else None
      end.
Proof.
  induction os as [|o os IH]; intros f H.
  - simpl. rewrite <- H. destruct (outcome f); reflexivity.
  - destruct o as [i s|].
    + change (run f (ListenerSettled i s :: os))
        with (run (step f (ListenerSettled i s)) os).
      simpl before_timer.
      change (run f (ListenerSettled i s :: before_timer os))
        with (run (step f (ListenerSettled i s)) (before_timer os)).
      apply IH. apply settle_follows; exact H.
    + change (run f (TimerElapsed :: os)) with (run (step f TimerElapsed) os).
      simpl before_timer. simpl timer_elapsed. simpl (run f []).
      rewrite <- H. simpl step.
      destruct (outcome f) eqn:E.
      * apply outcome_stable; exact E.
      * apply outcome_stable; reflexivity.
Qed.

Lemma first_rejection_fulfilled (rs : list settlement) :
  first_rejection rs = Returned tt <-> Forall (fun s => s = Fulfils) rs.
Proof.
  induction rs as [|[|e] rs IH]; simpl.
  - split; [constructor | reflexivity].
  - rewrite IH. split; [intros H; constructor; [reflexivity | exact H]|].
    intros H; inversion H; assumption.
  - split; [discriminate | intros H; inversion H; discriminate].
Qed.

End AsyncEmitterFacts.

Lemma deadline_react (V : Type) (f : AsyncEmitter.firing V) :
  AsyncEmitter.deadline (AsyncEmitter.react f) = AsyncEmitter.deadline f.
Proof.
  unfold AsyncEmitter.react. destruct (AsyncEmitter.outcome f); [reflexivity|].
  destruct (AsyncEmitter.all_settled (AsyncEmitter.results f)); reflexivity.
Qed.

Lemma deadline_run (V : Type) (os : list AsyncEmitter.occurrence) :
  forall f : AsyncEmitter.firing V,
    AsyncEmitter.deadline (AsyncEmitter.run f os) = AsyncEmitter.deadline f.
Proof.
  induction os as [|o os IH]; intros f; [reflexivity|].
  unfold AsyncEmitter.run in *; simpl. rewrite IH.
  destruct o; simpl.
  - rewrite deadline_react. reflexivity.
  - destruct (AsyncEmitter.outcome f); reflexivity.
Qed.

Lemma fire_follows_listeners (V : Type) (em : AsyncEmitter.t) (v : V) :
  AsyncEmitter.follows_listeners (AsyncEmitter.fire em v).
Proof. unfold AsyncEmitter.fire. apply react_follows. left; reflexivity. Qed.

(** The broadcast, read against the history: the outcome is computed
    from the settlements that precede the timer. *)
Lemma fire_outcome_by_results :
  forall (V : Type) (em : AsyncEmitter.t) (v : V)
         (os : list AsyncEmitter.occurrence),
    let ls := Emitter.elements (AsyncEmitter.registeredListeners em) in
    let f := AsyncEmitter.run (AsyncEmitter.fire em v) os in
    let settled :=
      AsyncEmitter.all_settled
        (AsyncEmitter.settlements (length ls) (AsyncEmitter.before_timer os)) in
    AsyncEmitter.deadline f = AsyncEmitter.timeoutMs em
    /\ AsyncEmitter.invoked f = map (fun l => (l, v)) ls
    /\ AsyncEmitter.results f = AsyncEmitter.settlements (length ls) os
    /\ AsyncEmitter.outcome f
       = match settled with
         | Some rs => Some (AsyncEmitter.first_rejection rs)
         | None =>
           if AsyncEmitter.timer_elapsed os
           then Some (Threw AsyncEmitter.timeout_error) else None
         end
    /\ (AsyncEmitter.outcome f = Some (Returned tt) <->
        exists rs, settled = Some rs
                   /\ Forall (fun s => s = AsyncEmitter.Fulfils) rs).
Proof.
  intros V em v os ls f settled.
  assert (Hres : forall os',
             AsyncEmitter.results (AsyncEmitter.run (AsyncEmitter.fire em v) os')
             = AsyncEmitter.settlements (length ls) os').
  { intros os'. rewrite results_run. unfold AsyncEmitter.fire.
    rewrite results_react. simpl. apply merge_fresh. }
  assert (Hout : AsyncEmitter.outcome f
                 = match settled with
                   | Some rs => Some (AsyncEmitter.first_rejection rs)
                   | None =>
                     if AsyncEmitter.timer_elapsed os
                     then Some (Threw AsyncEmitter.timeout_error) else None
                   end).
  { unfold f. rewrite (outcome_run os (fire_follows_listeners em v)).
    rewrite Hres. fold ls. fold settled. destruct settled; reflexivity. }
  split; [|split; [|split; [|split]]].
  - unfold f. rewrite deadline_run. unfold AsyncEmitter.fire.
    rewrite deadline_react. reflexivity.
  - unfold f. rewrite invoked_run. unfold AsyncEmitter.fire.
    rewrite invoked_react. reflexivity.
  - apply Hres.
  - exact Hout.
  - rewrite Hout. destruct settled as [rs|].
    + split.
      * intros H. exists rs. split; [reflexivity|].
        apply first_rejection_fulfilled. congruence.
      * intros (rs' & E & Hall). inversion E; subst rs'.
        apply first_rejection_fulfilled in Hall. rewrite Hall. reflexivity.
    + split.
      * destruct (AsyncEmitter.timer_elapsed os); discriminate.
      * intros (rs' & E & _). discriminate.
Qed.

Lemma all_settled_none (rs : list (option AsyncEmitter.settlement)) :
  AsyncEmitter.all_settled rs = None
  <-> exists i, i < length rs /\ nth_error rs i = Some None.
Proof.
  induction rs as [|[x|] rs IH]; simpl.
  - split; [discriminate | intros (i & H & _); lia].
  - destruct (AsyncEmitter.all_settled rs) as [ss|].
    + split; [discriminate|]. intros ([|i] & H & E); [discriminate|].
      simpl in E. destruct IH as [_ IH]. discriminate IH. exists i. split; [lia | exact E].
    + split; [|reflexivity]. intros _.
      destruct IH as [IH _]. destruct (IH eq_refl) as (i & H & E).
      exists (S i). split; [lia | exact E].
  - split; [|reflexivity]. intros _. exists 0. split; [lia | reflexivity].
Qed.

Lemma all_settled_some (rs : list (option AsyncEmitter.settlement))
  (ss : list AsyncEmitter.settlement) :
  AsyncEmitter.all_settled rs = Some ss -> rs = map Some ss.
Proof.
  revert ss. induction rs as [|[x|] rs IH]; simpl; intros ss H.
  - inversion H; reflexivity.
  - destruct (AsyncEmitter.all_settled rs) as [ss'|]; [|discriminate].
    inversion H; subst ss. simpl. rewrite (IH ss' eq_refl). reflexivity.
  - discriminate.
Qed.

Lemma nth_settlements (n i : nat) (os : list AsyncEmitter.occurrence) :
  i < n ->
  nth_error (AsyncEmitter.settlements n os) i
  = Some (AsyncEmitter.first_settlement i os).
Proof.
  intros H. unfold AsyncEmitter.settlements.
  rewrite nth_error_map, nth_error_nth' with (d := 0) by (rewrite length_seq; exact H).
  rewrite seq_nth by exact H. reflexivity.
Qed.

Lemma length_settlements (n : nat) (os : list AsyncEmitter.occurrence) :
  length (AsyncEmitter.settlements n os) = n.
Proof. unfold AsyncEmitter.settlements. rewrite length_map, length_seq. reflexivity. Qed.

Lemma first_rejection_at (ss : list AsyncEmitter.settlement) (i : nat) (reason : error) :
  nth_error ss i = Some (AsyncEmitter.Rejects reason) ->
  (forall j, j < i -> nth_error ss j = Some AsyncEmitter.Fulfils) ->
  AsyncEmitter.first_rejection ss = Threw reason.
Proof.
  revert i. induction ss as [|x ss IH]; intros i Hi Hb.
  - destruct i; discriminate.
  - destruct i as [|i].
    + simpl in Hi. inversion Hi; subst x. reflexivity.
    + assert (Hx : x = AsyncEmitter.Fulfils).
      { specialize (Hb 0 ltac:(lia)). simpl in Hb. congruence. }
      subst x. simpl. apply (IH i Hi).
      intros j Hj. apply (Hb (S j)). lia.
Qed.

(** C5 (AsyncEmitter.fire).  [fire(v)] calls every registered listener
    with [v].  Whatever the order in which the listeners' promises
    settle and the timer elapses afterwards, with "settled" read as
    "settled before the timer elapses": the promise of [fire] is
    pending exactly while some listener has not settled and the timer
    has not elapsed, so a rejection alone does not end the wait; it is
    rejected with the timeout error when the timer elapses while some
    listener has not settled; it is fulfilled exactly when every
    listener has fulfilled; and when all have settled and some
    rejected, it is rejected with the reason of the first, in call
    order, that rejected. *)
Theorem asyncEmitter_fire_outcome :
  forall (V : Type) (em : AsyncEmitter.t) (v : V)
         (os : list AsyncEmitter.occurrence),
    let ls := Emitter.elements (AsyncEmitter.registeredListeners em) in
    let f := AsyncEmitter.run (AsyncEmitter.fire em v) os in
    let settled_as i :=
      AsyncEmitter.first_settlement i (AsyncEmitter.before_timer os) in
    AsyncEmitter.invoked f = map (fun l => (l, v)) ls
    /\ AsyncEmitter.deadline f = AsyncEmitter.timeoutMs em
    /\ (AsyncEmitter.outcome f = None
        <-> (exists i, i < length ls /\ settled_as i = None)
            /\ AsyncEmitter.timer_elapsed os = false)
    /\ ((exists i, i < length ls /\ settled_as i = None) ->
        AsyncEmitter.timer_elapsed os = true ->
        AsyncEmitter.outcome f = Some (Threw AsyncEmitter.timeout_error))
    /\ (AsyncEmitter.outcome f = Some (Returned tt)
        <-> forall i, i < length ls -> settled_as i = Some AsyncEmitter.Fulfils)
    /\ (forall i reason,
          i < length ls ->
          (forall j, j < length ls -> settled_as j <> None) ->
          settled_as i = Some (AsyncEmitter.Rejects reason) ->
          (forall j, j < i -> settled_as j = Some AsyncEmitter.Fulfils) ->
          AsyncEmitter.outcome f = Some (Threw reason)).
Proof.
  intros V em v os ls f settled_as.
  destruct (fire_outcome_by_results em v os) as (Hd & Hi & _ & Hout & _).
  fold ls in Hi, Hout. fold f in Hd, Hi, Hout.
  set (rs := AsyncEmitter.settlements (length ls) (AsyncEmitter.before_timer os)) in *.
  assert (Hnth : forall i, i < length ls -> nth_error rs i = Some (settled_as i))
    by (intros i H; apply nth_settlements; exact H).
  assert (Hlen : length rs = length ls) by apply length_settlements.
  assert (Hnone : AsyncEmitter.all_settled rs = None
                  <-> exists i, i < length ls /\ settled_as i = None).
  { rewrite all_settled_none. rewrite Hlen. split.
    - intros (i & H & E). exists i. split; [exact H|].
      rewrite (Hnth i H) in E. congruence.
    - intros (i & H & E). exists i. split; [exact H|].
      rewrite (Hnth i H), E. reflexivity. }
  assert (Hsome : forall ss, AsyncEmitter.all_settled rs = Some ss ->
                    length ss = length ls
                    /\ forall i, i < length ls ->
                                 option_map Some (nth_error ss i) = Some (settled_as i)).
  { intros ss E. apply all_settled_some in E.
    split; [rewrite <- Hlen, E, length_map; reflexivity|].
    intros i H. rewrite <- (Hnth i H), E, nth_error_map. reflexivity. }
  split; [exact Hi | split; [exact Hd|]].
  split; [|split; [|split]].
  - rewrite Hout. destruct (AsyncEmitter.all_settled rs) as [ss|] eqn:E.
    + split; [discriminate|]. intros [Hex _]. apply Hnone in Hex. discriminate.
    + destruct (AsyncEmitter.timer_elapsed os).
      * split; [discriminate | intros [_ X]; discriminate].
      * split; [intros _; split; [apply Hnone; reflexivity | reflexivity]
               | reflexivity].
  - intros Hex Ht. apply Hnone in Hex. rewrite Hout, Hex, Ht. reflexivity.
  - rewrite Hout. destruct (AsyncEmitter.all_settled rs) as [ss|] eqn:E.
    + destruct (Hsome ss eq_refl) as [Hl Hs]. split.
      * intros H. assert (Hf : AsyncEmitter.first_rejection ss = Returned tt) by congruence.
        apply first_rejection_fulfilled in Hf.
        intros i Hi'. specialize (Hs i Hi').
        destruct (nth_error ss i) as [x|] eqn:En; [|discriminate].
        rewrite Forall_forall in Hf. rewrite (Hf x (nth_error_In _ _ En)) in Hs.
        simpl in Hs. congruence.
      * intros H. f_equal. apply first_rejection_fulfilled.
        apply Forall_forall. intros x Hx.
        apply In_nth_error in Hx. destruct Hx as (i & En).
        assert (Hi' : i < length ls).
        { rewrite <- Hl. apply nth_error_Some. congruence. }
        specialize (Hs i Hi'). rewrite En, (H i Hi') in Hs. simpl in Hs. congruence.
    + split.
      * destruct (AsyncEmitter.timer_elapsed os); discriminate.
      * intros H. destruct Hnone as [Hn _]. destruct (Hn eq_refl) as (i & Hi' & En).
        rewrite (H i Hi') in En. discriminate.
  - intros i reason Hi' Hall Hrej Hbefore. rewrite Hout.
    destruct (AsyncEmitter.all_settled rs) as [ss|] eqn:E.
    + destruct (Hsome ss eq_refl) as [Hl Hs]. f_equal.
      apply (@first_rejection_at ss i reason).
      * specialize (Hs i Hi'). rewrite Hrej in Hs.
        destruct (nth_error ss i); simpl in Hs; congruence.
      * intros j Hj. assert (Hj' : j < length ls) by lia.
        specialize (Hs j Hj'). rewrite (Hbefore j Hj) in Hs.
        destruct (nth_error ss j); simpl in Hs; congruence.
    + destruct Hnone as [Hn _]. destruct (Hn eq_refl) as (j & Hj & En).
      exfalso. apply (Hall j Hj). exact En.
Qed.

(** Two listeners, A (called first) fulfils and B rejects: both are
    called; B's early rejection alone leaves the broadcast pending; it
    is reported when A has settled too; and if the timer elapses while A
    is in flight the broadcast fails with the timeout error. *)
Example asyncEmitter_all_attempt :
  let em := fst (AsyncEmitter.event (fst (AsyncEmitter.event (AsyncEmitter.new 5000) 1)) 2) in
  let boom := Error (str "B failed") in
  let f := AsyncEmitter.fire em (str "ev") in
  AsyncEmitter.invoked f = [(1, str "ev"); (2, str "ev")]
  /\ AsyncEmitter.outcome
       (AsyncEmitter.run f [AsyncEmitter.ListenerSettled 1 (AsyncEmitter.Rejects boom)])
     = None
  /\ AsyncEmitter.outcome
       (AsyncEmitter.run f [AsyncEmitter.ListenerSettled 1 (AsyncEmitter.Rejects boom);
                            AsyncEmitter.ListenerSettled 0 AsyncEmitter.Fulfils])
     = Some (Threw boom)
  /\ AsyncEmitter.outcome
       (AsyncEmitter.run f [AsyncEmitter.ListenerSettled 1 (AsyncEmitter.Rejects boom);
                            AsyncEmitter.TimerElapsed;
                            AsyncEmitter.ListenerSettled 0 AsyncEmitter.Fulfils])
     = Some (Threw AsyncEmitter.timeout_error)
  /\ AsyncEmitter.outcome
       (AsyncEmitter.run f [AsyncEmitter.ListenerSettled 1 AsyncEmitter.Fulfils;
                            AsyncEmitter.ListenerSettled 0 AsyncEmitter.Fulfils;
                            AsyncEmitter.TimerElapsed])
     = Some (Returned tt).
Proof. repeat split; reflexivity. Qed.

(** ** runCommandAsUser *)

Section CommandFacts.

Import Command.

(** Only the three continuations of the body touch the promise. *)
Lemma notify_promise (s : t) (n : notification) :
  resultPromise (notify s n) = resultPromise s /\ at_ (notify s n) = at_ s.
Proof.
  destruct n; simpl;
    match goal with |- context [if ?c then _ else _] => destruct c end;
    split; reflexivity.
Qed.

Lemma fold_dispose_item_promise (items : list store_item) :
  forall s, resultPromise (fold_left dispose_item items s) = resultPromise s
            /\ at_ (fold_left dispose_item items s) = at_ s
            /\ shell (fold_left dispose_item items s) = shell s
            /\ calls (fold_left dispose_item items s) = calls s
            /\ combinedOut (fold_left dispose_item items s) = combinedOut s
            /\ barrier (fold_left dispose_item items s) = barrier s.
Proof.
  induction items as [|i items IH]; intros s; simpl; [repeat split; reflexivity|].
  destruct (IH (dispose_item s i)) as (H1 & H2 & H3 & H4 & H5 & H6).
  rewrite H1, H2, H3, H4, H5, H6. destruct i; repeat split; reflexivity.
Qed.

Lemma dispose_store_promise (s : t) :
  resultPromise (dispose_store s) = resultPromise s
  /\ at_ (dispose_store s) = at_ s
  /\ shell (dispose_store s) = shell s
  /\ calls (dispose_store s) = calls s
  /\ combinedOut (dispose_store s) = combinedOut s
  /\ barrier (dispose_store s) = barrier s.
Proof.
  unfold dispose_store. destruct (isDisposed (disposableStore s));
    [repeat split; reflexivity|].
  simpl. apply fold_dispose_item_promise.
Qed.

Lemma kill_promise (s : t) :
  resultPromise (kill s) = resultPromise s /\ at_ (kill s) = at_ s.
Proof.
  unfold kill. destruct (dispose_store_promise s) as (H1 & H2 & H3 & _).
  destruct (shell (dispose_store s)); simpl; rewrite H1, H2; split; reflexivity.
Qed.

(** Once the body has completed, the promise keeps its state. *)
Lemma completed_step (s : t) (e : event) :
  at_ s = Completed ->
  at_ (step s e) = Completed /\ resultPromise (step s e) = resultPromise s.
Proof.
  intros H. destruct e; simpl.
  - rewrite H. split; [exact H | reflexivity].
  - rewrite H. split; [exact H | reflexivity].
  - destruct (notify_promise s n) as [-> ->]. split; [exact H | reflexivity].
  - unfold afterBarrier. rewrite H. split; [exact H | reflexivity].
  - destruct (kill_promise s) as [-> ->]. split; [exact H | reflexivity].
  - split; [exact H | reflexivity].
  - split; [exact H | reflexivity].
Qed.

Lemma completed_run (es : list event) :
  forall s, at_ s = Completed ->
            at_ (run s es) = Completed /\ resultPromise (run s es) = resultPromise s.
Proof.
  induction es as [|e es IH]; intros s H; [split; [exact H | reflexivity]|].
  destruct (completed_step s e H) as [H1 H2].
  destruct (IH (step s e) H1) as [H3 H4].
  unfold run in *; simpl. rewrite H3, H4, H2. split; reflexivity.
Qed.

Lemma run_app (s : t) (es es' : list event) :
  run s (es ++ es') = run (run s es) es'.
Proof. unfold run; apply fold_left_app. Qed.

End CommandFacts.

Section CommandWaiting.

Import Command.

Ltac open_state s :=
  destruct s as [a st em osh co ba f1 f2 f3 cs emi ph pr]; simpl in *.

Lemma afterCreate_waiting (s : t) (sh : OpenShellDTO) :
  at_ s = AwaitCreate ->
  resultPromise s = PromisePending ->
  disposableStore s = {| isDisposed := false; toDispose := [ItemOnOutput] |} ->
  status (dto sh) <> FINISHED ->
  waiting (afterCreate s (Returned sh)) (shellId (dto sh))
  /\ barrier (afterCreate s (Returned sh)) = Barrier.Pending
  /\ combinedOut (afterCreate s (Returned sh)) = join newline (buffer sh).
Proof.
  intros Hat Hpr Hst Hfin.
  unfold afterCreate.
  assert (E : ShellStatus_eqb (status (dto sh)) FINISHED = false)
    by (destruct (status (dto sh)); try reflexivity; congruence).
  rewrite E. open_state s. subst.
  unfold waiting; simpl.
  destruct (shellName a) as [n|]; [destruct (truthy n)|];
    destruct (truthy (join newline (buffer sh)));
    simpl; repeat split; try reflexivity; eexists; split; reflexivity.
Qed.

Lemma notify_waiting (s : t) (id : Id) (n : notification) :
  waiting s id ->
  waiting (notify s n) id
  /\ combinedOut (notify s n) = combinedOut s ++ concat (chunks_for id [n])
  /\ barrier (notify s n)
     = match first_terminal id [n] with
       | Some v => Barrier.open (barrier s) v
       | None => barrier s
       end.
Proof.
  intros (Hat & Hpr & (sh0 & Hsh & Hid) & H1 & H2 & H3 & Hst).
  unfold waiting. open_state s. subst. simpl.
  destruct n as [i out|i code|i]; simpl; unfold is_mine; simpl;
    destruct (JS.eqb i (shellId (dto sh0))); simpl;
    rewrite ?app_nil_r; repeat split; try reflexivity;
    eexists; split; reflexivity.
Qed.

Lemma open_opened (V : Type) (b : Barrier.t V) (v w : V) :
  b = Barrier.Opened v -> Barrier.open b w = Barrier.Opened v.
Proof. intros ->; reflexivity. Qed.

Lemma notifications_waiting (id : Id) (ns : list notification) :
  forall s,
    waiting s id ->
    waiting (run s (map Notification ns)) id
    /\ combinedOut (run s (map Notification ns))
       = combinedOut s ++ concat (chunks_for id ns)
    /\ (barrier s = Barrier.Pending ->
        barrier (run s (map Notification ns))
        = match first_terminal id ns with
          | Some v => Barrier.Opened v
          | None => Barrier.Pending
          end)
    /\ (forall v, barrier s = Barrier.Opened v ->
                  barrier (run s (map Notification ns)) = Barrier.Opened v).
Proof.
  induction ns as [|n ns IH]; intros s W.
  - simpl. rewrite app_nil_r. split; [exact W|]. repeat split; auto.
  - destruct (notify_waiting n W) as (W1 & C1 & B1).
    destruct (IH (notify s n) W1) as (W2 & C2 & B2 & B3).
    change (run s (map Notification (n :: ns)))
      with (run (notify s n) (map Notification ns)).
    split; [exact W2|]. split; [|split].
    + rewrite C2, C1, <- app_assoc. f_equal.
      destruct n as [i out|i code|i]; simpl;
        try destruct (JS.eqb i id); simpl; rewrite ?app_nil_r; reflexivity.
    + intros Hb. rewrite Hb in B1.
      destruct n as [i out|i code|i]; simpl in *;
        try destruct (JS.eqb i id); simpl in *; auto.
    + intros v Hb. apply B3. rewrite B1.
      destruct (first_terminal id [n]); [apply open_opened|]; exact Hb.
Qed.

Lemma afterBarrier_waiting (s : t) (id : Id) (v : option Z) :
  waiting s id ->
  barrier s = Barrier.Opened v ->
  resultPromise (afterBarrier s)
  = PromiseFulfilled {| output := trim (combinedOut s); resultExitCode := v |}
  /\ at_ (afterBarrier s) = Completed
  /\ onShellOut (afterBarrier s) = false
  /\ onShellExited (afterBarrier s) = false
  /\ onShellTerminated (afterBarrier s) = false
  /\ Emitter.registeredListeners (onOutput (afterBarrier s)) = []
  /\ isDisposed (disposableStore (afterBarrier s)) = true.
Proof.
  intros (Hat & Hpr & (sh0 & Hsh & Hid) & H1 & H2 & H3 & Hst) Hb.
  unfold afterBarrier, dispose_store. open_state s. subst. simpl.
  repeat split; reflexivity.
Qed.

Lemma kill_waiting (s : t) (id : Id) :
  waiting s id ->
  barrier s = Barrier.Pending ->
  cut_off (kill s)
  /\ calls (kill s) = calls s ++ [CallDelete id]
  /\ Emitter.registeredListeners (onOutput (kill s)) = []
  /\ toDispose (disposableStore (kill s)) = [].
Proof.
  intros (Hat & Hpr & (sh0 & Hsh & Hid) & H1 & H2 & H3 & Hst) Hb.
  unfold kill, dispose_store, cut_off. open_state s. subst. simpl.
  repeat split; reflexivity.
Qed.

Lemma cut_off_step (s : t) (e : event) :
  cut_off s -> cut_off (step s e).
Proof.
  intros (Hat & Hpr & Hb & H1 & H2 & H3 & Hst).
  destruct e as [r|r|n| | |l|l]; simpl.
  - rewrite Hat. repeat split; assumption.
  - rewrite Hat. repeat split; assumption.
  - destruct n; simpl; rewrite ?H1, ?H2, ?H3; simpl; repeat split; assumption.
  - unfold afterBarrier. rewrite Hat, Hb. simpl. repeat split; assumption.
  - unfold kill, dispose_store. rewrite Hst.
    destruct (shell s); unfold cut_off; simpl; repeat split; assumption.
  - unfold cut_off; simpl. repeat split; assumption.
  - unfold cut_off; simpl. repeat split; assumption.
Qed.

Lemma cut_off_run (es : list event) :
  forall s, cut_off s -> cut_off (run s es).
Proof.
  induction es as [|e es IH]; intros s H; [exact H|].
  apply (IH (step s e)). apply cut_off_step; exact H.
Qed.

End CommandWaiting.

Section RunPath.

Import Command.

Variables (ws cmd : jsstring) (opts : option Shells.ShellRunOpts).

Lemma run_starts_create :
  at_ (Shells.run ws cmd opts) = AwaitCreate
  /\ resultPromise (Shells.run ws cmd opts) = PromisePending
  /\ disposableStore (Shells.run ws cmd opts)
     = {| isDisposed := false; toDispose := [ItemOnOutput] |}
  /\ shell (Shells.run ws cmd opts) = None.
Proof. repeat split; reflexivity. Qed.

(** The session was created and is not reported finished: the command
    waits, with the buffered output as its accumulator. *)
Lemma run_created_waiting (sh : OpenShellDTO) :
  status (dto sh) <> FINISHED ->
  let s := step (Shells.run ws cmd opts) (CreateSettled (Returned sh)) in
  waiting s (shellId (dto sh))
  /\ barrier s = Barrier.Pending
  /\ combinedOut s = join newline (buffer sh).
Proof.
  intros Hfin. destruct run_starts_create as (H1 & H2 & H3 & _).
  cbv zeta. unfold step. rewrite H1. apply afterCreate_waiting; assumption.
Qed.

(** The state of the command when notifications [ns] have followed the
    creation of the session. *)
Lemma run_notified (sh : OpenShellDTO) (ns : list notification) :
  status (dto sh) <> FINISHED ->
  let s := run (Shells.run ws cmd opts)
               (CreateSettled (Returned sh) :: map Notification ns) in
  waiting s (shellId (dto sh))
  /\ combinedOut s
     = join newline (buffer sh) ++ concat (chunks_for (shellId (dto sh)) ns)
  /\ barrier s
     = match first_terminal (shellId (dto sh)) ns with
       | Some v => Barrier.Opened v
       | None => Barrier.Pending
       end.
Proof.
  intros Hfin. destruct (run_created_waiting sh Hfin) as (W & B & C).
  destruct (notifications_waiting ns W) as (W' & C' & B' & _).
  cbv zeta.
  change (run (Shells.run ws cmd opts)
              (CreateSettled (Returned sh) :: map Notification ns))
    with (run (step (Shells.run ws cmd opts) (CreateSettled (Returned sh)))
              (map Notification ns)).
  split; [exact W'|]. split; [rewrite C', C; reflexivity | apply B'; exact B].
Qed.

End RunPath.

Lemma chunks_for_app (id : Id) (ns ns' : list notification) :
  Command.chunks_for id (ns ++ ns')
  = Command.chunks_for id ns ++ Command.chunks_for id ns'.
Proof.
  induction ns as [|n ns IH]; [reflexivity|].
  destruct n as [i out|i code|i]; simpl; try exact IH.
  destruct (JS.eqb i id); simpl; [f_equal|]; exact IH.
Qed.

Lemma first_terminal_app (id : Id) (ns ns' : list notification) :
  Command.first_terminal id ns = None ->
  Command.first_terminal id (ns ++ ns') = Command.first_terminal id ns'.
Proof.
  induction ns as [|n ns IH]; intros H; [reflexivity|].
  destruct n as [i out|i code|i]; simpl in *; try (apply IH; exact H);
    destruct (JS.eqb i id); try discriminate; apply IH; exact H.
Qed.

Lemma chunks_for_outputs (id : Id) (cs : list jsstring) :
  Command.chunks_for id (map (ShellOut id) cs) = cs
  /\ Command.first_terminal id (map (ShellOut id) cs) = None.
Proof.
  induction cs as [|c cs [IH1 IH2]]; [split; reflexivity|].
  simpl. rewrite jseqb_refl, IH1. split; [reflexivity | exact IH2].
Qed.

(** C1 (a run settles with the trimmed concatenation of its chunks).  A
    command is started with [shells.run]; the session is reported
    RUNNING with an empty buffer.  Notifications [ns] arrive, none of
    them terminal for this session, then the exited notification for
    this session with code [e], and the wait resumes: the promise is
    fulfilled with the output chunks of this session found in [ns],
    concatenated in arrival order without separator and trimmed, and with
    exit code [e].  In particular this holds when [ns] is exactly the
    chunks [cs] of this session. *)
Theorem run_output_is_trimmed_concatenation :
  forall (ws cmd : jsstring) (opts : option Shells.ShellRunOpts)
         (sh : OpenShellDTO) (ns : list notification) (cs : list jsstring) (e : Z),
    status (dto sh) = RUNNING ->
    buffer sh = [] ->
    Command.first_terminal (shellId (dto sh)) ns = None ->
    Command.resultPromise
      (Command.run (Shells.run ws cmd opts)
         (Command.CreateSettled (Returned sh)
          :: map Command.Notification (ns ++ [ShellExited (shellId (dto sh)) e])
          ++ [Command.WaitResumes]))
    = Command.PromiseFulfilled
        {| Command.output := trim (concat (Command.chunks_for (shellId (dto sh)) ns));
           Command.resultExitCode := Some e |}
    /\ Command.resultPromise
         (Command.run (Shells.run ws cmd opts)
            (Command.CreateSettled (Returned sh)
             :: map Command.Notification
                  (map (ShellOut (shellId (dto sh))) cs
                   ++ [ShellExited (shellId (dto sh)) e])
             ++ [Command.WaitResumes]))
       = Command.PromiseFulfilled
           {| Command.output := trim (concat cs);
              Command.resultExitCode := Some e |}.
Proof.
  intros ws cmd opts sh ns cs e Hrun Hbuf Hterm.
  assert (Hfin : status (dto sh) <> FINISHED) by (rewrite Hrun; discriminate).
  assert (G : forall ns0,
             Command.first_terminal (shellId (dto sh)) ns0 = None ->
             Command.resultPromise
               (Command.run (Shells.run ws cmd opts)
                  (Command.CreateSettled (Returned sh)
                   :: map Command.Notification (ns0 ++ [ShellExited (shellId (dto sh)) e])
                   ++ [Command.WaitResumes]))
             = Command.PromiseFulfilled
                 {| Command.output :=
                      trim (concat (Command.chunks_for (shellId (dto sh)) ns0));
                    Command.resultExitCode := Some e |}).
  { intros ns0 H0.
    rewrite app_comm_cons, run_app.
    destruct (run_notified ws cmd opts sh (ns0 ++ [ShellExited (shellId (dto sh)) e]) Hfin)
      as (W & C & B).
    rewrite first_terminal_app in B by exact H0. simpl in B.
    rewrite jseqb_refl in B.
    change (Command.run ?x [Command.WaitResumes]) with (Command.afterBarrier x).
    destruct (afterBarrier_waiting W B) as (P & _).
    rewrite P, C, Hbuf, chunks_for_app. simpl. rewrite app_nil_r. reflexivity. }
  split; [apply G; exact Hterm|].
  destruct (chunks_for_outputs (shellId (dto sh)) cs) as [E1 E2].
  rewrite (G _ E2), E1. reflexivity.
Qed.

(** The scenario of the specification: [echo hi], one chunk, exit code 0. *)
Lemma run_output_is_trimmed_concatenation_witness :
  Command.resultPromise
    (Command.run (Shells.run (str "/project") (str "echo hi") None)
       [Command.CreateSettled
          (Returned {| dto := {| shellId := str "shell-1"; name := str "echo hi";
                                 status := RUNNING; exitCode := None |};
                       buffer := [] |});
        Command.Notification (ShellOut (str "shell-1") (str "hi" ++ newline));
        Command.Notification (ShellExited (str "shell-1") 0);
        Command.WaitResumes])
  = Command.PromiseFulfilled
      {| Command.output := str "hi"; Command.resultExitCode := Some 0%Z |}.
Proof.
  exact (proj2 (@run_output_is_trimmed_concatenation
           (str "/project") (str "echo hi") None
           {| dto := {| shellId := str "shell-1"; name := str "echo hi";
                        status := RUNNING; exitCode := None |};
              buffer := [] |}
           [] [str "hi" ++ newline] 0%Z eq_refl eq_refl eq_refl)).
Defined.

(** Chunks are appended as they are: no newline is put between them. *)
Example run_chunks_not_joined :
  Command.resultPromise
    (Command.run (Shells.run (str "/project") (str "printf ab") None)
       [Command.CreateSettled
          (Returned {| dto := {| shellId := str "shell-1"; name := str "printf";
                                 status := RUNNING; exitCode := None |};
                       buffer := [] |});
        Command.Notification (ShellOut (str "shell-1") (str "a"));
        Command.Notification (ShellOut (str "other") (str "zzz"));
        Command.Notification (ShellOut (str "shell-1") (str "b"));
        Command.Notification (ShellExited (str "shell-1") 3);
        Command.WaitResumes])
  = Command.PromiseFulfilled
      {| Command.output := str "ab"; Command.resultExitCode := Some 3%Z |}.
Proof. reflexivity. Qed.

(** C2 (the exit code is that of the first terminal notification).  A
    command started with [shells.run] whose session is not reported
    finished stays pending as long as no terminal notification for its
    session has arrived.  If the first terminal notification for the
    session is an exit with code [c], the promise is fulfilled with exit
    code [c]; if it is a termination, the promise is fulfilled with no
    exit code ([undefined], which is not [0]).  Terminal notifications
    that arrive after the first one, before or after the wait resumes,
    change nothing: the settled promise keeps its value whatever happens
    next. *)
Theorem run_exit_code_first_terminal :
  forall (ws cmd : jsstring) (opts : option Shells.ShellRunOpts)
         (sh : OpenShellDTO) (pre post : list notification) (c : Z)
         (es : list Command.event),
    status (dto sh) <> FINISHED ->
    Command.first_terminal (shellId (dto sh)) pre = None ->
    let id := shellId (dto sh) in
    let settled t :=
      Command.run (Shells.run ws cmd opts)
        (Command.CreateSettled (Returned sh)
         :: map Command.Notification (pre ++ t :: post) ++ [Command.WaitResumes]) in
    let out t :=
      trim (join newline (buffer sh)
            ++ concat (Command.chunks_for id (pre ++ t :: post))) in
    Command.resultPromise
      (Command.run (Shells.run ws cmd opts)
         (Command.CreateSettled (Returned sh)
          :: map Command.Notification pre ++ [Command.WaitResumes]))
    = Command.PromisePending
    /\ Command.resultPromise (settled (ShellExited id c))
       = Command.PromiseFulfilled
           {| Command.output := out (ShellExited id c);
              Command.resultExitCode := Some c |}
    /\ Command.resultPromise (settled (ShellTerminated id))
       = Command.PromiseFulfilled
           {| Command.output := out (ShellTerminated id);
              Command.resultExitCode := None |}
    /\ Command.resultPromise (Command.run (settled (ShellExited id c)) es)
       = Command.resultPromise (settled (ShellExited id c))
    /\ Command.resultPromise (Command.run (settled (ShellTerminated id)) es)
       = Command.resultPromise (settled (ShellTerminated id)).
Proof.
  intros ws cmd opts sh pre post c es Hfin Hpre id settled out.
  assert (G : forall t v,
             Command.first_terminal id [t] = Some v ->
             Command.resultPromise (settled t)
             = Command.PromiseFulfilled
                 {| Command.output := out t; Command.resultExitCode := v |}
             /\ Command.at_ (settled t) = Command.Completed).
  { intros t v Ht. unfold settled, out.
    rewrite app_comm_cons, run_app.
    destruct (run_notified ws cmd opts sh (pre ++ t :: post) Hfin) as (W & C & B).
    change (Command.run ?x [Command.WaitResumes]) with (Command.afterBarrier x).
    rewrite first_terminal_app in B by exact Hpre.
    assert (B' : Command.first_terminal (shellId (dto sh)) (t :: post) = Some v).
    { destruct t as [i o|i k|i]; simpl in *; fold id;
        destruct (JS.eqb i id); congruence. }
    rewrite B' in B.
    destruct (afterBarrier_waiting W B) as (P & A & _).
    rewrite P, C. split; [reflexivity | exact A]. }
  assert (E1 : Command.first_terminal id [ShellExited id c] = Some (Some c))
    by (simpl; rewrite jseqb_refl; reflexivity).
  assert (E2 : Command.first_terminal id [ShellTerminated id] = Some None)
    by (simpl; rewrite jseqb_refl; reflexivity).
  destruct (G _ _ E1) as [P1 A1]. destruct (G _ _ E2) as [P2 A2].
  split; [|split; [exact P1 | split; [exact P2 | split]]].
  - rewrite app_comm_cons, run_app.
    destruct (run_notified ws cmd opts sh pre Hfin) as (W & C & B).
    rewrite Hpre in B.
    change (Command.run ?x [Command.WaitResumes]) with (Command.afterBarrier x).
    destruct W as (Ha & Hp & _).
    unfold Command.afterBarrier. rewrite Ha, B. exact Hp.
  - apply completed_run; exact A1.
  - apply completed_run; exact A2.
Qed.

(** A termination followed by an exit with code 0: the result carries no
    exit code. *)
Lemma run_exit_code_first_terminal_witness :
  Command.resultPromise
    (Command.run (Shells.run (str "/project") (str "sleep 9") None)
       (Command.CreateSettled
          (Returned {| dto := {| shellId := str "shell-1"; name := str "sleep";
                                 status := RUNNING; exitCode := None |};
                       buffer := [] |})
        :: map Command.Notification
             ([ShellOut (str "shell-1") (str "x")]
              ++ ShellTerminated (str "shell-1") :: [ShellExited (str "shell-1") 0])
        ++ [Command.WaitResumes]))
  = Command.PromiseFulfilled
      {| Command.output := str "x"; Command.resultExitCode := None |}.
Proof.
  exact (proj1 (proj2 (proj2 (@run_exit_code_first_terminal
           (str "/project") (str "sleep 9") None
           {| dto := {| shellId := str "shell-1"; name := str "sleep";
                        status := RUNNING; exitCode := None |};
              buffer := [] |}
           [ShellOut (str "shell-1") (str "x")] [ShellExited (str "shell-1") 0]
           0%Z []
           ltac:(simpl; discriminate) eq_refl)))).
Defined.

Lemma completed_flags_step (s : Command.t) (e : Command.event) :
  Command.at_ s = Command.Completed ->
  Command.onShellOut s = false /\ Command.onShellExited s = false
  /\ Command.onShellTerminated s = false ->
  Command.onShellOut (Command.step s e) = false
  /\ Command.onShellExited (Command.step s e) = false
  /\ Command.onShellTerminated (Command.step s e) = false.
Proof.
  intros Hat (H1 & H2 & H3).
  destruct e as [r|r|n| | |l|l]; simpl.
  - rewrite Hat; auto.
  - rewrite Hat; auto.
  - destruct n; simpl; rewrite ?H1, ?H2, ?H3; simpl; auto.
  - unfold Command.afterBarrier; rewrite Hat; auto.
  - unfold Command.kill, Command.dispose_store.
    destruct (Command.isDisposed (Command.disposableStore s)).
    + destruct (Command.shell s); simpl; auto.
    + set (items := Command.toDispose (Command.disposableStore s)).
      assert (G : forall items s0,
                 Command.onShellOut s0 = false /\ Command.onShellExited s0 = false
                 /\ Command.onShellTerminated s0 = false ->
                 Command.onShellOut (fold_left Command.dispose_item items s0) = false
                 /\ Command.onShellExited (fold_left Command.dispose_item items s0) = false
                 /\ Command.onShellTerminated (fold_left Command.dispose_item items s0)
                    = false).
      { clear. induction items as [|i items IH]; intros s0 H; [exact H|].
        simpl. apply IH. destruct H as (H1 & H2 & H3).
        destruct i; simpl; auto. }
      destruct (G items s (conj H1 (conj H2 H3))) as (G1 & G2 & G3).
      simpl.
      destruct (Command.shell (fold_left Command.dispose_item items s));
        simpl; auto.
  - auto.
  - auto.
Qed.

(** C3 (a session already finished at creation).  When the session
    created by [shells.run] is reported FINISHED, the continuation that
    receives it fulfils the promise at once, with the buffered lines
    joined by newlines and trimmed and with the exit code of the session;
    no handler is registered on the output, exited or terminated
    streams, then or later, and the promise keeps that value. *)
Theorem run_finished_at_creation :
  forall (ws cmd : jsstring) (opts : option Shells.ShellRunOpts)
         (sh : OpenShellDTO) (es : list Command.event),
    status (dto sh) = FINISHED ->
    let s := Command.step (Shells.run ws cmd opts)
               (Command.CreateSettled (Returned sh)) in
    Command.resultPromise s
    = Command.PromiseFulfilled
        {| Command.output := trim (join newline (buffer sh));
           Command.resultExitCode := exitCode (dto sh) |}
    /\ Command.at_ s = Command.Completed
    /\ Command.toDispose (Command.disposableStore s) = [Command.ItemOnOutput]
    /\ (Command.onShellOut s = false /\ Command.onShellExited s = false
        /\ Command.onShellTerminated s = false)
    /\ Command.resultPromise (Command.run s es) = Command.resultPromise s
    /\ (Command.onShellOut (Command.run s es) = false
        /\ Command.onShellExited (Command.run s es) = false
        /\ Command.onShellTerminated (Command.run s es) = false).
Proof.
  intros ws cmd opts sh es Hfin s.
  assert (B : Command.resultPromise s
              = Command.PromiseFulfilled
                  {| Command.output := trim (join newline (buffer sh));
                     Command.resultExitCode := exitCode (dto sh) |}
              /\ Command.at_ s = Command.Completed
              /\ Command.toDispose (Command.disposableStore s) = [Command.ItemOnOutput]
              /\ (Command.onShellOut s = false /\ Command.onShellExited s = false
                  /\ Command.onShellTerminated s = false)).
  { unfold s. simpl. unfold Command.afterCreate. rewrite Hfin. simpl.
    destruct opts as [[p [n|]]|]; simpl; try destruct (truthy n);
      repeat split; reflexivity. }
  destruct B as (B1 & B2 & B3 & B4).
  split; [exact B1|]. split; [exact B2|]. split; [exact B3|]. split; [exact B4|].
  split; [apply completed_run; exact B2|].
  clear B1 B3. revert B2 B4. generalize s. clear s.
  induction es as [|e es IH]; intros s B2 B4; [exact B4|].
  apply (IH (Command.step s e)).
  - apply completed_step; exact B2.
  - apply completed_flags_step; assumption.
Qed.

Lemma run_finished_at_creation_witness :
  Command.resultPromise
    (Command.step (Shells.run (str "/project") (str "true") None)
       (Command.CreateSettled
          (Returned {| dto := {| shellId := str "shell-1"; name := str "true";
                                 status := FINISHED; exitCode := Some 0%Z |};
                       buffer := [str " a"; str "b "] |})))
  = Command.PromiseFulfilled
      {| Command.output := str "a" ++ newline ++ str "b";
         Command.resultExitCode := Some 0%Z |}.
Proof.
  exact (proj1 (@run_finished_at_creation
           (str "/project") (str "true") None
           {| dto := {| shellId := str "shell-1"; name := str "true";
                        status := FINISHED; exitCode := Some 0%Z |};
              buffer := [str " a"; str "b "] |}
           [] eq_refl)).
Defined.

(** C4, as stated, fails: the command is killed while it waits, the
    exited notification for its session arrives afterwards and the wait
    is given the chance to resume, yet the promise is still pending; the
    handler that would have opened the barrier was removed by [kill()]. *)
Lemma kill_then_exit_stays_pending :
  let sh := {| dto := {| shellId := str "shell-1"; name := str "sleep";
                         status := RUNNING; exitCode := None |};
               buffer := [] |} in
  let s := Command.run (Shells.run (str "/project") (str "sleep 9") None)
             [Command.CreateSettled (Returned sh);
              Command.KillCalled;
              Command.Notification (ShellExited (str "shell-1") 0);
              Command.WaitResumes] in
  Command.resultPromise s = Command.PromisePending
  /\ Command.barrier s = Barrier.Pending
  /\ Command.at_ s = Command.AwaitBarrier.
Proof. repeat split; reflexivity. Qed.

(** A terminal notification that arrived before [kill()] has opened the
    barrier: the wait then resumes and the promise settles. *)
Example exit_then_kill_settles :
  Command.resultPromise
    (Command.run (Shells.run (str "/project") (str "sleep 9") None)
       [Command.CreateSettled
          (Returned {| dto := {| shellId := str "shell-1"; name := str "sleep";
                                 status := RUNNING; exitCode := None |};
                       buffer := [] |});
        Command.Notification (ShellExited (str "shell-1") 2);
        Command.KillCalled;
        Command.WaitResumes])
  = Command.PromiseFulfilled
      {| Command.output := []; Command.resultExitCode := Some 2%Z |}.
Proof. reflexivity. Qed.

Lemma no_shell_step (s : Command.t) (e : Command.event) :
  Command.at_ s = Command.Completed ->
  Command.shell s = None ->
  Command.at_ (Command.step s e) = Command.Completed
  /\ Command.shell (Command.step s e) = None
  /\ Command.calls (Command.step s e) = Command.calls s.
Proof.
  intros Hat Hsh. destruct e as [r|r|n| | |l|l]; simpl.
  - rewrite Hat; auto.
  - rewrite Hat; auto.
  - destruct n; simpl; unfold Command.is_mine; rewrite Hsh, andb_false_r; auto.
  - unfold Command.afterBarrier; rewrite Hat; auto.
  - unfold Command.kill.
    destruct (dispose_store_promise s) as (_ & H2 & H3 & H4 & _).
    rewrite H3, Hsh, H2, H4. rewrite H3, Hsh. auto.
  - auto.
  - auto.
Qed.

Lemma no_shell_run (es : list Command.event) :
  forall s, Command.at_ s = Command.Completed ->
            Command.shell s = None ->
            Command.calls (Command.run s es) = Command.calls s.
Proof.
  induction es as [|e es IH]; intros s Hat Hsh; [reflexivity|].
  destruct (no_shell_step s e Hat Hsh) as (H1 & H2 & H3).
  change (Command.run s (e :: es)) with (Command.run (Command.step s e) es).
  rewrite IH by assumption. exact H3.
Qed.

Lemma fold_left_send (rq : list remote_call) :
  forall s,
    Command.shell (fold_left Command.send rq s) = Command.shell s
    /\ Command.resultPromise (fold_left Command.send rq s) = Command.resultPromise s
    /\ Command.disposableStore (fold_left Command.send rq s) = Command.disposableStore s
    /\ Command.at_ (fold_left Command.send rq s) = Command.at_ s
    /\ Command.calls (fold_left Command.send rq s) = Command.calls s ++ rq.
Proof.
  induction rq as [|c rq IH]; intros s; simpl.
  - rewrite app_nil_r. repeat split; reflexivity.
  - destruct (IH (Command.send s c)) as (H1 & H2 & H3 & H4 & H5).
    rewrite H1, H2, H3, H4, H5. simpl. rewrite <- app_assoc. repeat split; reflexivity.
Qed.

Lemma before_session_listen (ls : list Emitter.listener) :
  forall s,
    Command.before_session s ->
    Command.before_session (Command.run s (map Command.OnOutputCalled ls))
    /\ Command.at_ (Command.run s (map Command.OnOutputCalled ls)) = Command.at_ s
    /\ Command.calls (Command.run s (map Command.OnOutputCalled ls)) = Command.calls s.
Proof.
  induction ls as [|l ls IH]; intros s H; [split; [exact H | split; reflexivity]|].
  change (Command.run s (map Command.OnOutputCalled (l :: ls)))
    with (Command.run (Command.step s (Command.OnOutputCalled l))
            (map Command.OnOutputCalled ls)).
  destruct (IH (Command.step s (Command.OnOutputCalled l))) as (H1 & H2 & H3).
  - destruct H as (A & B & C). repeat split; assumption.
  - rewrite H2, H3. split; [exact H1 | split; reflexivity].
Qed.

Lemma kill_before_session (s : Command.t) :
  Command.before_session s ->
  Command.shell s = None
  /\ Command.calls (Command.kill s) = Command.calls s
  /\ Command.disposableStore (Command.kill s)
     = {| Command.isDisposed := true; Command.toDispose := [] |}
  /\ Emitter.registeredListeners (Command.onOutput (Command.kill s)) = []
  /\ (Command.onShellOut (Command.kill s) = Command.onShellOut s
      /\ Command.onShellExited (Command.kill s) = Command.onShellExited s
      /\ Command.onShellTerminated (Command.kill s) = Command.onShellTerminated s)
  /\ Command.resultPromise (Command.kill s) = Command.PromisePending.
Proof.
  intros (A & B & C). unfold Command.kill, Command.dispose_store.
  rewrite C. simpl. rewrite A. simpl. repeat split; assumption.
Qed.

Lemma runCommandAsUser_preCommand (a : Command.args) (requests : list remote_call) :
  Command.runPreCommand a = Some requests ->
  Command.before_session (Command.runCommandAsUser a)
  /\ Command.at_ (Command.runCommandAsUser a) = Command.AwaitPreCommand
  /\ Command.calls (Command.runCommandAsUser a) = requests.
Proof.
  intros H. unfold Command.runCommandAsUser. rewrite H.
  unfold Command.before_session. simpl.
  match goal with
  | |- context [fold_left Command.send requests ?s0] =>
    destruct (fold_left_send requests s0) as (H1 & H2 & H3 & H4 & H5)
  end.
  rewrite H1, H2, H3, H5. repeat split; reflexivity.
Qed.

(** The pre-command has failed: the body is over, nothing more is sent. *)
Lemma preCommand_failed (a : Command.args) (requests : list remote_call)
  (e : error) (es : list Command.event) :
  Command.runPreCommand a = Some requests ->
  let f := Command.step (Command.runCommandAsUser a)
             (Command.PreCommandSettled (Threw e)) in
  Command.resultPromise (Command.run f es) = Command.PromiseRejected e
  /\ Command.calls (Command.run f es) = requests.
Proof.
  intros H f.
  destruct (runCommandAsUser_preCommand a H) as ((A & B & C) & D & E).
  assert (F : Command.at_ f = Command.Completed /\ Command.shell f = None
              /\ Command.resultPromise f = Command.PromiseRejected e
              /\ Command.calls f = requests).
  { unfold f. simpl. rewrite D. simpl. repeat split; assumption. }
  destruct F as (F1 & F2 & F3 & F4).
  destruct (completed_run es f F1) as [_ Hp].
  rewrite Hp, F3, (no_shell_run es f F1 F2), F4. split; reflexivity.
Qed.


(** ** ShellInstance *)

Section ShellInstanceFacts.

Import ShellInstance.

Lemma lastn_short (A : Type) (k : nat) (l : list A) :
  length l <= k -> lastn k l = l.
Proof.
  intros H. unfold lastn. replace (length l - k) with 0 by lia. reflexivity.
Qed.

Lemma length_lastn (A : Type) (k : nat) (l : list A) :
  length (lastn k l) = Nat.min k (length l).
Proof. unfold lastn. rewrite length_skipn. lia. Qed.

Lemma lastn_app_enough (A : Type) (k : nat) (a m : list A) :
  k <= length m -> lastn k (a ++ m) = lastn k m.
Proof.
  intros H. unfold lastn. rewrite length_app, skipn_app.
  rewrite skipn_all2 by lia. simpl. f_equal. lia.
Qed.

Lemma lastn_app_lastn (A : Type) (k : nat) (l l' : list A) :
  lastn k (lastn k l ++ l') = lastn k (l ++ l').
Proof.
  destruct (Nat.le_gt_cases (length l) k) as [H|H].
  - rewrite (lastn_short l H). reflexivity.
  - unfold lastn at 2.
    rewrite <- (firstn_skipn (length l - k) l) at 3.
    rewrite <- app_assoc. symmetry. apply lastn_app_enough.
    rewrite length_app, length_skipn. lia.
Qed.

Lemma push_output_lastn (o : list jsstring) (out : jsstring) :
  length o <= 1000 ->
  push_output o out = lastn 1000 (o ++ [out]).
Proof.
  intros H. unfold push_output, lastn.
  rewrite length_app. simpl length.
  destruct (Nat.ltb_spec 1000 (length o + 1)) as [L|L].
  - replace (length o + 1 - 1000) with 1 by lia.
    destruct (o ++ [out]); reflexivity.
  - replace (length o + 1 - 1000) with 0 by lia. reflexivity.
Qed.

Lemma length_push_output (o : list jsstring) (out : jsstring) :
  length (push_output o out)
  = if 1000 <=? length o then length o else S (length o).
Proof.
  unfold push_output.
  assert (E : length (o ++ [out]) = S (length o)) by (rewrite length_app; simpl; lia).
  destruct (Nat.ltb_spec 1000 (length (o ++ [out]))) as [L|L];
    destruct (Nat.leb_spec 1000 (length o)) as [L'|L']; try lia.
  destruct (o ++ [out]) as [|x r]; simpl in *; lia.
Qed.

(** On a disposed handle the buffer no longer changes. *)
Lemma output_after_dispose (es : list event) :
  forall s, onShellOut s = false ->
            output (run s es) = output s.
Proof.
  induction es as [|e es IH]; intros s H; [reflexivity|].
  change (run s (e :: es)) with (run (step s e) es).
  assert (G : onShellOut (step s e) = false /\ output (step s e) = output s).
  { destruct e as [shells|i out|]; simpl.
    - unfold handleShellsUpdated. destruct (onShellsUpdated s); [|auto].
      destruct (find _ shells); simpl; auto.
    - unfold handleShellOut. rewrite H. simpl. auto.
    - unfold dispose. destruct (isDisposed s); simpl; auto. }
  destruct G as [G1 G2]. rewrite IH by exact G1. exact G2.
Qed.

(** A live handle keeps the last 1000 entries of what it started with
    followed by the chunks that arrived for its shell. *)
Lemma output_run (id : Id) (es : list event) :
  forall s,
    shellId (shell s) = id ->
    onShellOut s = true ->
    isDisposed s = false ->
    length (output s) <= 1000 ->
    output (run s es) = lastn 1000 (output s ++ chunks_for id es).
Proof.
  induction es as [|e es IH]; intros s Hid Hon Hdis Hlen.
  - simpl. rewrite app_nil_r, lastn_short by exact Hlen. reflexivity.
  - change (run s (e :: es)) with (run (step s e) es).
    destruct e as [shells|i out|]; simpl step; simpl chunks_for.
    + assert (G : shellId (shell (handleShellsUpdated s shells)) = id
                  /\ onShellOut (handleShellsUpdated s shells) = true
                  /\ isDisposed (handleShellsUpdated s shells) = false
                  /\ output (handleShellsUpdated s shells) = output s).
      { unfold handleShellsUpdated. destruct (onShellsUpdated s); [|auto].
        destruct (find _ shells) as [u|] eqn:E; simpl; [|auto].
        apply find_some in E. destruct E as [_ E].
        apply jseqb_eq in E. repeat split; congruence. }
      destruct G as (G1 & G2 & G3 & G4).
      rewrite (IH _ G1 G2 G3) by (rewrite G4; exact Hlen).
      rewrite G4. reflexivity.
    + unfold handleShellOut. rewrite Hon, Hid. simpl.
      destruct (JS.eqb i id).
      * match goal with
        | |- output (run ?s' es) = _ =>
          assert (L : length (output s') <= 1000)
            by (cbn [output]; rewrite length_push_output;
                destruct (Nat.leb_spec 1000 (length (output s))); lia);
          rewrite (IH s' Hid eq_refl Hdis L)
        end.
        cbn [output]. rewrite push_output_lastn by exact Hlen.
        rewrite lastn_app_lastn, <- app_assoc. reflexivity.
      * apply IH; assumption.
    + rewrite output_after_dispose.
      * unfold dispose. rewrite Hdis. simpl.
        rewrite app_nil_r, lastn_short by exact Hlen. reflexivity.
      * unfold dispose. rewrite Hdis. reflexivity.
Qed.

End ShellInstanceFacts.

(** C7, as stated, fails: a handle built on a shell whose buffer already
    holds 1001 entries receives one chunk for its shell and then holds
    1001 entries; one entry is evicted per chunk, so a buffer that starts
    above the capacity never comes down to it. *)
Lemma shell_output_oversized_initial_buffer :
  let sh := {| shellId := str "shell-1"; name := str "bash";
               status := RUNNING; exitCode := None |} in
  let s := ShellInstance.run
             (ShellInstance.new sh (Some (repeat (str "old") 1001)))
             [ShellInstance.Out (str "shell-1") (str "new")] in
  length (ShellInstance.output s) = 1001
  /\ ~ length (ShellInstance.output s) <= 1000.
Proof.
  assert (E : length
                (ShellInstance.output
                   (ShellInstance.run
                      (ShellInstance.new
                         {| shellId := str "shell-1"; name := str "bash";
                            status := RUNNING; exitCode := None |}
                         (Some (repeat (str "old") 1001)))
                      [ShellInstance.Out (str "shell-1") (str "new")])) = 1001)
    by (vm_compute; reflexivity).
  cbv zeta. rewrite E. split; [reflexivity | lia].
Qed.

(** C7, amended (the display buffer keeps the newest 1000 entries).  For
    a shell handle whose initial buffer holds at most 1000 entries, after
    any sequence of events the buffer is the last 1000 entries of the
    initial buffer followed by the chunks that arrived for its shell
    while the handle was not disposed, in arrival order; it never holds
    more than 1000 entries; once 1000 chunks or more have arrived it is
    exactly the newest 1000 of them; and [getOutput()] is these entries
    joined by newlines. *)
Theorem shell_output_keeps_newest_1000 :
  forall (sh : ShellDTO) (buf : option (list jsstring))
         (es : list ShellInstance.event),
    let init := match buf with Some b => b | None => [] end in
    let chunks := ShellInstance.chunks_for (shellId sh) es in
    let s := ShellInstance.run (ShellInstance.new sh buf) es in
    length init <= 1000 ->
    ShellInstance.output s = ShellInstance.lastn 1000 (init ++ chunks)
    /\ length (ShellInstance.output s) <= 1000
    /\ (1000 <= length chunks ->
        ShellInstance.output s = ShellInstance.lastn 1000 chunks)
    /\ ShellInstance.getOutput s
       = join newline (ShellInstance.lastn 1000 (init ++ chunks)).
Proof.
  intros sh buf es init chunks s Hlen.
  assert (E : ShellInstance.output s = ShellInstance.lastn 1000 (init ++ chunks)).
  { unfold s, chunks. rewrite (@output_run (shellId sh)); try reflexivity.
    exact Hlen. }
  split; [exact E|]. split; [|split].
  - rewrite E, length_lastn. lia.
  - intros H. rewrite E. apply lastn_app_enough. exact H.
  - unfold ShellInstance.getOutput. rewrite E. reflexivity.
Qed.

(** 1001 chunks on an empty buffer: the first one is gone, the other
    1000 are there in arrival order. *)
Lemma shell_output_keeps_newest_1000_witness :
  let sh := {| shellId := str "shell-1"; name := str "bash";
               status := RUNNING; exitCode := None |} in
  let es := map (fun k => ShellInstance.Out (str "shell-1") (of_int (Z.of_nat k)))
                (seq 0 1001) in
  ShellInstance.output (ShellInstance.run (ShellInstance.new sh None) es)
  = ShellInstance.lastn 1000 ([] ++ ShellInstance.chunks_for (str "shell-1") es).
Proof.
  exact (proj1 (@shell_output_keeps_newest_1000
           {| shellId := str "shell-1"; name := str "bash";
              status := RUNNING; exitCode := None |}
           None
           (map (fun k => ShellInstance.Out (str "shell-1") (of_int (Z.of_nat k)))
                (seq 0 1001))
           (Nat.le_0_l 1000))).
Defined.

Example shell_output_1001_chunks :
  let sh := {| shellId := str "shell-1"; name := str "bash";
               status := RUNNING; exitCode := None |} in
  let es := map (fun k => ShellInstance.Out (str "shell-1") (of_int (Z.of_nat k)))
                (seq 0 1001) in
  ShellInstance.output (ShellInstance.run (ShellInstance.new sh None) es)
  = map (fun k => of_int (Z.of_nat k)) (seq 1 1000).
Proof. vm_compute. reflexivity. Qed.

(** C9 (disposing a shell handle).  The first [dispose()] of a shell
    handle sends the close request for its shell and marks the handle
    disposed; a further [dispose()] sends nothing.  However the close
    request settles, with success or with any error, the promise of the
    teardown callback is fulfilled: the error is caught and nothing is
    raised to the caller of [dispose()]. *)
Theorem shell_dispose_swallows_close_error :
  forall (sh : ShellDTO) (buf : option (list jsstring))
         (es : list ShellInstance.event) (closed : completion unit error),
    let s := ShellInstance.run (ShellInstance.new sh buf) es in
    let d := ShellInstance.dispose s in
    ShellInstance.calls d
    = (if ShellInstance.isDisposed s then ShellInstance.calls s
       else ShellInstance.calls s ++ [CallClose (shellId (ShellInstance.shell s))])
    /\ ShellInstance.isDisposed d = true
    /\ ShellInstance.dispose d = d
    /\ ShellInstance.calls
         (ShellInstance.dispose (ShellInstance.new sh buf))
       = [CallClose (shellId sh)]
    /\ ShellInstance.onWillDispose closed = Returned tt.
Proof.
  intros sh buf es closed s d. unfold d, ShellInstance.dispose.
  destruct (ShellInstance.isDisposed s) eqn:E; simpl; rewrite ?E;
    repeat split; try reflexivity;
    destruct closed as [[]|e]; reflexivity.
Qed.

Example shell_dispose_close_rejected :
  ShellInstance.onWillDispose (Threw (Error (str "Shell not found"))) = Returned tt
  /\ ShellInstance.calls
       (ShellInstance.run
          (ShellInstance.new {| shellId := str "shell-1"; name := str "bash";
                                status := RUNNING; exitCode := None |} None)
          [ShellInstance.DisposeCalled; ShellInstance.DisposeCalled])
     = [CallClose (str "shell-1")].
Proof. split; reflexivity. Qed.

(** ** Ports *)

Section PortsFacts.

Import Ports.

Lemma has_In_ports (s : NumberSet) (n : Z) : has s n = true <-> In n s.
Proof.
  unfold has. rewrite existsb_exists. split.
  - intros (x & Hx & E). apply Z.eqb_eq in E. subst; exact Hx.
  - intros H. exists n. split; [exact H | apply Z.eqb_refl].
Qed.

Lemma add_spec (s : NumberSet) (n m : Z) :
  In m (add s n) <-> In m s \/ m = n.
Proof.
  unfold add. destruct (has s n) eqn:E.
  - apply has_In_ports in E. split; [tauto | intros [H| ->]; assumption].
  - rewrite in_app_iff. simpl. intuition congruence.
Qed.

Lemma add_NoDup (s : NumberSet) (n : Z) : NoDup s -> NoDup (add s n).
Proof.
  intros H. unfold add. destruct (has s n) eqn:E; [exact H|].
  apply NoDup_app; [exact H | repeat constructor; simpl; tauto |].
  intros x Hx [<-|[]]. apply has_In_ports in Hx. congruence.
Qed.

Lemma fold_add_spec (A : Type) (f : A -> Z) (xs : list A) :
  forall s, NoDup s ->
            NoDup (fold_left (fun acc x => add acc (f x)) xs s)
            /\ forall m, In m (fold_left (fun acc x => add acc (f x)) xs s)
                         <-> In m s \/ In m (map f xs).
Proof.
  induction xs as [|x xs IH]; intros s H; simpl.
  - split; [exact H | intros m; tauto].
  - destruct (IH (add s (f x)) (add_NoDup (f x) H)) as [H1 H2].
    split; [exact H1|]. intros m. rewrite H2, add_spec. intuition congruence.
Qed.

Lemma set_of_spec (xs : list Z) :
  NoDup (set_of xs) /\ forall m, In m (set_of xs) <-> In m xs.
Proof.
  unfold set_of.
  destruct (@fold_add_spec Z (fun x => x) xs [] (NoDup_nil Z)) as [H1 H2].
  split; [exact H1|]. intros m. rewrite H2, map_id. simpl. tauto.
Qed.

Lemma fold_add_fresh (xs : list Z) :
  forall s, NoDup (s ++ xs) -> fold_left add xs s = s ++ xs.
Proof.
  induction xs as [|x xs IH]; intros s H; simpl; [rewrite app_nil_r; reflexivity|].
  assert (E : has s x = false).
  { destruct (has s x) eqn:E; [|reflexivity].
    apply has_In_ports in E. apply NoDup_remove_2 in H.
    exfalso; apply H. apply in_or_app; left; exact E. }
  unfold add at 2. rewrite E.
  rewrite IH; rewrite <- app_assoc; [reflexivity | exact H].
Qed.

Lemma set_of_NoDup (xs : list Z) : NoDup xs -> set_of xs = xs.
Proof. intros H. unfold set_of. apply (fold_add_fresh xs [] H). Qed.

(** The snapshot of a component is a set. *)
Lemma lastOpenedPorts_NoDup (initial : list Port) (batches : list (list Port)) :
  NoDup (lastOpenedPorts (run (new initial) batches)).
Proof.
  assert (G : forall bs s, NoDup (lastOpenedPorts s) ->
                           NoDup (lastOpenedPorts (run s bs))).
  { induction bs as [|b bs IH]; intros s H; [exact H|].
    apply (IH (onPortsUpdated s b)). simpl. apply set_of_spec. }
  apply G. simpl.
  apply (@fold_add_spec Port port initial [] (NoDup_nil Z)).
Qed.

(** In a duplicate-free list a value occurs once or not at all. *)
Lemma count_NoDup (xs : list Z) (n : Z) :
  NoDup xs ->
  length (filter (fun m => Z.eqb m n) xs) = if existsb (fun m => Z.eqb m n) xs then 1 else 0.
Proof.
  induction 1 as [|x xs Hx ND IH]; [reflexivity|].
  simpl. destruct (Z.eqb_spec x n) as [->|Hne]; simpl.
  - assert (E : existsb (fun m => Z.eqb m n) xs = false).
    { destruct (existsb _ xs) eqn:E; [|reflexivity].
      apply existsb_exists in E. destruct E as (m & Hm & E).
      apply Z.eqb_eq in E. subst. contradiction. }
    rewrite E in IH. rewrite IH. reflexivity.
  - exact IH.
Qed.

Lemma opens_for_app (n : Z) (a b : list fired) :
  opens_for n (a ++ b) = opens_for n a + opens_for n b.
Proof. unfold opens_for. rewrite filter_app, length_app. reflexivity. Qed.

Lemma closes_for_app (n : Z) (a b : list fired) :
  closes_for n (a ++ b) = closes_for n a + closes_for n b.
Proof. unfold closes_for. rewrite filter_app, length_app. reflexivity. Qed.

Lemma opens_for_opened (n : Z) (ps : list PortInfo) :
  opens_for n (map DidPortOpen ps)
  = length (filter (fun m => Z.eqb m n) (map infoPort ps))
  /\ closes_for n (map DidPortOpen ps) = 0.
Proof.
  unfold opens_for, closes_for.
  induction ps as [|p ps [IH1 IH2]]; [split; reflexivity|].
  simpl. destruct (Z.eqb (infoPort p) n); simpl; rewrite IH1, IH2; split; reflexivity.
Qed.

Lemma closes_for_closed (n : Z) (ms : list Z) :
  closes_for n (map DidPortClose ms) = length (filter (fun m => Z.eqb m n) ms)
  /\ opens_for n (map DidPortClose ms) = 0.
Proof.
  unfold opens_for, closes_for.
  induction ms as [|m ms [IH1 IH2]]; [split; reflexivity|].
  simpl. destruct (Z.eqb m n); simpl; rewrite IH1, IH2; split; reflexivity.
Qed.

Lemma guarded_map (A B : Type) (f : A -> B) (l : list A) :
  match l with [] => [] | _ :: _ => map f l end = map f l.
Proof. destruct l; reflexivity. Qed.

Lemma filter_filter_comm (A : Type) (f g : A -> bool) (l : list A) :
  filter f (filter g l) = filter g (filter f l).
Proof.
  induction l as [|x l IH]; [reflexivity|].
  simpl. destruct (f x) eqn:Ef, (g x) eqn:Eg; simpl; rewrite ?Ef, ?Eg, IH; reflexivity.
Qed.

Lemma filter_const (A : Type) (f : A -> bool) (b : bool) (l : list A) :
  (forall x, In x l -> f x = b) ->
  filter f l = if b then l else [].
Proof.
  induction l as [|x l IH]; intros H; [destruct b; reflexivity|].
  simpl. rewrite (H x (or_introl eq_refl)).
  rewrite IH by (intros y Hy; apply H; right; exact Hy).
  destruct b; reflexivity.
Qed.

End PortsFacts.

Lemma map_filter_comm (A B : Type) (f : A -> B) (h : B -> bool) (l : list A) :
  map f (filter (fun x => h (f x)) l) = filter h (map f l).
Proof.
  induction l as [|x l IH]; [reflexivity|].
  simpl. destruct (h (f x)); simpl; rewrite IH; reflexivity.
Qed.

Lemma count_in_set (xs : list Z) (n : Z) (h : Z -> bool) :
  NoDup xs ->
  length (filter (fun m => Z.eqb m n) (filter h xs))
  = if existsb (fun m => Z.eqb m n) xs && h n then 1 else 0.
Proof.
  intros ND. rewrite filter_filter_comm.
  rewrite (@filter_const Z h (h n)).
  - destruct (h n); [rewrite andb_true_r; apply count_NoDup; exact ND|].
    rewrite andb_false_r. reflexivity.
  - intros x Hx. apply filter_In in Hx. destruct Hx as [_ E].
    apply Z.eqb_eq in E. subst; reflexivity.
Qed.

Lemma existsb_port (ports : list Ports.Port) (n : Z) :
  existsb (fun m => Z.eqb m n) (map Ports.port ports) = Ports.in_batch ports n.
Proof.
  unfold Ports.in_batch. induction ports as [|p ports IH]; [reflexivity|].
  simpl. rewrite IH. reflexivity.
Qed.

Lemma existsb_has (s : Ports.NumberSet) (n : Z) :
  existsb (fun m => Z.eqb m n) s = Ports.has s n.
Proof.
  unfold Ports.has. induction s as [|x s IH]; [reflexivity|].
  simpl. rewrite IH, Z.eqb_sym. reflexivity.
Qed.

(** C8, as stated, fails: a batch that lists port 3000 twice, delivered
    to a component whose snapshot is empty, fires two open events for
    port 3000; the new snapshot is the set with the one port 3000. *)
Lemma ports_repeated_port_opens_twice :
  let batch := [ {| Ports.port := 3000; Ports.url := str "a.csb.app" |};
                 {| Ports.port := 3000; Ports.url := str "a.csb.app" |} ] in
  let s' := Ports.onPortsUpdated (Ports.new []) batch in
  Ports.opens_for 3000 (Ports.events s') = 2
  /\ Ports.lastOpenedPorts s' = [3000%Z].
Proof. split; reflexivity. Qed.

(** C8, amended (the delta of a ports batch).  For a batch that lists
    every port number at most once, delivered to a component in any
    state it can reach: the events fired are appended to those fired
    before; for every port number there is exactly one open event if the
    batch lists it and the previous snapshot does not hold it, and none
    otherwise; exactly one close event if the previous snapshot holds
    it and the batch does not list it, and none otherwise (so none of
    either kind for a port in both); every open event carries the port
    and url of an entry of the batch; and the snapshot afterwards is the
    list of the port numbers of the batch. *)
Theorem ports_updated_delta :
  forall (initial : list Ports.Port) (batches : list (list Ports.Port))
         (ports : list Ports.Port) (n : Z),
    let s := Ports.run (Ports.new initial) batches in
    let s' := Ports.onPortsUpdated s ports in
    let fired := map Ports.DidPortOpen (Ports.openedPorts s ports)
                 ++ map Ports.DidPortClose (Ports.closedPorts s ports) in
    NoDup (map Ports.port ports) ->
    Ports.events s' = Ports.events s ++ fired
    /\ Ports.opens_for n fired
       = (if Ports.in_batch ports n && negb (Ports.has (Ports.lastOpenedPorts s) n)
          then 1 else 0)
    /\ Ports.closes_for n fired
       = (if Ports.has (Ports.lastOpenedPorts s) n && negb (Ports.in_batch ports n)
          then 1 else 0)
    /\ (forall p, In (Ports.DidPortOpen p) fired ->
                  In {| Ports.port := Ports.infoPort p; Ports.url := Ports.hostname p |}
                     ports)
    /\ Ports.lastOpenedPorts s' = map Ports.port ports.
Proof.
  intros initial batches ports n s s' fired ND.
  pose proof (lastOpenedPorts_NoDup initial batches) as NDs. fold s in NDs.
  split; [|split; [|split; [|split]]].
  - unfold s', Ports.onPortsUpdated. simpl. rewrite !guarded_map. reflexivity.
  - unfold fired. rewrite opens_for_app.
    destruct (opens_for_opened n (Ports.openedPorts s ports)) as [E _].
    destruct (closes_for_closed n (Ports.closedPorts s ports)) as [_ E'].
    rewrite E, E', Nat.add_0_r.
    unfold Ports.openedPorts. rewrite map_map. simpl.
    rewrite <- (map_map Ports.port (fun m => m)), map_id.
    rewrite (map_filter_comm Ports.port
               (fun m => negb (Ports.has (Ports.lastOpenedPorts s) m))).
    rewrite count_in_set by exact ND. rewrite existsb_port. reflexivity.
  - unfold fired. rewrite closes_for_app.
    destruct (opens_for_opened n (Ports.openedPorts s ports)) as [_ E].
    destruct (closes_for_closed n (Ports.closedPorts s ports)) as [E' _].
    rewrite E, E'. simpl. unfold Ports.closedPorts.
    rewrite count_in_set by exact NDs. rewrite existsb_has. reflexivity.
  - intros p Hp. unfold fired in Hp. apply in_app_or in Hp.
    destruct Hp as [Hp|Hp]; apply in_map_iff in Hp; destruct Hp as (x & E & Hx);
      [|discriminate].
    inversion E; subst x. unfold Ports.openedPorts in Hx.
    apply in_map_iff in Hx. destruct Hx as (q & <- & Hq).
    apply filter_In in Hq. destruct q; simpl. apply Hq.
  - unfold s', Ports.onPortsUpdated. simpl. apply set_of_NoDup; exact ND.
Qed.

(** The scenario of the specification: the snapshot is [{3000, 8080}],
    the batch lists 8080 and 9090. *)
Lemma ports_updated_delta_witness :
  let mk n := {| Ports.port := n; Ports.url := of_int n ++ str ".csb.app" |} in
  let s := Ports.run (Ports.new [mk 3000%Z; mk 8080%Z]) [] in
  Ports.events (Ports.onPortsUpdated s [mk 8080%Z; mk 9090%Z])
  = Ports.events s
    ++ map Ports.DidPortOpen (Ports.openedPorts s [mk 8080%Z; mk 9090%Z])
    ++ map Ports.DidPortClose (Ports.closedPorts s [mk 8080%Z; mk 9090%Z]).
Proof.
  refine (proj1 (@ports_updated_delta
            [ {| Ports.port := 3000; Ports.url := of_int 3000 ++ str ".csb.app" |};
              {| Ports.port := 8080; Ports.url := of_int 8080 ++ str ".csb.app" |} ]
            []
            [ {| Ports.port := 8080; Ports.url := of_int 8080 ++ str ".csb.app" |};
              {| Ports.port := 9090; Ports.url := of_int 9090 ++ str ".csb.app" |} ]
            0%Z _)).
  simpl. repeat (constructor; [simpl; intuition discriminate|]). constructor.
Defined.

Example ports_delta_scenario :
  let mk n := {| Ports.port := n; Ports.url := of_int n ++ str ".csb.app" |} in
  let s' := Ports.onPortsUpdated (Ports.new [mk 3000%Z; mk 8080%Z])
              [mk 8080%Z; mk 9090%Z] in
  Ports.events s'
  = [ Ports.DidPortOpen {| Ports.infoPort := 9090;
                           Ports.hostname := str "9090.csb.app" |};
      Ports.DidPortClose 3000 ]
  /\ Ports.lastOpenedPorts s' = [8080%Z; 9090%Z].
Proof. split; reflexivity. Qed.

(** The Python interpreter cannot write its temporary file: the command
    is rejected with the error of the answer and only the write request
    was sent. *)
Example python_write_fails :
  let s := Command.step
             (LanguageInterpreter.run (str "/project") LanguageInterpreter.python
                (str "k3x9") (str "print(1)"))
             (Command.PreCommandSettled
                (LanguageInterpreter.preCommand
                   (Returned (LanguageInterpreter.WriteError 28 (str "No space left"))))) in
  Command.resultPromise s
  = Command.PromiseRejected (Error (str "28: No space left"))
  /\ Command.calls s
     = [CallWriteFile (str "/tmp/tmp.k3x9.py") (str "print(1)") true true].
Proof. split; reflexivity. Qed.

(** The request that creates the session of [shells.run]. *)
Example run_create_request :
  Command.calls (Shells.run (str "/project") (str "echo hi") None)
  = [CallCreate (str "/project") DEFAULT_SHELL_SIZE (str "env  echo hi")
       (str "TERMINAL") true].
Proof. reflexivity. Qed.

Example js_create_request :
  Command.calls
    (Command.step
       (LanguageInterpreter.run (str "/project") LanguageInterpreter.js
          (str "k3x9") (str "1+1"))
       (Command.PreCommandSettled (LanguageInterpreter.preCommand (Returned LanguageInterpreter.WriteOk))))
  = [CallWriteFile (str "/tmp/tmp.k3x9.js") (str "1+1") true true;
     CallCreate (str "/project") DEFAULT_SHELL_SIZE
       (str "env NO_COLOR=true node /tmp/tmp.k3x9.js") (str "TERMINAL") true].
Proof. reflexivity. Qed.

(** ** Emitter: passes in sequence, onceEvent, listenOnce *)

Section EmitterPasses.

Import Emitter.

Variable V : Type.
Variable behaviour : listener -> V -> list action.

Lemma run_body_self_exact (l : listener) (acts : list action) (d : SetData) :
  Forall (fun a => a = Unregister l) acts ->
  run_body acts d
  = (match acts with [] => d | _ :: _ => delete d l end, Returned tt).
Proof.
  intros H. destruct (run_body_self d H) as [E|E].
  - destruct H as [|a acts -> H]; [exact E|].
    simpl in *. destruct (run_body_self (delete d l) H) as [E'|E'];
      rewrite E'; [reflexivity | rewrite delete_idem; reflexivity].
  - destruct H as [|a acts -> H]; [simpl; reflexivity | exact E].
Qed.

Lemma elements_after_pass (v : V) (d : SetData) :
  elements (Events.after_pass behaviour v d)
  = filter (Events.stays behaviour v) (elements d).
Proof.
  unfold Events.after_pass. induction d as [|[l|] d IH]; simpl; [reflexivity| |exact IH].
  destruct (Events.stays behaviour v l); simpl; [f_equal|]; exact IH.
Qed.

Lemma length_after_passes (vs : list V) :
  forall d, length (Events.after_passes behaviour vs d) = length d.
Proof.
  induction vs as [|v vs IH]; intros d; [reflexivity|].
  unfold Events.after_passes in *; simpl. rewrite IH.
  unfold Events.after_pass. apply length_map.
Qed.

(** A pass over listeners that at most dispose their own registration:
    the calls made and the entry list it leaves. *)
Lemma forEach_self_removal_state (v : V) (rest : SetData) :
  forall (passed : SetData) (log : list (listener * V)) (fuel : nat),
    NoDup (elements rest) ->
    (forall l, In l (elements rest) -> ~ In l (elements passed)) ->
    (forall l, In l (elements rest) -> removes_only_itself behaviour v l) ->
    length rest < fuel ->
    forEach behaviour fuel v (length passed) (passed ++ rest) log
    = Some (passed ++ Events.after_pass behaviour v rest,
            log ++ map (fun l => (l, v)) (elements rest), Returned tt).
Proof.
  induction rest as [|e rest IH]; intros passed log fuel ND Hfresh Hself Hfuel.
  - destruct fuel as [|fuel]; [simpl in Hfuel; lia|]. simpl.
    rewrite app_nil_r.
    assert (E : nth_error passed (length passed) = None)
      by (apply nth_error_None; lia).
    rewrite E, app_nil_r. reflexivity.
  - destruct fuel as [|fuel]; [simpl in Hfuel; lia|].
    simpl in Hfuel. cbn [forEach].
    rewrite nth_error_app2 by lia. rewrite Nat.sub_diag. cbn [nth_error].
    destruct e as [l|].
    + simpl in ND, Hfresh, Hself. inversion ND as [|? ? Hnotin ND']; subst.
      rewrite (run_body_self_exact _ (Hself l (or_introl eq_refl))).
      assert (Hrest : delete rest l = rest) by (apply delete_absent; exact Hnotin).
      assert (Hpassed : delete passed l = passed)
        by (apply delete_absent; apply Hfresh; left; reflexivity).
      assert (Hnext : forall x, In x (elements rest) ->
                                forall e', ~ In x (elements (passed ++ [e']))
                                           \/ e' = Some x).
      { intros x Hx e'. rewrite elements_app.
        destruct e' as [y|]; simpl.
        - destruct (Nat.eq_dec y x) as [->|Hne]; [right; reflexivity|].
          left. intros Hin. apply in_app_or in Hin.
          destruct Hin as [Hin|[Hin|[]]]; [|congruence].
          apply (Hfresh x); [right; exact Hx | exact Hin].
        - left. rewrite app_nil_r. apply Hfresh. right; exact Hx. }
      unfold Events.after_pass; cbn [map]. fold (Events.after_pass behaviour v rest).
      unfold Events.stays at 1.
      destruct (behaviour l v) as [|a acts] eqn:Eb.
      * replace (passed ++ Some l :: rest) with ((passed ++ [Some l]) ++ rest)
          by (rewrite <- app_assoc; reflexivity).
        replace (S (length passed)) with (length (passed ++ [Some l]))
          by (rewrite length_app; simpl; lia).
        rewrite IH; try assumption; try lia.
        -- rewrite <- !app_assoc. reflexivity.
        -- intros x Hx. destruct (Hnext x Hx (Some l)) as [H|H]; [exact H|].
           inversion H; subst. contradiction.
        -- intros x Hx. apply Hself. right; exact Hx.
      * rewrite delete_app. change (Some l :: rest) with ([Some l] ++ rest).
        rewrite delete_app, Hrest, Hpassed. unfold delete at 1. simpl.
        rewrite Nat.eqb_refl.
        replace (passed ++ None :: rest) with ((passed ++ [None]) ++ rest)
          by (rewrite <- app_assoc; reflexivity).
        replace (S (length passed)) with (length (passed ++ [None]))
          by (rewrite length_app; simpl; lia).
        rewrite IH; try assumption; try lia.
        -- rewrite <- !app_assoc. reflexivity.
        -- intros x Hx. destruct (Hnext x Hx None) as [H|H]; [exact H | discriminate].
        -- intros x Hx. apply Hself. right; exact Hx.
    + simpl in ND, Hfresh, Hself.
      replace (passed ++ None :: rest) with ((passed ++ [None]) ++ rest)
        by (rewrite <- app_assoc; reflexivity).
      replace (S (length passed)) with (length (passed ++ [None]))
        by (rewrite length_app; simpl; lia).
      rewrite IH; try assumption; try lia.
      * unfold Events.after_pass; simpl. rewrite <- !app_assoc. reflexivity.
      * intros x Hx. rewrite elements_app. simpl. rewrite app_nil_r.
        apply Hfresh; exact Hx.
Qed.

(** The same for successive passes. *)
Lemma fires_self_removal (vs : list V) :
  forall (d : SetData) (fuel : nat),
    NoDup (elements d) ->
    (forall l v, In l (elements d) -> removes_only_itself behaviour v l) ->
    length d < fuel ->
    Events.fires behaviour fuel {| registeredListeners := d |} vs
    = Some ({| registeredListeners := Events.after_passes behaviour vs d |},
            Events.calls_of behaviour (elements d) vs, Returned tt).
Proof.
  induction vs as [|v vs IH]; intros d fuel ND Hself Hfuel; [reflexivity|].
  cbn [Events.fires]. unfold fire. cbn [registeredListeners].
  pose proof (@forEach_self_removal_state v d [] [] fuel ND) as P.
  simpl in P. rewrite P; [|tauto | intros l Hl; apply Hself; exact Hl | exact Hfuel].
  rewrite IH.
  - cbn [Events.calls_of]. rewrite elements_after_pass. reflexivity.
  - rewrite elements_after_pass. apply NoDup_filter; exact ND.
  - intros l v' Hl. rewrite elements_after_pass in Hl.
    apply filter_In in Hl. apply Hself. apply Hl.
  - unfold Events.after_pass. rewrite length_map. exact Hfuel.
Qed.

Lemma calls_to_app (w : listener) (a b : list (listener * V)) :
  Events.calls_to w (a ++ b) = Events.calls_to w a ++ Events.calls_to w b.
Proof. unfold Events.calls_to. apply filter_app. Qed.

Lemma calls_to_pass (w : listener) (v : V) (ls : list listener) :
  NoDup ls ->
  Events.calls_to w (map (fun l => (l, v)) ls)
  = if existsb (Nat.eqb w) ls then [(w, v)] else [].
Proof.
  unfold Events.calls_to. induction 1 as [|x ls Hx ND IH]; [reflexivity|].
  simpl. rewrite IH. rewrite (Nat.eqb_sym w x).
  destruct (Nat.eqb_spec x w) as [->|Hne]; simpl; [|reflexivity].
  destruct (existsb (Nat.eqb w) ls) eqn:E; [|reflexivity].
  apply existsb_exists in E. destruct E as (y & Hy & E).
  apply Nat.eqb_eq in E. subst. contradiction.
Qed.

Lemma existsb_filter_stays (w : listener) (v : V) (ls : list listener) :
  existsb (Nat.eqb w) (filter (Events.stays behaviour v) ls)
  = existsb (Nat.eqb w) ls && Events.stays behaviour v w.
Proof.
  induction ls as [|x ls IH]; [reflexivity|].
  simpl. destruct (Events.stays behaviour v x) eqn:Ex; simpl; rewrite IH.
  - destruct (Nat.eqb_spec w x) as [->|Hne]; simpl; [rewrite Ex|]; reflexivity.
  - destruct (Nat.eqb_spec w x) as [->|Hne]; simpl; [|reflexivity].
    rewrite Ex, andb_false_r. reflexivity.
Qed.

(** The calls made to one listener over successive passes: one per value,
    up to and including the first for which it disposes its registration. *)
Lemma calls_to_calls_of (w : listener) (vs : list V) :
  forall ls,
    NoDup ls ->
    Events.calls_to w (Events.calls_of behaviour ls vs)
    = if existsb (Nat.eqb w) ls
      then map (fun v => (w, v))
               (Events.until_first (fun v => negb (Events.stays behaviour v w)) vs)
      else [].
Proof.
  induction vs as [|v vs IH]; intros ls ND.
  - simpl. destruct (existsb (Nat.eqb w) ls); reflexivity.
  - cbn [Events.calls_of]. rewrite calls_to_app, calls_to_pass by exact ND.
    rewrite IH by (apply NoDup_filter; exact ND).
    rewrite existsb_filter_stays.
    destruct (existsb (Nat.eqb w) ls); simpl; [|reflexivity].
    destruct (Events.stays behaviour v w); reflexivity.
Qed.

Lemma In_elements_after_passes (w : listener) (vs : list V) :
  forall d,
    In w (elements (Events.after_passes behaviour vs d))
    <-> In w (elements d) /\ forallb (fun v => Events.stays behaviour v w) vs = true.
Proof.
  induction vs as [|v vs IH]; intros d.
  - simpl. tauto.
  - unfold Events.after_passes in *. simpl. rewrite IH, elements_after_pass.
    rewrite filter_In, andb_true_iff. tauto.
Qed.

End EmitterPasses.

Lemma find_filter_and (A : Type) (p q : A -> bool) (l : list A) :
  find (fun x => p x && q x) l = find q (filter p l).
Proof.
  induction l as [|x l IH]; [reflexivity|].
  simpl. destruct (p x); simpl; [destruct (q x); [reflexivity | exact IH] | exact IH].
Qed.

Lemma find_until_first (A : Type) (p : A -> bool) (l : list A) :
  find p (Events.until_first p l) = find p l.
Proof.
  induction l as [|x l IH]; [reflexivity|].
  simpl. destruct (p x) eqn:E; simpl; rewrite E; [reflexivity | exact IH].
Qed.

Lemma find_map_pair (A : Type) (w : nat) (p : A -> bool) (l : list A) :
  find (fun c : nat * A => p (snd c)) (map (fun v => (w, v)) l)
  = option_map (fun v => (w, v)) (find p l).
Proof.
  induction l as [|x l IH]; [reflexivity|].
  simpl. destruct (p x); [reflexivity | exact IH].
Qed.

Lemma with_listener_self (V : Type)
  (behaviour : Emitter.listener -> V -> list Emitter.action)
  (w : Emitter.listener) (body : V -> list Emitter.action) (d : Emitter.SetData) :
  ~ In w (Emitter.elements d) ->
  (forall l v, In l (Emitter.elements d) -> Emitter.removes_only_itself behaviour v l) ->
  (forall v, Forall (fun a => a = Emitter.Unregister w) (body v)) ->
  forall l v, In l (Emitter.elements (Emitter.add d w)) ->
              Emitter.removes_only_itself (Events.with_listener behaviour w body) v l.
Proof.
  intros Hw Hself Hbody l v Hl.
  unfold Emitter.removes_only_itself, Events.with_listener.
  destruct (Nat.eqb_spec l w) as [->|Hne]; [apply Hbody|].
  apply Hself. rewrite elements_add in Hl.
  destruct (Emitter.has d w); [exact Hl|].
  apply in_app_or in Hl. destruct Hl as [Hl|[Hl|[]]]; [exact Hl | congruence].
Qed.

Lemma existsb_added (d : Emitter.SetData) (w : Emitter.listener) :
  existsb (Nat.eqb w) (Emitter.elements (Emitter.add d w)) = true.
Proof.
  apply existsb_exists. exists w. split; [|apply Nat.eqb_refl].
  rewrite elements_add. destruct (Emitter.has d w) eqn:E.
  - apply has_In; exact E.
  - apply in_or_app; right; left; reflexivity.
Qed.

Lemma length_add_le (d : Emitter.SetData) (w : Emitter.listener) :
  length (Emitter.add d w) <= S (length d).
Proof.
  unfold Emitter.add. destruct (Emitter.has d w); [lia|].
  rewrite length_app; simpl; lia.
Qed.

(** X1 (onceEvent).  A listener registered through [onceEvent(event)] is
    called by the first [fire] after its registration and by no later
    one: the function registered for it disposes its registration before
    it calls the listener.  This holds next to any listeners that at most
    dispose their own registrations. *)
Theorem onceEvent_called_once :
  forall (V : Type) (behaviour : Emitter.listener -> V -> list Emitter.action)
         (em : Emitter.t) (w : Emitter.listener) (v : V) (vs : list V) (fuel : nat),
    NoDup (Emitter.elements (Emitter.registeredListeners em)) ->
    ~ In w (Emitter.elements (Emitter.registeredListeners em)) ->
    (forall l x, In l (Emitter.elements (Emitter.registeredListeners em)) ->
                 Emitter.removes_only_itself behaviour x l) ->
    S (length (Emitter.registeredListeners em)) < fuel ->
    exists em' log,
      Events.fires
        (Events.with_listener behaviour w (Events.onceEvent_callback w (fun _ => [])))
        fuel (fst (Emitter.event em w)) (v :: vs)
      = Some (em', log, Returned tt)
      /\ Events.calls_to w log = [(w, v)]
      /\ ~ In w (Emitter.elements (Emitter.registeredListeners em')).
Proof.
  intros V behaviour [d] w v vs fuel ND Hw Hself Hfuel.
  simpl in ND, Hw, Hself, Hfuel.
  change (fst (Emitter.event {| Emitter.registeredListeners := d |} w))
    with {| Emitter.registeredListeners := Emitter.add d w |}.
  set (beh := Events.with_listener behaviour w (Events.onceEvent_callback w (fun _ => []))).
  assert (Hbody : forall x, Forall (fun a => a = Emitter.Unregister w)
                                   (Events.onceEvent_callback w (fun _ : V => []) x))
    by (intros x; repeat constructor).
  assert (Hstay : forall x, Events.stays beh x w = false).
  { intros x. unfold Events.stays, beh, Events.with_listener.
    rewrite Nat.eqb_refl. reflexivity. }
  exists {| Emitter.registeredListeners :=
              Events.after_passes beh (v :: vs) (Emitter.add d w) |}.
  exists (Events.calls_of beh (Emitter.elements (Emitter.add d w)) (v :: vs)).
  split; [|split].
  - apply fires_self_removal.
    + apply NoDup_elements_add; exact ND.
    + apply with_listener_self; assumption.
    + pose proof (length_add_le d w). lia.
  - rewrite calls_to_calls_of by (apply NoDup_elements_add; exact ND).
    rewrite existsb_added. simpl. rewrite Hstay. reflexivity.
  - cbn [Emitter.registeredListeners]. intros Hin. apply In_elements_after_passes in Hin.
    destruct Hin as [_ Hin]. simpl in Hin. rewrite Hstay in Hin. discriminate.
Qed.

Lemma onceEvent_called_once_witness :
  exists em' log,
    Events.fires
      (Events.with_listener (fun _ (_ : nat) => []) 5
         (Events.onceEvent_callback 5 (fun _ => [])))
      4 (fst (Emitter.event {| Emitter.registeredListeners := [Some 1] |} 5))
      [10; 20; 30]
    = Some (em', log, Returned tt)
    /\ Events.calls_to 5 log = [(5, 10)]
    /\ ~ In 5 (Emitter.elements (Emitter.registeredListeners em')).
Proof.
  refine (@onceEvent_called_once nat (fun _ _ => [])
            {| Emitter.registeredListeners := [Some 1] |} 5 10 [20; 30] 4 _ _ _ _).
  - simpl. repeat constructor. simpl; tauto.
  - simpl. intros [H|[]]; discriminate.
  - intros l x _. constructor.
  - simpl. lia.
Defined.

(** X2 (listenOnce).  With the function of [listenOnce(event, condition)]
    registered next to listeners that at most dispose their own
    registrations, and values fired one after the other: the function is
    called for each value up to and including the first that passes the
    condition (every value passes when no condition is given) and for
    none after it; the promise is resolved with that first passing value
    and stays pending when no value passes; and the function is still
    registered afterwards exactly when no value has passed. *)
Theorem listenOnce_first_match :
  forall (V : Type) (behaviour : Emitter.listener -> V -> list Emitter.action)
         (em : Emitter.t) (w : Emitter.listener) (condition : option (V -> bool))
         (vs : list V) (fuel : nat),
    NoDup (Emitter.elements (Emitter.registeredListeners em)) ->
    ~ In w (Emitter.elements (Emitter.registeredListeners em)) ->
    (forall l x, In l (Emitter.elements (Emitter.registeredListeners em)) ->
                 Emitter.removes_only_itself behaviour x l) ->
    S (length (Emitter.registeredListeners em)) < fuel ->
    exists em' log,
      Events.fires
        (Events.with_listener behaviour w (Events.listenOnce_callback w condition))
        fuel (fst (Emitter.event em w)) vs
      = Some (em', log, Returned tt)
      /\ Events.calls_to w log
         = map (fun v => (w, v)) (Events.until_first (Events.passes condition) vs)
      /\ Events.listenOnce_promise w condition log
         = find (Events.passes condition) vs
      /\ (In w (Emitter.elements (Emitter.registeredListeners em'))
          <-> find (Events.passes condition) vs = None).
Proof.
  intros V behaviour [d] w condition vs fuel ND Hw Hself Hfuel.
  simpl in ND, Hw, Hself, Hfuel.
  change (fst (Emitter.event {| Emitter.registeredListeners := d |} w))
    with {| Emitter.registeredListeners := Emitter.add d w |}.
  set (beh := Events.with_listener behaviour w (Events.listenOnce_callback w condition)).
  assert (Hbody : forall x, Forall (fun a => a = Emitter.Unregister w)
                                   (Events.listenOnce_callback w condition x)).
  { intros x. unfold Events.listenOnce_callback.
    destruct (Events.passes condition x); repeat constructor. }
  assert (Hstay : forall x, Events.stays beh x w = negb (Events.passes condition x)).
  { intros x. unfold Events.stays, beh, Events.with_listener, Events.listenOnce_callback.
    rewrite Nat.eqb_refl. destruct (Events.passes condition x); reflexivity. }
  assert (Hcalls : Events.calls_to w
                     (Events.calls_of beh (Emitter.elements (Emitter.add d w)) vs)
                   = map (fun v => (w, v))
                         (Events.until_first (Events.passes condition) vs)).
  { rewrite calls_to_calls_of by (apply NoDup_elements_add; exact ND).
    rewrite existsb_added. f_equal.
    clear -Hstay. induction vs as [|x vs IH]; [reflexivity|].
    simpl. rewrite Hstay, negb_involutive, IH. reflexivity. }
  exists {| Emitter.registeredListeners :=
              Events.after_passes beh vs (Emitter.add d w) |}.
  exists (Events.calls_of beh (Emitter.elements (Emitter.add d w)) vs).
  split; [|split; [|split]].
  - apply fires_self_removal.
    + apply NoDup_elements_add; exact ND.
    + apply with_listener_self; assumption.
    + pose proof (length_add_le d w). lia.
  - exact Hcalls.
  - unfold Events.listenOnce_promise.
    rewrite (find_filter_and (fun c : nat * V => Nat.eqb (fst c) w)
                             (fun c => Events.passes condition (snd c))).
    fold (Events.calls_to w (Events.calls_of beh (Emitter.elements (Emitter.add d w)) vs)).
    rewrite Hcalls, find_map_pair, find_until_first.
    destruct (find (Events.passes condition) vs); reflexivity.
  - cbn [Emitter.registeredListeners]. rewrite In_elements_after_passes. split.
    + intros [_ H]. clear -H Hstay. induction vs as [|x vs IH]; [reflexivity|].
      simpl in *. rewrite Hstay in H. apply andb_true_iff in H. destruct H as [H1 H2].
      destruct (Events.passes condition x); [discriminate | apply IH; exact H2].
    + intros H. split.
      * apply has_In. unfold Emitter.add.
        destruct (Emitter.has d w) eqn:E; [exact E|].
        unfold Emitter.has. rewrite existsb_app. simpl.
        rewrite Nat.eqb_refl, !orb_true_r. reflexivity.
      * clear -H Hstay. induction vs as [|x vs IH]; [reflexivity|].
        simpl in *. rewrite Hstay.
        destruct (Events.passes condition x); [discriminate|].
        simpl. apply IH; exact H.
Qed.

Lemma listenOnce_first_match_witness :
  exists em' log,
    Events.fires
      (Events.with_listener (fun _ (_ : nat) => []) 5
         (Events.listenOnce_callback 5 (Some (fun n => Nat.leb 20 n))))
      4 (fst (Emitter.event {| Emitter.registeredListeners := [Some 1] |} 5))
      [10; 20; 30]
    = Some (em', log, Returned tt)
    /\ Events.calls_to 5 log
       = map (fun v => (5, v))
             (Events.until_first (Events.passes (Some (fun n => Nat.leb 20 n))) [10; 20; 30])
    /\ Events.listenOnce_promise 5 (Some (fun n => Nat.leb 20 n)) log
       = find (Events.passes (Some (fun n => Nat.leb 20 n))) [10; 20; 30]
    /\ (In 5 (Emitter.elements (Emitter.registeredListeners em'))
        <-> find (Events.passes (Some (fun n => Nat.leb 20 n))) [10; 20; 30] = None).
Proof.
  refine (@listenOnce_first_match nat (fun _ _ => [])
            {| Emitter.registeredListeners := [Some 1] |} 5
            (Some (fun n => Nat.leb 20 n)) [10; 20; 30] 4 _ _ _ _).
  - simpl. repeat constructor. simpl; tauto.
  - simpl. intros [H|[]]; discriminate.
  - intros l x _. constructor.
  - simpl. lia.
Defined.

Example listenOnce_run :
  Events.fires
    (Events.with_listener (fun _ (_ : nat) => []) 5
       (Events.listenOnce_callback 5 (Some (fun n => Nat.leb 20 n))))
    4 (fst (Emitter.event {| Emitter.registeredListeners := [Some 1] |} 5))
    [10; 20; 30]
  = Some ({| Emitter.registeredListeners := [Some 1; None] |},
          [(1, 10); (5, 10); (1, 20); (5, 20); (1, 30)], Returned tt).
Proof. reflexivity. Qed.

(** ** Emitter: what a pass does when listeners throw or change the set *)

Section EmitterPassEdges.

Import Emitter.

Variable V : Type.
Variable behaviour : listener -> V -> list action.

(** A pass walks through listeners that leave the set alone, calling
    each of them. *)
Lemma forEach_observers_prefix (v : V) (pre : SetData) :
  forall (passed rest : SetData) (log : list (listener * V)) (fuel : nat),
    (forall x, In x (elements pre) -> behaviour x v = []) ->
    forEach behaviour (length pre + fuel) v (length passed) (passed ++ pre ++ rest) log
    = forEach behaviour fuel v (length (passed ++ pre)) (passed ++ pre ++ rest)
        (log ++ map (fun l => (l, v)) (elements pre)).
Proof.
  induction pre as [|e pre IH]; intros passed rest log fuel Hobs.
  - simpl. rewrite !app_nil_r. reflexivity.
  - cbn [length Nat.add forEach].
    rewrite nth_error_app2 by lia. rewrite Nat.sub_diag. cbn [app nth_error].
    assert (Hshape : passed ++ e :: pre ++ rest = (passed ++ [e]) ++ pre ++ rest)
      by (rewrite <- app_assoc; reflexivity).
    assert (Hlen : S (length passed) = length (passed ++ [e]))
      by (rewrite length_app; simpl; lia).
    assert (Hlen' : length (passed ++ e :: pre) = length ((passed ++ [e]) ++ pre))
      by (rewrite <- app_assoc; reflexivity).
    destruct e as [l|].
    + rewrite (Hobs l) by (left; reflexivity). cbn [run_body].
      rewrite Hshape, Hlen, Hlen'. rewrite IH.
      * simpl. rewrite <- !app_assoc. reflexivity.
      * intros x Hx. apply Hobs. right; exact Hx.
    + rewrite Hshape, Hlen, Hlen'. rewrite IH; [reflexivity|].
      intros x Hx. apply Hobs. exact Hx.
Qed.

Lemma forEach_observers_all (v : V) (pre : SetData) :
  forall (passed : SetData) (log : list (listener * V)) (fuel : nat),
    (forall x, In x (elements pre) -> behaviour x v = []) ->
    forEach behaviour (length pre + S fuel) v (length passed) (passed ++ pre) log
    = Some (passed ++ pre, log ++ map (fun l => (l, v)) (elements pre), Returned tt).
Proof.
  intros passed log fuel Hobs.
  pose proof (@forEach_observers_prefix v pre passed [] log (S fuel) Hobs) as P.
  rewrite !app_nil_r in P. rewrite P. cbn [forEach].
  assert (E : nth_error (passed ++ pre) (length (passed ++ pre)) = None)
    by (apply nth_error_None; lia).
  rewrite E. reflexivity.
Qed.

End EmitterPassEdges.

(** X3 (a throwing listener ends the pass).  When the listeners before
    [l] leave the set alone and [l] throws [e], [fire] calls them and
    [l], calls none of the listeners registered after [l], leaves the
    registrations as they were and throws [e]. *)
Theorem emitter_fire_throw_skips_rest :
  forall (V : Type) (behaviour : Emitter.listener -> V -> list Emitter.action)
         (pre post : Emitter.SetData) (l : Emitter.listener) (v : V)
         (e : error) (acts : list Emitter.action) (fuel : nat),
    (forall x, In x (Emitter.elements pre) -> behaviour x v = []) ->
    behaviour l v = Emitter.Throw e :: acts ->
    length pre < fuel ->
    Emitter.fire behaviour fuel
      {| Emitter.registeredListeners := pre ++ Some l :: post |} v
    = Some ({| Emitter.registeredListeners := pre ++ Some l :: post |},
            map (fun x => (x, v)) (Emitter.elements pre) ++ [(l, v)],
            Threw e).
Proof.
  intros V behaviour pre post l v e acts fuel Hobs Hthrow Hfuel.
  unfold Emitter.fire. cbn [Emitter.registeredListeners].
  replace fuel with (length pre + S (fuel - S (length pre))) by lia.
  pose proof (@forEach_observers_prefix V behaviour v pre [] (Some l :: post) []
                (S (fuel - S (length pre))) Hobs) as P.
  simpl app in P. simpl length in P. rewrite P.
  cbn [Emitter.forEach]. rewrite nth_error_app2 by lia.
  rewrite Nat.sub_diag. cbn [nth_error]. rewrite Hthrow. reflexivity.
Qed.

Lemma emitter_fire_throw_skips_rest_witness :
  Emitter.fire
    (fun l (_ : nat) => if Nat.eqb l 2 then [Emitter.Throw (Error (str "boom"))] else [])
    2 {| Emitter.registeredListeners := [Some 1] ++ Some 2 :: [Some 3] |} 7
  = Some ({| Emitter.registeredListeners := [Some 1] ++ Some 2 :: [Some 3] |},
          map (fun x => (x, 7)) (Emitter.elements [Some 1]) ++ [(2, 7)],
          Threw (Error (str "boom"))).
Proof.
  refine (@emitter_fire_throw_skips_rest nat
            (fun l _ => if Nat.eqb l 2 then [Emitter.Throw (Error (str "boom"))] else [])
            [Some 1] [Some 3] 2 7 (Error (str "boom")) [] 2 _ _ _).
  - simpl. intros x [<-|[]]. reflexivity.
  - reflexivity.
  - simpl. lia.
Defined.

(** X4 (a listener registered during a pass is called in that pass).
    When a listener [a] registers a function [b] that is not registered
    yet, and the other listeners and [b] leave the set alone, the pass
    in progress calls every listener that was registered and then [b],
    and [b] is registered afterwards. *)
Theorem emitter_fire_calls_added_listener :
  forall (V : Type) (behaviour : Emitter.listener -> V -> list Emitter.action)
         (pre post : Emitter.SetData) (a b : Emitter.listener) (v : V) (fuel : nat),
    (forall x, In x (Emitter.elements (pre ++ post)) -> behaviour x v = []) ->
    behaviour a v = [Emitter.Register b] ->
    behaviour b v = [] ->
    ~ In b (Emitter.elements (pre ++ Some a :: post)) ->
    length (pre ++ Some a :: post) + 1 < fuel ->
    Emitter.fire behaviour fuel
      {| Emitter.registeredListeners := pre ++ Some a :: post |} v
    = Some ({| Emitter.registeredListeners := (pre ++ Some a :: post) ++ [Some b] |},
            map (fun x => (x, v)) (Emitter.elements (pre ++ Some a :: post)) ++ [(b, v)],
            Returned tt).
Proof.
  intros V behaviour pre post a b v fuel Hobs Ha Hb Hfresh Hfuel.
  unfold Emitter.fire. cbn [Emitter.registeredListeners].
  rewrite length_app in Hfuel. simpl in Hfuel.
  replace fuel with (length pre + S (length (post ++ [Some b]) + S (fuel - length pre - length post - 3)))
    by (rewrite length_app; simpl; lia).
  assert (Hpre : forall x, In x (Emitter.elements pre) -> behaviour x v = []).
  { intros x Hx. apply Hobs. rewrite elements_app. apply in_or_app; left; exact Hx. }
  pose proof (@forEach_observers_prefix V behaviour v pre [] (Some a :: post) []
                (S (length (post ++ [Some b]) + S (fuel - length pre - length post - 3)))
                Hpre) as P.
  simpl app in P. simpl length in P. rewrite P. clear P.
  cbn [Emitter.forEach]. rewrite nth_error_app2 by lia.
  rewrite Nat.sub_diag. cbn [nth_error]. rewrite Ha. cbn [Emitter.run_body].
  assert (Hadd : Emitter.add (pre ++ Some a :: post) b
                 = (pre ++ [Some a]) ++ post ++ [Some b]).
  { unfold Emitter.add. destruct (Emitter.has (pre ++ Some a :: post) b) eqn:E.
    - apply has_In in E. contradiction.
    - rewrite <- !app_assoc. reflexivity. }
  rewrite Hadd.
  replace (S (length pre)) with (length (pre ++ [Some a]))
    by (rewrite length_app; simpl; lia).
  rewrite forEach_observers_all.
  - rewrite !elements_app. cbn [Emitter.elements]. rewrite !map_app. cbn [map].
    rewrite <- !app_assoc. cbn [app]. reflexivity.
  - intros x Hx. rewrite elements_app in Hx. apply in_app_or in Hx.
    destruct Hx as [Hx|[<-|[]]]; [|exact Hb].
    apply Hobs. rewrite elements_app. apply in_or_app; right; exact Hx.
Qed.

Lemma emitter_fire_calls_added_listener_witness :
  Emitter.fire (fun l (_ : nat) => if Nat.eqb l 1 then [Emitter.Register 9] else [])
    5 {| Emitter.registeredListeners := [] ++ Some 1 :: [Some 2] |} 7
  = Some ({| Emitter.registeredListeners := ([] ++ Some 1 :: [Some 2]) ++ [Some 9] |},
          map (fun x => (x, 7)) (Emitter.elements ([] ++ Some 1 :: [Some 2])) ++ [(9, 7)],
          Returned tt).
Proof.
  refine (@emitter_fire_calls_added_listener nat
            (fun l _ => if Nat.eqb l 1 then [Emitter.Register 9] else [])
            [] [Some 2] 1 9 7 5 _ _ _ _ _).
  - simpl. intros x [<-|[]]. reflexivity.
  - reflexivity.
  - reflexivity.
  - simpl. intros [H|[H|[]]]; discriminate.
  - simpl. lia.
Defined.

(** ** handleResponse *)

Section HandleResponseFacts.

Import HandleResponse.

Variable D : Type.
Variable truthyD : D -> bool.
Variable parseInt : jsstring -> option Z.

Lemma fromResponse_prefix (get : jsstring -> option jsstring)
  (errorPrefix : jsstring) (serverError : option jsstring) :
  exists rest,
    RateLimitError.fromResponse parseInt get errorPrefix serverError
    = errorPrefix ++ str ": " ++ rest.
Proof.
  unfold RateLimitError.fromResponse.
  destruct (find _ RateLimitError.RATE_LIMIT_HEADERS) as [h|].
  - destruct (RateLimitError.reset h) as [r|]; [destruct (truthy r)|];
      eexists; rewrite <- ?app_assoc;
      change (str ": 0 of ") with (str ": " ++ str "0 of ");
      rewrite <- ?app_assoc; reflexivity.
  - eexists; reflexivity.
Qed.

End HandleResponseFacts.

(** X5 (when handleResponse returns).  [handleResponse] returns exactly
    when the status is none of 404, 403 and 502, the result has no
    [error] key and [result.data.data] is there and truthy, and then it
    returns that value; in every other case it throws. *)
Theorem handleResponse_returns_iff :
  forall (D : Type) (truthyD : D -> bool) (parseInt : jsstring -> option Z)
         (result : HandleResponse.Result D) (errorPrefix : jsstring) (d : D),
    HandleResponse.handleResponse truthyD parseInt result errorPrefix = Returned d
    <-> (HandleResponse.status (HandleResponse.response result) <> 404%Z
         /\ HandleResponse.status (HandleResponse.response result) <> 403%Z
         /\ HandleResponse.status (HandleResponse.response result) <> 502%Z
         /\ HandleResponse.error result = None
         /\ HandleResponse.data result = Some (Some d)
         /\ truthyD d = true).
Proof.
  intros D truthyD parseInt [dat err [st get]] errorPrefix d.
  unfold HandleResponse.handleResponse. simpl.
  destruct (Z.eqb_spec st 429) as [E429|N429].
  - destruct err as [[| |errs]|].
    + split; [discriminate | intros (_ & _ & _ & H & _); discriminate].
    + split; [discriminate | intros (_ & _ & _ & H & _); discriminate].
    + split; [discriminate | intros (_ & _ & _ & H & _); discriminate].
    + subst st. simpl.
      destruct dat as [[d0|]|]; try (split; [discriminate | intros (_ & _ & _ & _ & H & _); discriminate]).
      destruct (truthyD d0) eqn:T.
      * split.
        -- intros H; inversion H; subst. repeat split; try lia; assumption.
        -- intros (_ & _ & _ & _ & H & _). inversion H; reflexivity.
      * split; [discriminate|].
        intros (_ & _ & _ & _ & H & H'). inversion H; subst. congruence.
  - destruct (Z.eqb_spec st 404); [split; [discriminate | intros (H & _); contradiction]|].
    destruct (Z.eqb_spec st 403); [split; [discriminate | intros (_ & H & _); contradiction]|].
    destruct (Z.eqb_spec st 502); [split; [discriminate | intros (_ & _ & H & _); contradiction]|].
    destruct err as [[| |errs]|];
      try (split; [discriminate | intros (_ & _ & _ & H & _); discriminate]).
    destruct dat as [[d0|]|]; try (split; [discriminate | intros (_ & _ & _ & _ & H & _); discriminate]).
    destruct (truthyD d0) eqn:T.
    + split.
      * intros H; inversion H; subst. repeat split; assumption.
      * intros (_ & _ & _ & _ & H & _). inversion H; reflexivity.
    + split; [discriminate|].
      intros (_ & _ & _ & _ & H & H'). inversion H; subst. congruence.
Qed.

(** X6 (the errors of handleResponse).  What [handleResponse] throws
    is the engine's [TypeError] exactly when the result has an [error]
    key whose value has no [errors] array to read, and the status is
    429 or none of 404, 403 and 502.  Every other error has a message
    that starts with the error prefix followed by a colon and a space.
    The error is a rate-limit error exactly when the status is 429 and
    the value under [error] has an [errors] array.  For the statuses
    404, 403 and 502 the error is the fixed text of the status,
    whatever the result carries otherwise. *)
Theorem handleResponse_errors :
  forall (D : Type) (truthyD : D -> bool) (parseInt : jsstring -> option Z)
         (result : HandleResponse.Result D) (errorPrefix : jsstring)
         (t : HandleResponse.thrown),
    HandleResponse.handleResponse truthyD parseInt result errorPrefix = Threw t ->
    let st := HandleResponse.status (HandleResponse.response result) in
    (t = HandleResponse.TypeError
     <-> (st = 429%Z \/ (st <> 404%Z /\ st <> 403%Z /\ st <> 502%Z))
         /\ (HandleResponse.error result = Some HandleResponse.Nullish
             \/ HandleResponse.error result = Some HandleResponse.NoErrors))
    /\ (t <> HandleResponse.TypeError ->
        exists rest,
          HandleResponse.message_of t = Some (errorPrefix ++ str ": " ++ rest))
    /\ (HandleResponse.is_rate_limit t = true
        <-> st = 429%Z
            /\ exists errs, HandleResponse.error result
                            = Some (HandleResponse.Errors errs))
    /\ (st = 404%Z -> t = HandleResponse.PlainError (errorPrefix ++ str ": Sandbox not found"))
    /\ (st = 403%Z -> t = HandleResponse.PlainError (errorPrefix ++ str ": Unauthorized"))
    /\ (st = 502%Z -> t = HandleResponse.PlainError (errorPrefix ++ str ": Bad gateway")).
Proof.
  intros D truthyD parseInt [dat err [st get]] errorPrefix t.
  unfold HandleResponse.handleResponse. simpl.
  assert (Plain : forall m rest,
             m = errorPrefix ++ str ": " ++ rest ->
             (st <> 429%Z \/ err = None) ->
             ((st = 429%Z \/ (st <> 404%Z /\ st <> 403%Z /\ st <> 502%Z)) ->
              err <> Some HandleResponse.Nullish /\ err <> Some HandleResponse.NoErrors) ->
             @Threw D _ (HandleResponse.PlainError m) = Threw t ->
             (t = HandleResponse.TypeError
              <-> (st = 429%Z \/ (st <> 404%Z /\ st <> 403%Z /\ st <> 502%Z))
                  /\ (err = Some HandleResponse.Nullish
                      \/ err = Some HandleResponse.NoErrors))
             /\ (t <> HandleResponse.TypeError ->
                 exists rest0,
                   HandleResponse.message_of t = Some (errorPrefix ++ str ": " ++ rest0))
             /\ (HandleResponse.is_rate_limit t = true
                 <-> st = 429%Z /\ exists errs, err = Some (HandleResponse.Errors errs))).
  { intros m rest Hm Hst Hty H. inversion H; subst t. simpl. split; [|split].
    - split; [discriminate|]. intros [Hs [He|He]]; destruct (Hty Hs); contradiction.
    - intros _. exists rest. rewrite Hm. reflexivity.
    - split; [discriminate|]. intros [H1 (errs & H2)].
      destruct Hst as [Hst|Hst]; [contradiction | congruence]. }
  assert (Ty : (st = 429%Z \/ (st <> 404%Z /\ st <> 403%Z /\ st <> 502%Z)) ->
               (err = Some HandleResponse.Nullish \/ err = Some HandleResponse.NoErrors) ->
               @Threw D _ HandleResponse.TypeError = Threw t ->
               (t = HandleResponse.TypeError
                <-> (st = 429%Z \/ (st <> 404%Z /\ st <> 403%Z /\ st <> 502%Z))
                    /\ (err = Some HandleResponse.Nullish
                        \/ err = Some HandleResponse.NoErrors))
               /\ (t <> HandleResponse.TypeError ->
                   exists rest0,
                     HandleResponse.message_of t = Some (errorPrefix ++ str ": " ++ rest0))
               /\ (HandleResponse.is_rate_limit t = true
                   <-> st = 429%Z /\ exists errs, err = Some (HandleResponse.Errors errs))).
  { intros Hs He H. inversion H; subst t. split; [|split].
    - split; [intros _; split; assumption | reflexivity].
    - intros N; contradiction.
    - simpl. split; [discriminate|]. intros [_ (errs & E)].
      destruct He as [He|He]; congruence. }
  destruct (Z.eqb_spec st 429) as [E429|N429].
  - destruct err as [[| |errs]|].
    + intros H. destruct (Ty (or_introl E429) (or_introl eq_refl) H) as (T1 & T2 & T3).
      split; [exact T1 | split; [exact T2 | split; [exact T3|]]].
      repeat split; intros; lia.
    + intros H. destruct (Ty (or_introl E429) (or_intror eq_refl) H) as (T1 & T2 & T3).
      split; [exact T1 | split; [exact T2 | split; [exact T3|]]].
      repeat split; intros; lia.
    + intros H. inversion H; subst t. simpl.
      split; [split; [discriminate | intros [_ [X|X]]; discriminate]|].
      split; [intros _;
              destruct (fromResponse_prefix parseInt get errorPrefix
                          (HandleResponse.first_error errs)) as (rest & Hr);
              exists rest; rewrite Hr; reflexivity|].
      split; [split; [intros _; split; [exact E429 | exists errs; reflexivity]
                     | reflexivity]|].
      repeat split; intros; lia.
    + subst st. simpl.
      destruct dat as [[d0|]|]; [destruct (truthyD d0); [discriminate|]| |];
        intros H;
        (destruct (Plain _ (str "No data returned") eq_refl (or_intror eq_refl)
                     ltac:(intros _; split; discriminate) H) as (P1 & P2 & P3);
         split; [exact P1 | split; [exact P2 | split; [exact P3|]]];
         repeat split; intros; lia).
  - destruct (Z.eqb_spec st 404) as [E|N404].
    { intros H.
      destruct (Plain _ (str "Sandbox not found") eq_refl (or_introl N429)
                  ltac:(intros [X|(X & _)]; contradiction) H) as (P1 & P2 & P3).
      split; [exact P1 | split; [exact P2 | split; [exact P3|]]].
      inversion H. repeat split; intros; try lia; reflexivity. }
    destruct (Z.eqb_spec st 403) as [E|N403].
    { intros H.
      destruct (Plain _ (str "Unauthorized") eq_refl (or_introl N429)
                  ltac:(intros [X|(_ & X & _)]; contradiction) H) as (P1 & P2 & P3).
      split; [exact P1 | split; [exact P2 | split; [exact P3|]]].
      inversion H. repeat split; intros; try lia; reflexivity. }
    destruct (Z.eqb_spec st 502) as [E|N502].
    { intros H.
      destruct (Plain _ (str "Bad gateway") eq_refl (or_introl N429)
                  ltac:(intros [X|(_ & _ & X)]; contradiction) H) as (P1 & P2 & P3).
      split; [exact P1 | split; [exact P2 | split; [exact P3|]]].
      inversion H. repeat split; intros; try lia; reflexivity. }
    assert (Hs : st = 429%Z \/ (st <> 404%Z /\ st <> 403%Z /\ st <> 502%Z))
      by (right; repeat split; assumption).
    destruct err as [[| |errs]|].
    { intros H. destruct (Ty Hs (or_introl eq_refl) H) as (T1 & T2 & T3).
      split; [exact T1 | split; [exact T2 | split; [exact T3|]]].
      repeat split; intros; lia. }
    { intros H. destruct (Ty Hs (or_intror eq_refl) H) as (T1 & T2 & T3).
      split; [exact T1 | split; [exact T2 | split; [exact T3|]]].
      repeat split; intros; lia. }
    { intros H.
      destruct (Plain _ _ eq_refl (or_introl N429)
                  ltac:(intros _; split; discriminate) H) as (P1 & P2 & P3).
      split; [exact P1 | split; [exact P2 | split; [exact P3|]]].
      repeat split; intros; lia. }
    destruct dat as [[d0|]|]; [destruct (truthyD d0); [discriminate|]| |];
      intros H;
      (destruct (Plain _ (str "No data returned") eq_refl (or_introl N429)
                   ltac:(intros _; split; discriminate) H) as (P1 & P2 & P3);
       split; [exact P1 | split; [exact P2 | split; [exact P3|]]];
       repeat split; intros; lia).
Qed.

Lemma handleResponse_errors_witness :
  HandleResponse.TypeError = HandleResponse.TypeError
  <-> (500%Z = 429%Z \/ (500%Z <> 404%Z /\ 500%Z <> 403%Z /\ 500%Z <> 502%Z))
      /\ (Some HandleResponse.Nullish = Some HandleResponse.Nullish
          \/ Some HandleResponse.Nullish = Some HandleResponse.NoErrors).
Proof.
  exact (proj1 (@handleResponse_errors nat (fun n => negb (Nat.eqb n 0)) (fun _ => None)
           {| HandleResponse.data := None;
              HandleResponse.error := Some HandleResponse.Nullish;
              HandleResponse.response :=
                {| HandleResponse.status := 500; HandleResponse.get := fun _ => None |} |}
           (str "Failed to start sandbox abc")
           HandleResponse.TypeError
           eq_refl)).
Defined.

(** A result of status 404 that carries an error list: the fixed text
    of the status is reported, not the list. *)
Example handleResponse_not_found :
  HandleResponse.handleResponse (fun n : nat => negb (Nat.eqb n 0)) (fun _ => None)
    {| HandleResponse.data := None;
       HandleResponse.error := Some (HandleResponse.Errors [str "not found"]);
       HandleResponse.response :=
         {| HandleResponse.status := 404; HandleResponse.get := fun _ => None |} |}
    (str "Failed to start sandbox abc")
  = Threw (HandleResponse.PlainError (str "Failed to start sandbox abc: Sandbox not found")).
Proof. reflexivity. Qed.

Example handleResponse_rate_limited :
  HandleResponse.handleResponse (fun n : nat => negb (Nat.eqb n 0))
    (fun s => if JS.eqb s (str "0") then Some 0%Z
              else if JS.eqb s (str "20") then Some 20%Z else None)
    {| HandleResponse.data := None;
       HandleResponse.error := Some (HandleResponse.Errors [str "rate limited"]);
       HandleResponse.response :=
         {| HandleResponse.status := 429;
            HandleResponse.get :=
              fun h => if JS.eqb h (str "x-csb-vms-remaining") then Some (str "0")
                       else if JS.eqb h (str "x-csb-vms-used") then Some (str "20")
                       else None |} |}
    (str "Failed to start sandbox abc")
  = Threw (HandleResponse.RateLimit
             (str "Failed to start sandbox abc: 0 of 20 concurrently running vms remaining. Contact hello@codesandbox.io to raise your rate limit.")).
Proof. reflexivity. Qed.

(** ** ShellInstance in use *)

Section ShellHandleFacts.

Import ShellInstance.

Lemma handle_ok_step (s : t) (e : event) :
  ShellHandle.handle_ok s -> ShellHandle.handle_ok (step s e).
Proof.
  unfold ShellHandle.handle_ok. intros H.
  assert (Same : forall s', s' = s ->
                   isDisposed s' = true ->
                   onShellsUpdated s' = false /\ onShellOut s' = false)
    by (intros s' ->; exact H).
  destruct e as [shells|i out|]; simpl.
  - unfold handleShellsUpdated. destruct (onShellsUpdated s) eqn:E;
      [|apply Same; reflexivity].
    destruct (find _ shells); [|apply Same; reflexivity].
    simpl. intros D. destruct (Same s eq_refl D) as [H1 _]. congruence.
  - unfold handleShellOut.
    destruct (onShellOut s && JS.eqb i (shellId (shell s))) eqn:E;
      [|apply Same; reflexivity].
    simpl. intros D. destruct (Same s eq_refl D) as [_ H2].
    rewrite H2 in E. discriminate.
  - unfold dispose. destruct (isDisposed s) eqn:E; [apply Same; reflexivity|].
    simpl. intros _. split; reflexivity.
Qed.

Lemma handle_ok_run (es : list event) :
  forall s, ShellHandle.handle_ok s -> ShellHandle.handle_ok (run s es).
Proof.
  induction es as [|e es IH]; intros s H; [exact H|].
  apply (IH (step s e)). apply handle_ok_step; exact H.
Qed.

Lemma handle_ok_listened (sh : ShellDTO) (buf : option (list jsstring))
  (ls : list Emitter.listener) :
  ShellHandle.handle_ok (ShellHandle.listened sh buf ls)
  /\ isDisposed (ShellHandle.listened sh buf ls) = false
  /\ onShellOut (ShellHandle.listened sh buf ls) = true
  /\ shell (ShellHandle.listened sh buf ls) = sh
  /\ emittedOutput (ShellHandle.listened sh buf ls) = []
  /\ output (ShellHandle.listened sh buf ls) = match buf with Some b => b | None => [] end.
Proof.
  unfold ShellHandle.listened.
  assert (G : forall ls s,
             isDisposed (fold_left ShellHandle.onOutput ls s) = isDisposed s
             /\ onShellOut (fold_left ShellHandle.onOutput ls s) = onShellOut s
             /\ shell (fold_left ShellHandle.onOutput ls s) = shell s
             /\ emittedOutput (fold_left ShellHandle.onOutput ls s) = emittedOutput s
             /\ output (fold_left ShellHandle.onOutput ls s) = output s).
  { clear. induction ls as [|l ls IH]; intros s; [repeat split; reflexivity|].
    simpl. destruct (IH (ShellHandle.onOutput s l)) as (H1 & H2 & H3 & H4 & H5).
    rewrite H1, H2, H3, H4, H5. repeat split; reflexivity. }
  destruct (G ls (new sh buf)) as (H1 & H2 & H3 & H4 & H5).
  unfold ShellHandle.handle_ok. rewrite H1, H2, H3, H4, H5. simpl.
  repeat split; try reflexivity; discriminate.
Qed.

Lemma disposed_step (s : t) (e : event) :
  isDisposed s = true -> onShellsUpdated s = false -> onShellOut s = false ->
  step s e = s.
Proof.
  intros D H1 H2. destruct e as [shells|i out|]; simpl.
  - unfold handleShellsUpdated. rewrite H1. reflexivity.
  - unfold handleShellOut. rewrite H2. reflexivity.
  - unfold dispose. rewrite D. reflexivity.
Qed.

Lemma elements_listened (ls : list Emitter.listener) :
  forall em,
    NoDup (Emitter.elements (Emitter.registeredListeners em) ++ ls) ->
    Emitter.elements
      (Emitter.registeredListeners
         (fold_left (fun em l => fst (Emitter.event em l)) ls em))
    = Emitter.elements (Emitter.registeredListeners em) ++ ls.
Proof.
  induction ls as [|l ls IH]; intros em ND; [simpl; rewrite app_nil_r; reflexivity|].
  simpl fold_left. rewrite IH.
  - simpl. rewrite elements_add.
    destruct (Emitter.has (Emitter.registeredListeners em) l) eqn:E.
    + apply has_In in E. apply NoDup_remove_2 in ND.
      exfalso; apply ND. apply in_or_app; left; exact E.
    + rewrite <- app_assoc. reflexivity.
  - simpl. rewrite elements_add.
    destruct (Emitter.has (Emitter.registeredListeners em) l) eqn:E.
    + apply has_In in E. apply NoDup_remove_2 in ND.
      exfalso; apply ND. apply in_or_app; left; exact E.
    + rewrite <- app_assoc. exact ND.
Qed.

End ShellHandleFacts.

Lemma disposed_run (es : list ShellInstance.event) :
  forall s,
    ShellInstance.isDisposed s = true ->
    ShellInstance.onShellsUpdated s = false ->
    ShellInstance.onShellOut s = false ->
    ShellInstance.run s es = s.
Proof.
  induction es as [|e es IH]; intros s D H1 H2; [reflexivity|].
  change (ShellInstance.run s (e :: es))
    with (ShellInstance.run (ShellInstance.step s e) es).
  rewrite (@disposed_step s e D H1 H2). apply IH; assumption.
Qed.

Lemma shell_handle_invariant (id : Id) (es : list ShellInstance.event) :
  forall s,
    ShellHandle.handle_ok s ->
    shellId (ShellInstance.shell s) = id ->
    ShellInstance.calls s
    = (if ShellInstance.isDisposed s then [CallClose id] else []) ->
    ShellHandle.handle_ok (ShellInstance.run s es)
    /\ shellId (ShellInstance.shell (ShellInstance.run s es)) = id
    /\ ShellInstance.calls (ShellInstance.run s es)
       = (if ShellInstance.isDisposed (ShellInstance.run s es)
          then [CallClose id] else []).
Proof.
  induction es as [|e es IH]; intros s Hok Hid Hcalls;
    [split; [exact Hok | split; assumption]|].
  change (ShellInstance.run s (e :: es))
    with (ShellInstance.run (ShellInstance.step s e) es).
  apply IH; [apply handle_ok_step; exact Hok | |].
  - destruct e as [shells|i out|]; simpl.
    + unfold ShellInstance.handleShellsUpdated.
      destruct (ShellInstance.onShellsUpdated s); [|exact Hid].
      destruct (find _ shells) as [u|] eqn:E; [|exact Hid].
      simpl. apply find_some in E. destruct E as [_ E].
      apply jseqb_eq in E. congruence.
    + unfold ShellInstance.handleShellOut.
      destruct (ShellInstance.onShellOut s && _); [simpl|]; exact Hid.
    + unfold ShellInstance.dispose.
      destruct (ShellInstance.isDisposed s); [simpl|]; exact Hid.
  - destruct e as [shells|i out|]; simpl.
    + unfold ShellInstance.handleShellsUpdated.
      destruct (ShellInstance.onShellsUpdated s); [|exact Hcalls].
      destruct (find _ shells); [simpl|]; exact Hcalls.
    + unfold ShellInstance.handleShellOut.
      destruct (ShellInstance.onShellOut s && _); [simpl|]; exact Hcalls.
    + unfold ShellInstance.dispose.
      destruct (ShellInstance.isDisposed s) eqn:E; [rewrite E; exact Hcalls|].
      simpl. rewrite Hcalls, Hid. reflexivity.
Qed.

(** X7 (a shell handle closes its shell once and is inert afterwards).
    Whatever happened to a shell handle before, its id is the id of the
    shell it was created with; once [dispose()] has been called, the
    requests it has sent are one close request for that id, however
    often [dispose()] is called; and from then on no notification and no
    further [dispose()] changes anything about the handle. *)
Theorem shell_handle_dispose_once :
  forall (sh : ShellDTO) (buf : option (list jsstring)) (ls : list Emitter.listener)
         (es0 es : list ShellInstance.event),
    let s := ShellInstance.run (ShellHandle.listened sh buf ls) es0 in
    let d := ShellInstance.dispose s in
    ShellHandle.id s = shellId sh
    /\ ShellInstance.calls d = [CallClose (shellId sh)]
    /\ ShellInstance.run d es = d.
Proof.
  intros sh buf ls es0 es s d.
  destruct (handle_ok_listened sh buf ls) as (Hok & Hd & _ & Hsh & _).
  destruct (@shell_handle_invariant (shellId sh) es0 (ShellHandle.listened sh buf ls))
    as (Hok' & Hid & Hcalls).
  { exact Hok. }
  { rewrite Hsh. reflexivity. }
  { rewrite Hd. unfold ShellHandle.listened.
    clear. induction ls as [|l ls IH] using rev_ind; [reflexivity|].
    rewrite fold_left_app. simpl. exact IH. }
  fold s in Hok', Hid, Hcalls.
  split; [exact Hid|].
  assert (Hdd : ShellInstance.isDisposed d = true
                /\ ShellInstance.onShellsUpdated d = false
                /\ ShellInstance.onShellOut d = false
                /\ ShellInstance.calls d = [CallClose (shellId sh)]).
  { unfold d, ShellInstance.dispose.
    destruct (ShellInstance.isDisposed s) eqn:E.
    - destruct (Hok' E) as [H1 H2]. rewrite Hcalls. repeat split; assumption.
    - simpl. rewrite Hcalls, Hid. repeat split; reflexivity. }
  destruct Hdd as (D1 & D2 & D3 & D4).
  split; [exact D4 | apply disposed_run; assumption].
Qed.



(** ** runCommandAsUser: the live output, the requests, the failure of create *)

Section CommandMore.

Import Command.

Lemma fold_dispose_item_emitted (items : list store_item) :
  forall s, emitted (fold_left dispose_item items s) = emitted s.
Proof.
  induction items as [|i items IH]; intros s; [reflexivity|].
  simpl. rewrite IH. destruct i; reflexivity.
Qed.

Lemma dispose_store_emitted (s : t) : emitted (dispose_store s) = emitted s.
Proof.
  unfold dispose_store. destruct (isDisposed (disposableStore s)); [reflexivity|].
  simpl. apply fold_dispose_item_emitted.
Qed.

Lemma created_step (s : t) (sh : OpenShellDTO) (e : event) :
  CommandUse.created s sh ->
  CommandUse.created (step s e) sh
  /\ (e <> KillCalled -> calls (step s e) = calls s)
  /\ (e = KillCalled -> calls (step s e) = calls s ++ [CallDelete (shellId (dto sh))]).
Proof.
  intros [Hsh Hat].
  assert (Hd : shell (dispose_store s) = Some sh /\ at_ (dispose_store s) = at_ s
               /\ calls (dispose_store s) = calls s).
  { destruct (dispose_store_promise s) as (_ & H2 & H3 & H4 & _).
    rewrite H2, H3, H4. auto. }
  destruct Hd as (D1 & D2 & D3).
  destruct e as [r|r|n| | |l|l]; simpl.
  - destruct Hat as [Ha | Ha]; rewrite Ha;
      (split; [split; [exact Hsh | auto]|]); split; intros; congruence.
  - destruct Hat as [Ha | Ha]; rewrite Ha;
      (split; [split; [exact Hsh | auto]|]); split; intros; congruence.
  - destruct (notify_promise s n) as [_ Ha].
    assert (G : shell (notify s n) = shell s /\ calls (notify s n) = calls s).
    { destruct n; simpl;
        match goal with |- context [if ?c then _ else _] => destruct c end;
        split; reflexivity. }
    destruct G as [G1 G2].
    split; [split; [rewrite G1; exact Hsh | rewrite Ha; exact Hat]|].
    split; intros; congruence.
  - unfold afterBarrier.
    destruct Hat as [Ha | Ha]; rewrite Ha.
    + destruct (Barrier.wait (barrier s)) as [[v|]|]; simpl;
        (split; [split; [try exact D1; try exact Hsh | try (right; reflexivity); try (left; exact Ha)]|]);
        split; intros; try congruence; try exact D3.
    + split; [split; [exact Hsh | right; exact Ha]|]. split; intros; congruence.
  - unfold kill. rewrite D1. simpl.
    split; [split; [exact D1 | simpl; rewrite D2; exact Hat]|].
    split; intros; [congruence | rewrite D3; reflexivity].
  - split; [split; assumption|]. split; intros; congruence.
  - split; [split; assumption|]. split; intros; congruence.
Qed.

Lemma created_run (sh : OpenShellDTO) (es : list event) :
  forall s, CommandUse.created s sh ->
            CommandUse.created (run s es) sh
            /\ (Forall (fun e => e <> KillCalled) es -> calls (run s es) = calls s).
Proof.
  induction es as [|e es IH]; intros s H; [split; [exact H | reflexivity]|].
  destruct (created_step e H) as (H1 & H2 & _).
  destruct (IH (step s e) H1) as [H3 H4].
  change (run s (e :: es)) with (run (step s e) es).
  split; [exact H3|]. intros F. inversion F; subst.
  rewrite H4 by assumption. apply H2; assumption.
Qed.

Lemma run_create_settled (ws cmd : jsstring) (opts : option Shells.ShellRunOpts)
  (sh : OpenShellDTO) :
  let s := step (Shells.run ws cmd opts) (CreateSettled (Returned sh)) in
  CommandUse.created s sh
  /\ calls s
     = calls (Shells.run ws cmd opts)
       ++ match shellName (params (Shells.run ws cmd opts)) with
          | Some n => if truthy n then [CallRename (shellId (dto sh)) n] else []
          | None => []
          end.
Proof.
  cbv zeta. unfold step. change (at_ (Shells.run ws cmd opts)) with AwaitCreate.
  cbv iota. unfold afterCreate, CommandUse.created.
  destruct (ShellStatus_eqb (status (dto sh)) FINISHED);
    destruct opts as [[p [n|]]|]; simpl; try destruct (truthy n);
    try destruct (truthy (join newline (buffer sh))); simpl;
    (split; [split; [reflexivity | auto] | reflexivity]).
Qed.

End CommandMore.

Lemma created_calls (sh : OpenShellDTO) (es : list Command.event) :
  forall s, CommandUse.created s sh ->
            Command.calls (Command.run s es)
            = Command.calls s
              ++ repeat (CallDelete (shellId (dto sh))) (CommandUse.kills es).
Proof.
  induction es as [|e es IH]; intros s H; [simpl; rewrite app_nil_r; reflexivity|].
  destruct (@created_step s sh e H) as (H1 & H2 & H3).
  change (Command.run s (e :: es)) with (Command.run (Command.step s e) es).
  rewrite IH by exact H1.
  destruct e; try (rewrite H2 by discriminate; reflexivity).
  rewrite H3 by reflexivity. simpl. rewrite <- app_assoc. reflexivity.
Qed.

Example run_requests_kill_twice :
  Command.calls
    (Command.run (Shells.run (str "/project") (str "sleep 9")
                    (Some {| Shells.ptySize := None; Shells.shellName := Some (str "job") |}))
       [Command.CreateSettled
          (Returned {| dto := {| shellId := str "shell-1"; name := str "sleep";
                                 status := RUNNING; exitCode := None |};
                       buffer := [] |});
        Command.Notification (ShellExited (str "shell-1") 0);
        Command.WaitResumes;
        Command.KillCalled;
        Command.KillCalled])
  = [CallCreate (str "/project") DEFAULT_SHELL_SIZE (str "env  sleep 9") (str "TERMINAL") true;
     CallRename (str "shell-1") (str "job");
     CallDelete (str "shell-1");
     CallDelete (str "shell-1")].
Proof. reflexivity. Qed.

Lemma listen_handlers (ls : list Emitter.listener) :
  forall s,
    Command.onShellOut (Command.run s (map Command.OnOutputCalled ls))
    = Command.onShellOut s
    /\ Command.onShellExited (Command.run s (map Command.OnOutputCalled ls))
       = Command.onShellExited s
    /\ Command.onShellTerminated (Command.run s (map Command.OnOutputCalled ls))
       = Command.onShellTerminated s
    /\ Command.emitted (Command.run s (map Command.OnOutputCalled ls))
       = Command.emitted s
    /\ Command.onOutput (Command.run s (map Command.OnOutputCalled ls))
       = fold_left (fun em l => fst (Emitter.event em l)) ls (Command.onOutput s).
Proof.
  induction ls as [|x ls IH]; intros s; [repeat split; reflexivity|].
  change (Command.run s (map Command.OnOutputCalled (x :: ls)))
    with (Command.run (Command.step s (Command.OnOutputCalled x))
            (map Command.OnOutputCalled ls)).
  destruct (IH (Command.step s (Command.OnOutputCalled x))) as (H1 & H2 & H3 & H4 & H5).
  rewrite H1, H2, H3, H4, H5. repeat split; reflexivity.
Qed.

Lemma over_without_session (es : list Command.event) :
  forall s,
    Command.at_ s = Command.Completed ->
    Command.shell s = None ->
    Command.onShellOut s = false /\ Command.onShellExited s = false
    /\ Command.onShellTerminated s = false ->
    Command.shell (Command.run s es) = None
    /\ (Command.onShellOut (Command.run s es) = false
        /\ Command.onShellExited (Command.run s es) = false
        /\ Command.onShellTerminated (Command.run s es) = false).
Proof.
  induction es as [|e es IH]; intros s Hat Hsh Hf; [split; assumption|].
  change (Command.run s (e :: es)) with (Command.run (Command.step s e) es).
  destruct (no_shell_step s e Hat Hsh) as (H1 & H2 & _).
  apply IH; [exact H1 | exact H2 | apply completed_flags_step; assumption].
Qed.

(** X10 (the create request fails).  When the promise of the create
    request of [shells.run] rejects with [e], the command promise is
    rejected with [e]; no handler is registered on the notification
    streams, no rename or delete request is sent, then or later, and the
    promise keeps that state. *)
Theorem run_create_fails :
  forall (ws cmd : jsstring) (opts : option Shells.ShellRunOpts)
         (ls : list Emitter.listener) (e : error) (es : list Command.event),
    let s := Command.run (Shells.run ws cmd opts)
               (map Command.OnOutputCalled ls
                ++ Command.CreateSettled (Threw e) :: es) in
    Command.resultPromise s = Command.PromiseRejected e
    /\ Command.calls s = Command.calls (Shells.run ws cmd opts)
    /\ Command.shell s = None
    /\ (Command.onShellOut s = false /\ Command.onShellExited s = false
        /\ Command.onShellTerminated s = false).
Proof.
  intros ws cmd opts ls e es s.
  assert (B : Command.before_session (Shells.run ws cmd opts)) by (repeat split; reflexivity).
  destruct (before_session_listen ls B) as ((L1 & L2 & L3) & L4 & L5).
  destruct (listen_handlers ls (Shells.run ws cmd opts)) as (F1 & F2 & F3 & _).
  unfold s. rewrite run_app.
  set (l := Command.run (Shells.run ws cmd opts) (map Command.OnOutputCalled ls)) in *.
  change (Command.run l (Command.CreateSettled (Threw e) :: es))
    with (Command.run (Command.step l (Command.CreateSettled (Threw e))) es).
  set (f := Command.step l (Command.CreateSettled (Threw e))).
  assert (Hf : Command.at_ f = Command.Completed /\ Command.shell f = None
               /\ Command.resultPromise f = Command.PromiseRejected e
               /\ Command.calls f = Command.calls l
               /\ Command.onShellOut f = Command.onShellOut l
               /\ Command.onShellExited f = Command.onShellExited l
               /\ Command.onShellTerminated f = Command.onShellTerminated l).
  { unfold f. simpl. rewrite L4. change (Command.at_ (Shells.run ws cmd opts))
      with Command.AwaitCreate. simpl. repeat split; try reflexivity. exact L1. }
  destruct Hf as (A1 & A2 & A3 & A4 & A5 & A6 & A7).
  destruct (completed_run es f A1) as [_ Hp].
  destruct (over_without_session es f A1 A2) as (O1 & O2).
  { rewrite A5, A6, A7, F1, F2, F3. repeat split; reflexivity. }
  rewrite Hp, A3, (no_shell_run es f A1 A2), A4, L5.
  repeat split; try reflexivity; try exact O1; apply O2.
Qed.

Lemma afterCreate_emitted (s : Command.t) (sh : OpenShellDTO) :
  status (dto sh) <> FINISHED ->
  Command.onOutput (Command.afterCreate s (Returned sh)) = Command.onOutput s
  /\ Command.emitted (Command.afterCreate s (Returned sh))
     = Command.emitted s
       ++ (if truthy (join newline (buffer sh))
           then Emitter.fire_observers (Command.onOutput s) (join newline (buffer sh))
           else []).
Proof.
  intros Hfin. unfold Command.afterCreate.
  assert (E : ShellStatus_eqb (status (dto sh)) FINISHED = false)
    by (destruct (status (dto sh)); try reflexivity; congruence).
  rewrite E. destruct s as [a st em osh co ba f1 f2 f3 cs emi ph pr]. simpl.
  destruct (Command.shellName a) as [n|]; [destruct (truthy n)|];
    destruct (truthy (join newline (buffer sh))); simpl;
    rewrite ?app_nil_r; split; reflexivity.
Qed.

Lemma notifications_emitted (id : Id) (ns : list notification) :
  forall s,
    Command.waiting s id ->
    Command.onOutput (Command.run s (map Command.Notification ns)) = Command.onOutput s
    /\ Command.emitted (Command.run s (map Command.Notification ns))
       = Command.emitted s
         ++ flat_map (Emitter.fire_observers (Command.onOutput s))
                     (Command.chunks_for id ns).
Proof.
  induction ns as [|n ns IH]; intros s W.
  - simpl. rewrite app_nil_r. split; reflexivity.
  - destruct (@notify_waiting s id n W) as (W1 & _).
    destruct (IH (Command.notify s n) W1) as (H1 & H2).
    change (Command.run s (map Command.Notification (n :: ns)))
      with (Command.run (Command.notify s n) (map Command.Notification ns)).
    rewrite H1, H2.
    destruct W as (_ & _ & (sh0 & Hsh & Hid) & F1 & _).
    destruct n as [i out|i code|i]; simpl; unfold Command.is_mine;
      rewrite ?Hsh, ?Hid, ?F1; simpl.
    + destruct (JS.eqb i id); simpl; [|split; reflexivity].
      rewrite <- app_assoc. split; reflexivity.
    + destruct (Command.onShellExited s && JS.eqb i id); split; reflexivity.
    + destruct (Command.onShellTerminated s && JS.eqb i id); split; reflexivity.
Qed.

(** With functions that only observe: each is passed the buffered lines
    as one value, then every chunk of the session, and the accumulator is
    the concatenation of these values. *)
Lemma live_output_observed :
  forall (ws cmd : jsstring) (opts : option Shells.ShellRunOpts)
         (ls : list Emitter.listener) (sh : OpenShellDTO) (ns : list notification)
         (v : option Z),
    NoDup ls ->
    status (dto sh) <> FINISHED ->
    let s := Command.run (Shells.run ws cmd opts)
               (map Command.OnOutputCalled ls
                ++ Command.CreateSettled (Returned sh) :: map Command.Notification ns) in
    let values := CommandUse.heard (shellId (dto sh)) (buffer sh) ns in
    Command.emitted s = CommandUse.delivered ls values
    /\ Command.combinedOut s = concat values
    /\ (Command.first_terminal (shellId (dto sh)) ns = Some v ->
        Command.resultPromise (Command.step s Command.WaitResumes)
        = Command.PromiseFulfilled
            {| Command.output := trim (concat values);
               Command.resultExitCode := v |}).
Proof.
  intros ws cmd opts ls sh ns v ND Hfin s values.
  assert (B : Command.before_session (Shells.run ws cmd opts)) by (repeat split; reflexivity).
  destruct (before_session_listen ls B) as ((L1 & L2 & L3) & L4 & L5).
  destruct (listen_handlers ls (Shells.run ws cmd opts)) as (_ & _ & _ & Le & Lo).
  unfold s. rewrite run_app.
  set (l := Command.run (Shells.run ws cmd opts) (map Command.OnOutputCalled ls)) in *.
  change (Command.run l (Command.CreateSettled (Returned sh) :: map Command.Notification ns))
    with (Command.run (Command.step l (Command.CreateSettled (Returned sh)))
            (map Command.Notification ns)).
  assert (Hstep : Command.step l (Command.CreateSettled (Returned sh))
                  = Command.afterCreate l (Returned sh)).
  { simpl. rewrite L4. reflexivity. }
  rewrite Hstep.
  assert (Hat : Command.at_ l = Command.AwaitCreate) by (rewrite L4; reflexivity).
  destruct (@afterCreate_waiting l sh Hat L2 L3 Hfin) as (W & Bp & Co).
  destruct (@afterCreate_emitted l sh Hfin) as (Eo & Ee).
  destruct (notifications_waiting ns W) as (W' & C' & B' & _).
  destruct (notifications_emitted ns W) as (No & Ne).
  assert (Hls : Emitter.elements (Emitter.registeredListeners (Command.onOutput l)) = ls).
  { rewrite Lo. rewrite elements_listened; [reflexivity | exact ND]. }
  assert (Hem : Command.emitted
                  (Command.run (Command.afterCreate l (Returned sh))
                     (map Command.Notification ns))
                = CommandUse.delivered ls values).
  { rewrite Ne, Ee, Eo, Le. unfold values, CommandUse.heard, CommandUse.delivered.
    rewrite flat_map_app. simpl. f_equal.
    - destruct (truthy (join newline (buffer sh))); simpl;
        [unfold Emitter.fire_observers; rewrite Hls, app_nil_r|]; reflexivity.
    - apply flat_map_ext. intros c. unfold Emitter.fire_observers. rewrite Hls.
      reflexivity. }
  assert (Hco : Command.combinedOut
                  (Command.run (Command.afterCreate l (Returned sh))
                     (map Command.Notification ns))
                = concat values).
  { rewrite C', Co. unfold values, CommandUse.heard. rewrite concat_app.
    f_equal. destruct (join newline (buffer sh)); simpl;
      [reflexivity | rewrite app_nil_r; reflexivity]. }
  split; [exact Hem | split; [exact Hco|]].
  intros Ht. specialize (B' Bp). rewrite Ht in B'.
  change (Command.step ?x Command.WaitResumes) with (Command.afterBarrier x).
  destruct (@afterBarrier_waiting _ (shellId (dto sh)) v W' B') as (P & _).
  rewrite P, Hco. reflexivity.
Qed.


Lemma quiet_run (es : list Command.event) :
  forall s,
    Command.at_ s = Command.Completed ->
    Command.onShellOut s = false /\ Command.onShellExited s = false
    /\ Command.onShellTerminated s = false ->
    Command.emitted (Command.run s es) = Command.emitted s.
Proof.
  induction es as [|e es IH]; intros s Hat Hf; [reflexivity|].
  change (Command.run s (e :: es)) with (Command.run (Command.step s e) es).
  destruct (completed_step s e Hat) as [Hat' _].
  rewrite IH; [|exact Hat' | apply completed_flags_step; assumption].
  destruct Hf as (F1 & F2 & F3).
  destruct e as [r|r|n| | |l|l]; simpl.
  - rewrite Hat; reflexivity.
  - rewrite Hat; reflexivity.
  - destruct n; simpl; rewrite ?F1, ?F2, ?F3; reflexivity.
  - unfold Command.afterBarrier. rewrite Hat. reflexivity.
  - unfold Command.kill.
    destruct (Command.shell (Command.dispose_store s)); simpl;
      apply dispose_store_emitted.
  - reflexivity.
  - reflexivity.
Qed.

(** X12 (nothing is emitted for a session finished at creation).  When
    the session of [shells.run] is reported FINISHED at creation,
    nothing is ever passed to the functions registered on [onOutput],
    whatever they are and whatever happens later, although the result
    carries the buffered output. *)
Theorem run_finished_emits_nothing :
  forall (ws cmd : jsstring) (opts : option Shells.ShellRunOpts)
         (ls : list Emitter.listener) (sh : OpenShellDTO) (es : list Command.event),
    status (dto sh) = FINISHED ->
    let s := Command.run (Shells.run ws cmd opts)
               (map Command.OnOutputCalled ls
                ++ Command.CreateSettled (Returned sh) :: es) in
    Command.emitted s = []
    /\ Command.resultPromise s
       = Command.PromiseFulfilled
           {| Command.output := trim (join newline (buffer sh));
              Command.resultExitCode := exitCode (dto sh) |}.
Proof.
  intros ws cmd opts ls sh es Hfin s.
  assert (B : Command.before_session (Shells.run ws cmd opts)) by (repeat split; reflexivity).
  destruct (before_session_listen ls B) as ((L1 & L2 & L3) & L4 & L5).
  destruct (listen_handlers ls (Shells.run ws cmd opts)) as (F1 & F2 & F3 & Le & _).
  unfold s. rewrite run_app.
  set (l := Command.run (Shells.run ws cmd opts) (map Command.OnOutputCalled ls)) in *.
  change (Command.run l (Command.CreateSettled (Returned sh) :: es))
    with (Command.run (Command.step l (Command.CreateSettled (Returned sh))) es).
  set (f := Command.step l (Command.CreateSettled (Returned sh))).
  assert (Hf : Command.at_ f = Command.Completed
               /\ Command.emitted f = Command.emitted l
               /\ Command.resultPromise f
                  = Command.PromiseFulfilled
                      {| Command.output := trim (join newline (buffer sh));
                         Command.resultExitCode := exitCode (dto sh) |}
               /\ Command.onShellOut f = Command.onShellOut l
               /\ Command.onShellExited f = Command.onShellExited l
               /\ Command.onShellTerminated f = Command.onShellTerminated l).
  { unfold f. simpl. rewrite L4. change (Command.at_ (Shells.run ws cmd opts))
      with Command.AwaitCreate. cbv iota. unfold Command.afterCreate. rewrite Hfin.
    simpl. destruct (Command.shellName (Command.params l)) as [n|];
      [destruct (truthy n)|]; simpl; repeat split; reflexivity. }
  destruct Hf as (A1 & A2 & A3 & A5 & A6 & A7).
  destruct (completed_run es f A1) as [_ Hp].
  rewrite quiet_run; [|exact A1|].
  - rewrite A2, Le, Hp, A3. split; reflexivity.
  - rewrite A5, A6, A7, F1, F2, F3. repeat split; reflexivity.
Qed.

Lemma run_finished_emits_nothing_witness :
  Command.emitted
    (Command.run (Shells.run (str "/project") (str "true") None)
       (map Command.OnOutputCalled [7]
        ++ Command.CreateSettled
             (Returned {| dto := {| shellId := str "shell-1"; name := str "true";
                                    status := FINISHED; exitCode := Some 0%Z |};
                          buffer := [str "done"] |})
        :: [Command.Notification (ShellOut (str "shell-1") (str "late"))]))
  = [].
Proof.
  exact (proj1 (@run_finished_emits_nothing (str "/project") (str "true") None [7]
           {| dto := {| shellId := str "shell-1"; name := str "true";
                        status := FINISHED; exitCode := Some 0%Z |};
              buffer := [str "done"] |}
           [Command.Notification (ShellOut (str "shell-1") (str "late"))]
           eq_refl)).
Defined.

(* --------------------------------------------------------------------- *)
(** ** Ports over a sequence of batches *)
(* --------------------------------------------------------------------- *)

Lemma onPortsUpdated_counts (s : Ports.t) (ports : list Ports.Port) (n : Z) :
  NoDup (Ports.lastOpenedPorts s) ->
  NoDup (map Ports.port ports) ->
  let s' := Ports.onPortsUpdated s ports in
  Ports.opens_for n (Ports.events s')
  = Ports.opens_for n (Ports.events s)
    + (if Ports.in_batch ports n && negb (Ports.has (Ports.lastOpenedPorts s) n)
       then 1 else 0)
  /\ Ports.closes_for n (Ports.events s')
     = Ports.closes_for n (Ports.events s)
       + (if Ports.has (Ports.lastOpenedPorts s) n && negb (Ports.in_batch ports n)
          then 1 else 0)
  /\ Ports.has (Ports.lastOpenedPorts s') n = Ports.in_batch ports n.
Proof.
  intros NDs ND s'. unfold s', Ports.onPortsUpdated. cbn [Ports.events Ports.lastOpenedPorts].
  rewrite !guarded_map.
  rewrite !opens_for_app, !closes_for_app.
  destruct (opens_for_opened n (Ports.openedPorts s ports)) as [E1 E2].
  destruct (closes_for_closed n (Ports.closedPorts s ports)) as [E3 E4].
  rewrite E1, E2, E3, E4, Nat.add_0_r. cbn [Nat.add].
  split; [|split].
  - f_equal. unfold Ports.openedPorts. rewrite map_map. cbn [Ports.infoPort].
    rewrite <- (map_map Ports.port (fun m => m)), map_id.
    rewrite (map_filter_comm Ports.port
               (fun m => negb (Ports.has (Ports.lastOpenedPorts s) m))).
    rewrite count_in_set by exact ND. rewrite existsb_port. reflexivity.
  - f_equal. unfold Ports.closedPorts.
    rewrite count_in_set by exact NDs. rewrite existsb_has. reflexivity.
  - rewrite set_of_NoDup by exact ND. rewrite <- existsb_has. apply existsb_port.
Qed.

Lemma ports_balance_from (n : Z) (batches : list (list Ports.Port)) :
  forall s,
    NoDup (Ports.lastOpenedPorts s) ->
    Forall (fun b => NoDup (map Ports.port b)) batches ->
    Ports.opens_for n (Ports.events (Ports.run s batches))
    + Ports.closes_for n (Ports.events s)
    + Nat.b2n (Ports.has (Ports.lastOpenedPorts s) n)
    = Ports.closes_for n (Ports.events (Ports.run s batches))
      + Ports.opens_for n (Ports.events s)
      + Nat.b2n (Ports.has (Ports.lastOpenedPorts (Ports.run s batches)) n).
Proof.
  induction batches as [|b bs IH]; intros s NDs F; [simpl; lia|].
  inversion F as [|? ? Hb Hbs]; subst.
  change (Ports.run s (b :: bs)) with (Ports.run (Ports.onPortsUpdated s b) bs).
  destruct (@onPortsUpdated_counts s b n NDs Hb) as (O & C & H).
  assert (ND' : NoDup (Ports.lastOpenedPorts (Ports.onPortsUpdated s b)))
    by (simpl; apply set_of_spec).
  specialize (IH _ ND' Hbs). rewrite O, C, H in IH.
  destruct (Ports.in_batch b n), (Ports.has (Ports.lastOpenedPorts s) n);
    simpl in IH |- *; lia.
Qed.

Lemma last_cons_default (A : Type) (bs : list A) :
  forall b d, last (b :: bs) d = last bs b.
Proof.
  induction bs as [|c bs IH]; intros b d; [reflexivity|].
  change (last (b :: c :: bs) d) with (last (c :: bs) d).
  rewrite (IH c d), (IH c b). reflexivity.
Qed.

Lemma ports_snapshot_last (n : Z) (batches : list (list Ports.Port)) :
  forall s (initial : list Ports.Port),
    Forall (fun b => NoDup (map Ports.port b)) batches ->
    Ports.has (Ports.lastOpenedPorts s) n = Ports.in_batch initial n ->
    Ports.has (Ports.lastOpenedPorts (Ports.run s batches)) n
    = Ports.in_batch (last batches initial) n.
Proof.
  induction batches as [|b bs IH]; intros s initial F H; [exact H|].
  inversion F as [|? ? Hb Hbs]; subst.
  change (Ports.run s (b :: bs)) with (Ports.run (Ports.onPortsUpdated s b) bs).
  rewrite (IH (Ports.onPortsUpdated s b) b Hbs).
  - rewrite last_cons_default. reflexivity.
  - simpl. rewrite set_of_NoDup by exact Hb. rewrite <- existsb_has. apply existsb_port.
Qed.

Lemma ports_new_has (initial : list Ports.Port) (n : Z) :
  Ports.has (Ports.lastOpenedPorts (Ports.new initial)) n = Ports.in_batch initial n.
Proof.
  simpl. destruct (@fold_add_spec _ Ports.port initial [] (NoDup_nil _)) as [_ H].
  apply eq_true_iff_eq. rewrite has_In_ports, H.
  unfold Ports.in_batch. rewrite existsb_exists. split.
  - intros [[]|Hin]. apply in_map_iff in Hin. destruct Hin as (p & <- & Hp).
    exists p. split; [exact Hp | apply Z.eqb_refl].
  - intros (p & Hp & E). apply Z.eqb_eq in E. subst n. right.
    apply in_map. exact Hp.
Qed.

(** X13 (open and close events stay in balance with the batches).  For
    a ports component created over any initial list and fed any
    sequence of batches that each list a port number at most once, and
    for every port number: the number of open events fired for it so
    far, plus one if the initial list held it, equals the number of
    close events fired for it, plus one if the latest batch lists it
    (the initial list, when no batch has arrived).  So a caller that
    starts from the initial list and follows the two events always
    knows exactly the ports of the latest batch. *)
Theorem ports_events_balance :
  forall (initial : list Ports.Port) (batches : list (list Ports.Port)) (n : Z),
    Forall (fun b => NoDup (map Ports.port b)) batches ->
    let s := Ports.run (Ports.new initial) batches in
    Ports.opens_for n (Ports.events s) + Nat.b2n (Ports.in_batch initial n)
    = Ports.closes_for n (Ports.events s)
      + Nat.b2n (Ports.in_batch (last batches initial) n).
Proof.
  intros initial batches n F s.
  assert (ND : NoDup (Ports.lastOpenedPorts (Ports.new initial))).
  { simpl. apply (@fold_add_spec _ Ports.port initial [] (NoDup_nil _)). }
  pose proof (@ports_balance_from n batches (Ports.new initial) ND F) as B.
  rewrite (@ports_snapshot_last n batches (Ports.new initial) initial F
             (ports_new_has initial n)) in B.
  rewrite ports_new_has in B.
  change (Ports.events (Ports.new initial)) with (@nil Ports.fired) in B.
  change (Ports.closes_for n []) with 0 in B.
  change (Ports.opens_for n []) with 0 in B.
  unfold s. lia.
Qed.

Lemma ports_events_balance_witness :
  let mk n := {| Ports.port := n; Ports.url := of_int n ++ str ".csb.app" |} in
  let s := Ports.run (Ports.new [mk 3000%Z])
             [[mk 3000%Z; mk 8080%Z]; [mk 8080%Z]; [mk 3000%Z]] in
  Ports.opens_for 3000 (Ports.events s) + 1 = Ports.closes_for 3000 (Ports.events s) + 1.
Proof.
  refine (@ports_events_balance
            [ {| Ports.port := 3000; Ports.url := of_int 3000 ++ str ".csb.app" |} ]
            [ [ {| Ports.port := 3000; Ports.url := of_int 3000 ++ str ".csb.app" |};
                {| Ports.port := 8080; Ports.url := of_int 8080 ++ str ".csb.app" |} ];
              [ {| Ports.port := 8080; Ports.url := of_int 8080 ++ str ".csb.app" |} ];
              [ {| Ports.port := 3000; Ports.url := of_int 3000 ++ str ".csb.app" |} ] ]
            3000%Z _).
  repeat constructor; simpl; intuition discriminate.
Defined.

(* --------------------------------------------------------------------- *)
(** ** A shell handle and the updates of its shell *)
(* --------------------------------------------------------------------- *)

Lemma updated_live (id : Id) (ls : list Emitter.listener)
  (es : list ShellInstance.event) :
  forall s,
    ShellHandle.handle_ok s ->
    shellId (ShellInstance.shell s) = id ->
    ShellInstance.onShellsUpdated s = true ->
    ShellInstance.isDisposed s = false ->
    Emitter.elements (Emitter.registeredListeners (ShellInstance.onShellUpdatedEmitter s))
    = ls ->
    ShellInstance.shell (ShellInstance.run s es)
    = last (ShellHandle.updates_for id es) (ShellInstance.shell s)
    /\ ShellInstance.emittedUpdated (ShellInstance.run s es)
       = ShellInstance.emittedUpdated s
         ++ flat_map (fun _ => map (fun l => (l, tt)) ls)
                     (ShellHandle.updates_for id es).
Proof.
  induction es as [|e es IH]; intros s Hok Hid Hon Hdis Hls.
  - simpl. rewrite app_nil_r. split; reflexivity.
  - change (ShellInstance.run s (e :: es))
      with (ShellInstance.run (ShellInstance.step s e) es).
    destruct e as [shells|i out|];
      cbn [ShellInstance.step ShellHandle.updates_for].
    + unfold ShellInstance.handleShellsUpdated. rewrite Hon, Hid.
      destruct (find (fun x => JS.eqb (shellId x) id) shells) as [u|] eqn:E.
      * apply find_some in E. destruct E as [_ E]. apply jseqb_eq in E.
        match goal with
        | |- ShellInstance.shell (ShellInstance.run ?s' es) = _ /\ _ =>
          assert (Hok' : ShellHandle.handle_ok s')
            by (unfold ShellHandle.handle_ok; simpl; intros D; congruence);
          assert (Hon' : ShellInstance.onShellsUpdated s' = true) by reflexivity;
          destruct (IH s' Hok' E Hon' Hdis Hls) as [I1 I2]
        end.
        rewrite I1, I2. cbn [ShellInstance.shell ShellInstance.emittedUpdated flat_map].
        rewrite last_cons_default. unfold Emitter.fire_observers.
        rewrite Hls, <- app_assoc. split; reflexivity.
      * apply IH; assumption.
    + unfold ShellInstance.handleShellOut.
      destruct (ShellInstance.onShellOut s && JS.eqb i (shellId (ShellInstance.shell s)))
        eqn:Eo; [|apply IH; assumption].
      match goal with
      | |- ShellInstance.shell (ShellInstance.run ?s' es) = _ /\ _ =>
        assert (Hok' : ShellHandle.handle_ok s')
          by (unfold ShellHandle.handle_ok; simpl; intros D; congruence);
        destruct (IH s' Hok' Hid Hon Hdis Hls) as [I1 I2]
      end.
      rewrite I1, I2. split; reflexivity.
    + simpl. rewrite app_nil_r.
      assert (Hd : ShellInstance.isDisposed (ShellInstance.dispose s) = true
                   /\ ShellInstance.onShellsUpdated (ShellInstance.dispose s) = false
                   /\ ShellInstance.onShellOut (ShellInstance.dispose s) = false
                   /\ ShellInstance.shell (ShellInstance.dispose s) = ShellInstance.shell s
                   /\ ShellInstance.emittedUpdated (ShellInstance.dispose s)
                      = ShellInstance.emittedUpdated s).
      { unfold ShellInstance.dispose. rewrite Hdis. simpl. repeat split; reflexivity. }
      destruct Hd as (D1 & D2 & D3 & D4 & D5).
      rewrite disposed_run by assumption. split; assumption.
Qed.

Lemma watched_start (sh : ShellDTO) (buf : option (list jsstring))
  (ls : list Emitter.listener) :
  let s := ShellHandle.watched sh buf ls in
  ShellInstance.isDisposed s = false
  /\ ShellInstance.onShellsUpdated s = true
  /\ ShellInstance.shell s = sh
  /\ ShellInstance.emittedUpdated s = []
  /\ ShellInstance.onShellUpdatedEmitter s
     = fold_left (fun em l => fst (Emitter.event em l)) ls Emitter.new.
Proof.
  unfold ShellHandle.watched.
  assert (G : forall ls s,
             ShellInstance.isDisposed (fold_left ShellHandle.onShellUpdated ls s)
             = ShellInstance.isDisposed s
             /\ ShellInstance.onShellsUpdated (fold_left ShellHandle.onShellUpdated ls s)
                = ShellInstance.onShellsUpdated s
             /\ ShellInstance.shell (fold_left ShellHandle.onShellUpdated ls s)
                = ShellInstance.shell s
             /\ ShellInstance.emittedUpdated (fold_left ShellHandle.onShellUpdated ls s)
                = ShellInstance.emittedUpdated s
             /\ ShellInstance.onShellUpdatedEmitter (fold_left ShellHandle.onShellUpdated ls s)
                = fold_left (fun em l => fst (Emitter.event em l)) ls
                    (ShellInstance.onShellUpdatedEmitter s)).
  { clear. induction ls as [|l ls IH]; intros s; [repeat split; reflexivity|].
    simpl fold_left. destruct (IH (ShellHandle.onShellUpdated s l))
      as (H1 & H2 & H3 & H4 & H5).
    rewrite H1, H2, H3, H4, H5. repeat split; reflexivity. }
  destruct (G ls (ShellInstance.new sh buf)) as (H1 & H2 & H3 & H4 & H5).
  cbv zeta. rewrite H1, H2, H3, H4, H5. repeat split; reflexivity.
Qed.

(** With functions that only observe: the record of a handle is the
    entry of the latest update that listed its shell, and each function
    is called once for every such update. *)
Lemma follows_updates_observed :
  forall (sh : ShellDTO) (buf : option (list jsstring)) (ls : list Emitter.listener)
         (es : list ShellInstance.event),
    NoDup ls ->
    let s := ShellInstance.run (ShellHandle.watched sh buf ls) es in
    let latest := last (ShellHandle.updates_for (shellId sh) es) sh in
    (ShellHandle.name s = name latest
     /\ ShellHandle.status s = status latest
     /\ ShellHandle.exitCode s = exitCode latest
     /\ ShellHandle.id s = shellId sh)
    /\ ShellInstance.emittedUpdated s
       = flat_map (fun _ => map (fun l => (l, tt)) ls)
                  (ShellHandle.updates_for (shellId sh) es).
Proof.
  intros sh buf ls es ND s latest.
  destruct (watched_start sh buf ls) as (Hd & Hon & Hsh & Hem & Hl).
  destruct (@updated_live (shellId sh) ls es (ShellHandle.watched sh buf ls))
    as [I1 I2]; try assumption.
  - unfold ShellHandle.handle_ok. rewrite Hd. discriminate.
  - rewrite Hsh. reflexivity.
  - rewrite Hl. rewrite elements_listened; [reflexivity | exact ND].
  - fold s in I1, I2. rewrite Hsh in I1. fold latest in I1.
    rewrite Hem in I2. split; [|exact I2].
    unfold ShellHandle.name, ShellHandle.status, ShellHandle.exitCode, ShellHandle.id.
    rewrite I1. repeat split; try reflexivity.
    unfold latest. clear.
    assert (G : forall evs d, shellId d = shellId sh ->
                  shellId (last (ShellHandle.updates_for (shellId sh) evs) d)
                  = shellId sh).
    { induction evs as [|e evs IH]; intros d Hd0; [exact Hd0|].
      destruct e as [shells|i out|]; cbn [ShellHandle.updates_for].
      - destruct (find _ shells) as [u|] eqn:E; [|apply IH; exact Hd0].
        rewrite last_cons_default. apply IH.
        apply find_some in E. destruct E as [_ E]. apply jseqb_eq in E. exact E.
      - apply IH; exact Hd0.
      - exact Hd0. }
    apply G. reflexivity.
Qed.


(* --------------------------------------------------------------------- *)
(** ** The requests of [interpreter.run] *)
(* --------------------------------------------------------------------- *)

Lemma afterCreate_created (s : Command.t) (sh : OpenShellDTO) :
  CommandUse.created (Command.afterCreate s (Returned sh)) sh
  /\ Command.calls (Command.afterCreate s (Returned sh))
     = Command.calls s
       ++ match Command.shellName (Command.params s) with
          | Some n => if truthy n then [CallRename (shellId (dto sh)) n] else []
          | None => []
          end.
Proof.
  unfold Command.afterCreate, CommandUse.created.
  destruct s as [a st em osh co ba f1 f2 f3 cs emi ph pr]. simpl.
  destruct (ShellStatus_eqb (status (dto sh)) FINISHED);
    destruct (Command.shellName a) as [n|]; simpl; try destruct (truthy n);
    try destruct (truthy (join newline (buffer sh))); simpl;
    rewrite ?app_nil_r; (split; [split; [reflexivity | auto] | reflexivity]).
Qed.


(* --------------------------------------------------------------------- *)
(** ** The getters of [Ports] *)
(* --------------------------------------------------------------------- *)

Lemma find_map_pred (A B : Type) (f : A -> B) (p : B -> bool) (l : list A) :
  find p (map f l) = option_map f (find (fun x => p (f x)) l).
Proof.
  induction l as [|a l IH]; [reflexivity|].
  simpl. destruct (p (f a)); [reflexivity | exact IH].
Qed.

(** X16 (the preview URL of a port and its port info).  For any list
    of ports the collaborator reports: [getOpenedPort(port)] is
    undefined exactly when the list does not hold the port number;
    [getPreviewUrl(port, protocol)] is the preview URL of the port info
    that [getOpenedPort(port)] returns when that has a non-empty host
    name, and undefined otherwise, so also for a listed port whose url
    is empty, for which the port info itself still gives a URL, the
    bare protocol. *)
Theorem ports_getPreviewUrl_of_opened_port :
  forall (ports : list Ports.Port) (n : Z) (protocol : option jsstring),
    (PortsGetters.getOpenedPort ports n = None <-> Ports.in_batch ports n = false)
    /\ PortsGetters.getPreviewUrl ports n protocol
       = match PortsGetters.getOpenedPort ports n with
         | Some info =>
           if truthy (Ports.hostname info)
           then Some (PortsGetters.PortInfo_getPreviewUrl info protocol)
           else None
         | None => None
         end
    /\ (forall info,
          PortsGetters.getOpenedPort ports n = Some info ->
          Ports.infoPort info = n
          /\ In {| Ports.port := n; Ports.url := Ports.hostname info |} ports).
Proof.
  intros ports n protocol.
  unfold PortsGetters.getOpenedPort, PortsGetters.getOpenedPorts,
    PortsGetters.getPreviewUrl, PortsGetters.PortInfo_getPreviewUrl.
  rewrite find_map_pred. cbn [Ports.infoPort].
  split; [|split].
  - unfold Ports.in_batch. split.
    + intros H. destruct (find _ ports) as [p|] eqn:E; [discriminate|].
      destruct (existsb _ ports) eqn:X; [|reflexivity].
      apply existsb_exists in X. destruct X as (q & Hq & Eq).
      rewrite (find_none _ _ E q Hq) in Eq. discriminate.
    + intros H. destruct (find _ ports) as [p|] eqn:E; [|reflexivity].
      apply find_some in E. destruct E as [Hp Ep].
      assert (X : existsb (fun p0 => Z.eqb (Ports.port p0) n) ports = true)
        by (apply existsb_exists; exists p; split; assumption).
      rewrite X in H. discriminate.
  - destruct (find _ ports) as [p|]; reflexivity.
  - intros info H. destruct (find _ ports) as [p|] eqn:E; [|discriminate].
    apply find_some in E. destruct E as [Hp Ep]. apply Z.eqb_eq in Ep.
    inversion H; subst info. cbn [Ports.infoPort Ports.hostname].
    split; [exact Ep|]. rewrite <- Ep. destruct p; exact Hp.
Qed.

(* --------------------------------------------------------------------- *)
(** ** VMTier.fromSpecs *)
(* --------------------------------------------------------------------- *)

Lemma find_first (A : Type) (p : A -> bool) (l : list A) (x : A) :
  find p l = Some x ->
  exists l1 l2, l = l1 ++ x :: l2 /\ p x = true
                /\ forall y, In y l1 -> p y = false.
Proof.
  induction l as [|a l IH]; [discriminate|].
  simpl. destruct (p a) eqn:E.
  - intros H. inversion H; subst a. exists [], l.
    split; [reflexivity | split; [exact E | intros y []]].
  - intros H. destruct (IH H) as (l1 & l2 & -> & Hx & Hl1).
    exists (a :: l1), l2. split; [reflexivity | split; [exact Hx|]].
    intros y [<-|Hy]; [exact E | apply Hl1; exact Hy].
Qed.

Lemma tiers_ascending (l1 l2 : list VMTier.t) (x : VMTier.t) :
  VMTier.values = l1 ++ x :: l2 ->
  forall u, In u (x :: l2) -> VMTier.at_most x u.
Proof.
  assert (L : forall a b : Z, (a <= b)%Z ->
                QArith_base.Qle (QArith_base.inject_Z a) (QArith_base.inject_Z b)).
  { intros a b H. unfold QArith_base.Qle. simpl. lia. }
  assert (S : forall l x0 l0,
             [VMTier.Pico; VMTier.Nano; VMTier.Micro; VMTier.Small;
              VMTier.Medium; VMTier.Large; VMTier.XLarge] = l ++ x0 :: l0 ->
             forall u, In u (x0 :: l0) -> VMTier.at_most x0 u).
  { intros l x0 l0 E u Hu.
    do 7 (destruct l as [|? l];
          [inversion E; subst; simpl in Hu;
           repeat (destruct Hu as [<-|Hu];
                   [unfold VMTier.at_most; simpl; repeat split; apply L; lia|]);
           destruct Hu|];
          try (inversion E; fail)).
    simpl in E. inversion E. destruct l; discriminate. }
  intros E. apply (S l1 x l2 E).
Qed.

(** X17 (fromSpecs returns the smallest tier that complies).  When
    [VMTier.fromSpecs(specs)] returns a tier, the tier has at least the
    cores and the memory asked for, and the disk when one is asked for;
    and every tier that complies with the specs has at least the cores,
    the memory and the disk of the returned one. *)
Theorem vmtier_fromSpecs_smallest :
  forall (specs : VMTier.Specs) (t : VMTier.t),
    VMTier.fromSpecs specs = Some t ->
    In t VMTier.values
    /\ QArith_base.Qle (VMTier.cpu specs) (VMTier.cpuCores t)
    /\ QArith_base.Qle (VMTier.memGiB specs) (VMTier.memoryGiB t)
    /\ (forall d, VMTier.specsDiskGB specs = Some d ->
                  QArith_base.Qle d (VMTier.diskGB t))
    /\ (forall u, In u VMTier.values -> VMTier.complies specs u = true ->
                  VMTier.at_most t u).
Proof.
  intros specs t H. unfold VMTier.fromSpecs in H.
  destruct (find_first _ _ H) as (l1 & l2 & E & Ht & Hl1).
  split; [rewrite E; apply in_or_app; right; left; reflexivity|].
  unfold VMTier.complies in Ht.
  apply andb_prop in Ht. destruct Ht as [Ht Hd].
  apply andb_prop in Ht. destruct Ht as [Hc Hm].
  apply QArith_base.Qle_bool_iff in Hc. apply QArith_base.Qle_bool_iff in Hm.
  split; [exact Hc | split; [exact Hm | split]].
  - intros d Ed. rewrite Ed in Hd. apply QArith_base.Qle_bool_iff. exact Hd.
  - intros u Hu Cu. rewrite E in Hu. apply in_app_or in Hu.
    destruct Hu as [Hu|Hu].
    + rewrite (Hl1 u Hu) in Cu. discriminate.
    + apply (@tiers_ascending l1 l2 t E u Hu).
Qed.

Lemma vmtier_fromSpecs_smallest_witness :
  In VMTier.Medium VMTier.values
  /\ QArith_base.Qle (QArith_base.inject_Z 16) (VMTier.cpuCores VMTier.Medium).
Proof.
  destruct (@vmtier_fromSpecs_smallest
              {| VMTier.cpu := QArith_base.inject_Z 16;
                 VMTier.memGiB := QArith_base.inject_Z 32;
                 VMTier.specsDiskGB := Some (QArith_base.inject_Z 40) |}
              VMTier.Medium eq_refl) as (H1 & H2 & _).
  split; [exact H1 | exact H2].
Defined.

(** X18 (when fromSpecs finds no tier).  [VMTier.fromSpecs(specs)] is
    undefined exactly when the specs ask for more than 64 cores, or
    more than 128 GiB of memory, or more than 50 GB of disk. *)
Theorem vmtier_fromSpecs_none_iff :
  forall (specs : VMTier.Specs),
    VMTier.fromSpecs specs = None
    <-> (QArith_base.Qlt (QArith_base.inject_Z 64) (VMTier.cpu specs)
         \/ QArith_base.Qlt (QArith_base.inject_Z 128) (VMTier.memGiB specs)
         \/ exists d, VMTier.specsDiskGB specs = Some d
                      /\ QArith_base.Qlt (QArith_base.inject_Z 50) d).
Proof.
  intros specs. unfold VMTier.fromSpecs. split.
  - intros H.
    assert (X : VMTier.complies specs VMTier.XLarge = false).
    { apply (find_none _ _ H). simpl. tauto. }
    unfold VMTier.complies in X. cbn [VMTier.cpuCores VMTier.memoryGiB VMTier.diskGB
                                       VMTier.XLarge] in X.
    destruct (QArith_base.Qle_bool (VMTier.cpu specs) (QArith_base.inject_Z 64)) eqn:Ec.
    + destruct (QArith_base.Qle_bool (VMTier.memGiB specs) (QArith_base.inject_Z 128))
        eqn:Em.
      * right; right. destruct (VMTier.specsDiskGB specs) as [d|]; [|discriminate].
        exists d. split; [reflexivity|].
        apply QArith_base.Qnot_le_lt. intros Hle.
        apply QArith_base.Qle_bool_iff in Hle. simpl in X. congruence.
      * right; left. apply QArith_base.Qnot_le_lt. intros Hle.
        apply QArith_base.Qle_bool_iff in Hle. congruence.
    + left. apply QArith_base.Qnot_le_lt. intros Hle.
      apply QArith_base.Qle_bool_iff in Hle. congruence.
  - intros H.
    destruct (find (VMTier.complies specs) VMTier.values) as [t|] eqn:E; [|reflexivity].
    exfalso.
    destruct (find_first _ _ E) as (l1 & l2 & El & Ht & _).
    assert (Hlast : In VMTier.XLarge VMTier.values) by (simpl; tauto).
    assert (Hlast_only : forall l x l0, VMTier.values = l ++ x :: l0 ->
                                        ~ In VMTier.XLarge l).
    { clear. intros l x l0 E0 I. unfold VMTier.values in E0.
      do 7 (destruct l as [|? l];
            [simpl in I; try contradiction|];
            try (inversion E0; subst; simpl in I;
                 repeat (destruct I as [I|I]; [discriminate|]);
                 try contradiction; fail)).
      simpl in E0. inversion E0. destruct l; discriminate. }
    assert (Hx : VMTier.at_most t VMTier.XLarge).
    { rewrite El in Hlast. apply (@tiers_ascending l1 l2 t El).
      apply in_app_or in Hlast. destruct Hlast as [I|I]; [|exact I].
      exfalso. apply (Hlast_only l1 t l2 El I). }
    destruct Hx as (X1 & X2 & X3).
    cbn [VMTier.cpuCores VMTier.memoryGiB VMTier.diskGB VMTier.XLarge] in X1, X2, X3.
    unfold VMTier.complies in Ht.
    apply andb_prop in Ht. destruct Ht as [Ht Hd].
    apply andb_prop in Ht. destruct Ht as [Hc Hm].
    apply QArith_base.Qle_bool_iff in Hc. apply QArith_base.Qle_bool_iff in Hm.
    destruct H as [H|[H|(d & Ed & H)]].
    + apply (QArith_base.Qlt_not_le _ _ H).
      apply (QArith_base.Qle_trans _ _ _ Hc X1).
    + apply (QArith_base.Qlt_not_le _ _ H).
      apply (QArith_base.Qle_trans _ _ _ Hm X2).
    + rewrite Ed in Hd. apply QArith_base.Qle_bool_iff in Hd.
      apply (QArith_base.Qlt_not_le _ _ H).
      apply (QArith_base.Qle_trans _ _ _ Hd X3).
Qed.

(* --------------------------------------------------------------------- *)
(** ** The promise of a command settles once *)
(* --------------------------------------------------------------------- *)

Lemma pending_or_completed_step (s : Command.t) (e : Command.event) :
  Command.at_ s = Command.Completed \/ Command.resultPromise s = Command.PromisePending ->
  Command.at_ (Command.step s e) = Command.Completed
  \/ Command.resultPromise (Command.step s e) = Command.PromisePending.
Proof.
  intros [H|H]; [left; apply completed_step; exact H|].
  destruct e as [r|r|n| | |l|l]; cbn [Command.step].
  - destruct (Command.at_ s) eqn:A; try (right; exact H).
    destruct r as [u|err]; [right; exact H | left; reflexivity].
  - destruct (Command.at_ s) eqn:A; try (right; exact H).
    destruct r as [sh|err]; [|left; reflexivity].
    unfold Command.afterCreate.
    destruct (ShellStatus_eqb (status (dto sh)) FINISHED); [left; reflexivity|].
    right. destruct s as [a st em osh co ba f1 f2 f3 cs emi ph pr].
    simpl in H |- *.
    destruct (Command.shellName a) as [n|]; [destruct (truthy n)|];
      destruct (truthy (join newline (buffer sh))); exact H.
  - right. rewrite (proj1 (notify_promise s n)). exact H.
  - unfold Command.afterBarrier.
    destruct (Command.at_ s) eqn:A; try (right; exact H).
    destruct (Barrier.wait (Command.barrier s)) as [[v|]|];
      [left; reflexivity | left; reflexivity | right; exact H].
  - right. rewrite (proj1 (kill_promise s)). exact H.
  - right; exact H.
  - right; exact H.
Qed.

Lemma pending_or_completed_run (es : list Command.event) :
  forall s,
    Command.at_ s = Command.Completed
    \/ Command.resultPromise s = Command.PromisePending ->
    Command.at_ (Command.run s es) = Command.Completed
    \/ Command.resultPromise (Command.run s es) = Command.PromisePending.
Proof.
  induction es as [|e es IH]; intros s H; [exact H|].
  apply (IH (Command.step s e)). apply pending_or_completed_step. exact H.
Qed.

Lemma runCommandAsUser_pending (a : Command.args) :
  Command.resultPromise (Command.runCommandAsUser a) = Command.PromisePending.
Proof.
  unfold Command.runCommandAsUser.
  destruct (Command.runPreCommand a) as [requests|]; [|reflexivity].
  cbn [Command.suspend Command.resultPromise].
  match goal with
  | |- context [fold_left Command.send requests ?s0] =>
    destruct (fold_left_send requests s0) as (_ & H & _)
  end.
  exact H.
Qed.

(** X19 (the promise of a command settles at most once).  For any
    arguments of [runCommandAsUser] and whatever has happened since the
    call: once the command promise is fulfilled or rejected, the body
    is over, and nothing that happens later, be it a notification, a
    settling request, [kill()] or a listener coming or going, changes
    the promise. *)
Theorem run_promise_settles_once :
  forall (a : Command.args) (es1 es2 : list Command.event),
    let s := Command.run (Command.runCommandAsUser a) es1 in
    Command.resultPromise s <> Command.PromisePending ->
    Command.at_ s = Command.Completed
    /\ Command.resultPromise (Command.run s es2) = Command.resultPromise s.
Proof.
  intros a es1 es2 s H.
  assert (C : Command.at_ s = Command.Completed).
  { destruct (@pending_or_completed_run es1 (Command.runCommandAsUser a)) as [C|P].
    - right. apply runCommandAsUser_pending.
    - exact C.
    - contradiction. }
  split; [exact C | apply completed_run; exact C].
Qed.

Lemma run_promise_settles_once_witness :
  let a := {| Command.workspacePath := str "/project";
              Command.command := str "true";
              Command.shellSize := DEFAULT_SHELL_SIZE;
              Command.runPreCommand := None;
              Command.env := None;
              Command.shellName := None |} in
  let sh := {| dto := {| shellId := str "shell-1"; name := str "true";
                         status := FINISHED; exitCode := Some 0%Z |};
               buffer := [] |} in
  let s := Command.run (Command.runCommandAsUser a)
             [Command.CreateSettled (Returned sh)] in
  Command.resultPromise
    (Command.run s [Command.Notification (ShellExited (str "shell-1") 1);
                    Command.WaitResumes; Command.KillCalled])
  = Command.resultPromise s.
Proof.
  refine (proj2 (@run_promise_settles_once
            {| Command.workspacePath := str "/project";
               Command.command := str "true";
               Command.shellSize := DEFAULT_SHELL_SIZE;
               Command.runPreCommand := None;
               Command.env := None;
               Command.shellName := None |}
            [Command.CreateSettled
               (Returned {| dto := {| shellId := str "shell-1"; name := str "true";
                                      status := FINISHED; exitCode := Some 0%Z |};
                            buffer := [] |})]
            [Command.Notification (ShellExited (str "shell-1") 1);
             Command.WaitResumes; Command.KillCalled] _)).
  simpl. discriminate.
Defined.


(* --------------------------------------------------------------------- *)
(** ** runCommandAsUser and the functions registered on [onOutput] *)
(* --------------------------------------------------------------------- *)

Lemma control_fields (s s' : Command.t) :
  CommandFire.control s' = CommandFire.control s ->
  Command.params s' = Command.params s
  /\ Command.disposableStore s' = Command.disposableStore s
  /\ Command.shell s' = Command.shell s
  /\ Command.barrier s' = Command.barrier s
  /\ Command.onShellOut s' = Command.onShellOut s
  /\ Command.onShellExited s' = Command.onShellExited s
  /\ Command.onShellTerminated s' = Command.onShellTerminated s
  /\ Command.calls s' = Command.calls s
  /\ Command.at_ s' = Command.at_ s
  /\ Command.resultPromise s' = Command.resultPromise s.
Proof.
  unfold CommandFire.control. intros H. inversion H. repeat split; assumption.
Qed.

Lemma fold_dispose_item_fields (items : list Command.store_item) :
  forall s,
    let d := fold_left Command.dispose_item items s in
    Command.params d = Command.params s
    /\ Command.disposableStore d = Command.disposableStore s
    /\ (Command.onShellOut d = true -> Command.onShellOut s = true)
    /\ (Command.onShellExited d = true -> Command.onShellExited s = true)
    /\ (Command.onShellTerminated d = true -> Command.onShellTerminated s = true)
    /\ (Command.onOutput d = Command.onOutput s
        \/ Emitter.registeredListeners (Command.onOutput d) = []).
Proof.
  induction items as [|i items IH]; intros s; [simpl; tauto|].
  cbv zeta. simpl fold_left.
  destruct (IH (Command.dispose_item s i)) as (H1 & H2 & H3 & H4 & H5 & H6).
  rewrite H1, H2.
  destruct i; simpl in *;
    (split; [reflexivity | split; [reflexivity|]]);
    (split; [intros X; try (specialize (H3 X); discriminate); auto|]);
    (split; [intros X; try (specialize (H4 X); discriminate); auto|]);
    (split; [intros X; try (specialize (H5 X); discriminate); auto|]);
    try exact H6.
  destruct H6 as [H6|H6]; [|right; exact H6].
  right. rewrite H6. reflexivity.
Qed.

Lemma dispose_store_fields (s : Command.t) :
  let d := Command.dispose_store s in
  Command.params d = Command.params s
  /\ Command.isDisposed (Command.disposableStore d) = true
  /\ (Command.onShellOut d = true -> Command.onShellOut s = true)
  /\ (Command.onShellExited d = true -> Command.onShellExited s = true)
  /\ (Command.onShellTerminated d = true -> Command.onShellTerminated s = true)
  /\ (Command.onOutput d = Command.onOutput s
      \/ Emitter.registeredListeners (Command.onOutput d) = []).
Proof.
  cbv zeta. unfold Command.dispose_store.
  destruct (Command.isDisposed (Command.disposableStore s)) eqn:E.
  - rewrite E. repeat split; auto.
  - destruct (fold_dispose_item_fields
                (Command.toDispose (Command.disposableStore s)) s)
      as (H1 & H2 & H3 & H4 & H5 & H6).
    simpl. repeat split; assumption.
Qed.

Section CommandFireFacts.

Variable behaviour : Emitter.listener -> jsstring -> list Emitter.action.
Variable fuel : nat.

Lemma fire_frame (s s' : Command.t) (v : jsstring) (c : completion unit error) :
  CommandFire.fire_onOutput behaviour fuel s v = Some (s', c) ->
  CommandFire.control s' = CommandFire.control s
  /\ Command.combinedOut s' = Command.combinedOut s.
Proof.
  unfold CommandFire.fire_onOutput.
  destruct (Emitter.fire behaviour fuel (Command.onOutput s) v) as [[[em log] c']|];
    [|discriminate].
  intros H. inversion H; subst. split; reflexivity.
Qed.

(** The handlers are not registered and no body is about to run: no
    function is called, whatever happens. *)
Lemma step_no_fire (s : Command.t) (e : Command.event) :
  Command.onShellOut s = false ->
  Command.at_ s <> Command.AwaitCreate \/ CommandUse.creates [e] = 0 ->
  CommandFire.step behaviour fuel s e = Some (Command.step s e).
Proof.
  intros Hf Hc. destruct e as [r|r|n| | |l|l]; try reflexivity.
  - destruct Hc as [Hc|Hc]; [|discriminate].
    simpl. destruct (Command.at_ s); try reflexivity. contradiction.
  - destruct n as [id out|id code|id]; try reflexivity.
    simpl. rewrite Hf. reflexivity.
Qed.

(** What the functions cannot touch evolves as in [Command], but for a
    function that throws when the session is created: the promise is
    then rejected with what it threw and no handler is registered. *)
Lemma afterCreate_control (s s' : Command.t) (r : completion OpenShellDTO error) :
  CommandFire.afterCreate behaviour fuel s r = Some s' ->
  CommandFire.control s' = CommandFire.control (Command.afterCreate s r)
  \/ exists sh err,
       r = Returned sh
       /\ status (dto sh) <> FINISHED
       /\ Command.at_ s' = Command.Completed
       /\ Command.resultPromise s' = Command.PromiseRejected err
       /\ Command.shell s' = Some sh
       /\ Command.onShellOut s' = Command.onShellOut s
       /\ Command.onShellExited s' = Command.onShellExited s
       /\ Command.onShellTerminated s' = Command.onShellTerminated s
       /\ Command.disposableStore s' = Command.disposableStore s
       /\ Command.params s' = Command.params s
       /\ Command.calls s' = Command.calls (Command.afterCreate s r).
Proof.
  destruct r as [sh|e]; [|intros H; inversion H; left; reflexivity].
  destruct s as [a st em osh co ba f1 f2 f3 cs emi ph pr].
  unfold CommandFire.afterCreate, Command.afterCreate,
    CommandFire.fire_onOutput, Command.fire_onOutput.
  destruct (ShellStatus_eqb (status (dto sh)) FINISHED) eqn:Ef;
    [intros H; inversion H; left; reflexivity|].
  assert (Hfin : status (dto sh) <> FINISHED)
    by (intros X; rewrite X in Ef; discriminate).
  simpl.
  destruct (Command.shellName a) as [n|]; [destruct (truthy n)|]; simpl;
    (destruct (truthy (join newline (buffer sh))); simpl;
     [destruct (Emitter.fire behaviour fuel em (join newline (buffer sh)))
        as [[[em' log] [u|err]]|]; simpl|];
     intros H; inversion H;
     first [ left; reflexivity
           | right; exists sh, err; simpl; repeat split; try reflexivity; exact Hfin ]).
Qed.

Lemma step_control (s s' : Command.t) (e : Command.event) :
  CommandFire.step behaviour fuel s e = Some s' ->
  CommandFire.control s' = CommandFire.control (Command.step s e)
  \/ exists sh err,
       e = Command.CreateSettled (Returned sh)
       /\ Command.at_ s = Command.AwaitCreate
       /\ status (dto sh) <> FINISHED
       /\ Command.at_ s' = Command.Completed
       /\ Command.resultPromise s' = Command.PromiseRejected err
       /\ Command.shell s' = Some sh
       /\ Command.onShellOut s' = Command.onShellOut s
       /\ Command.onShellExited s' = Command.onShellExited s
       /\ Command.onShellTerminated s' = Command.onShellTerminated s
       /\ Command.disposableStore s' = Command.disposableStore s
       /\ Command.params s' = Command.params s
       /\ Command.calls s' = Command.calls (Command.step s e).
Proof.
  destruct e as [r|r|n| | |l|l]; simpl;
    try (intros H; inversion H; left; reflexivity).
  - destruct (Command.at_ s) eqn:Hat;
      try (intros H; inversion H; left; reflexivity).
    intros H. destruct (afterCreate_control _ _ H) as [C|(sh & err & Hr & R)];
      [left; exact C|].
    right. exists sh, err. subst r. split; [reflexivity | split; [reflexivity | exact R]].
  - destruct n as [id out|id code|id];
      try (intros H; inversion H; left; reflexivity).
    destruct s as [a st em osh co ba f1 f2 f3 cs emi ph pr].
    unfold CommandFire.notify, CommandFire.fire_onOutput,
      Command.notify, Command.fire_onOutput, Command.is_mine. simpl.
    destruct (f1 && match osh with
                    | Some sh => JS.eqb id (shellId (dto sh))
                    | None => false
                    end);
      [|intros H; inversion H; left; reflexivity].
    destruct (Emitter.fire behaviour fuel em out) as [[[em' log] [u|err]]|]; simpl;
      intros H; inversion H; left; reflexivity.
Qed.

End CommandFireFacts.

Lemma dispose_store_flags_off (s : Command.t) :
  Command.onShellOut s = false -> Command.onShellExited s = false ->
  Command.onShellTerminated s = false ->
  Command.onShellOut (Command.dispose_store s) = false
  /\ Command.onShellExited (Command.dispose_store s) = false
  /\ Command.onShellTerminated (Command.dispose_store s) = false.
Proof.
  intros H1 H2 H3.
  destruct (dispose_store_fields s) as (_ & _ & F1 & F2 & F3 & _).
  repeat split.
  - destruct (Command.onShellOut (Command.dispose_store s)); [|reflexivity].
    rewrite <- H1. symmetry. apply F1. reflexivity.
  - destruct (Command.onShellExited (Command.dispose_store s)); [|reflexivity].
    rewrite <- H2. symmetry. apply F2. reflexivity.
  - destruct (Command.onShellTerminated (Command.dispose_store s)); [|reflexivity].
    rewrite <- H3. symmetry. apply F3. reflexivity.
Qed.

Lemma kill_fields (s : Command.t) :
  Command.onShellOut (Command.kill s) = Command.onShellOut (Command.dispose_store s)
  /\ Command.onShellExited (Command.kill s)
     = Command.onShellExited (Command.dispose_store s)
  /\ Command.onShellTerminated (Command.kill s)
     = Command.onShellTerminated (Command.dispose_store s)
  /\ Command.disposableStore (Command.kill s)
     = Command.disposableStore (Command.dispose_store s)
  /\ Command.onOutput (Command.kill s) = Command.onOutput (Command.dispose_store s)
  /\ Command.emitted (Command.kill s) = Command.emitted s
  /\ Command.combinedOut (Command.kill s) = Command.combinedOut s
  /\ Command.params (Command.kill s) = Command.params s
  /\ Command.calls (Command.kill s)
     = Command.calls s
       ++ match Command.shell s with
          | Some sh => [CallDelete (shellId (dto sh))]
          | None => []
          end.
Proof.
  unfold Command.kill.
  destruct (dispose_store_promise s) as (_ & _ & Hsh & Hc & Hco & _).
  destruct (dispose_store_fields s) as (Hp & _).
  rewrite Hsh. destruct (Command.shell s); simpl;
    rewrite ?dispose_store_emitted, ?Hc, ?Hco, ?Hp, ?app_nil_r; repeat split; reflexivity.
Qed.

(** Before the promise of the create request settles nothing but the
    emitter and the store changes. *)
Lemma before_create_step (s : Command.t) (e : Command.event) :
  CommandUse.before_create s ->
  CommandUse.creates [e] = 0 ->
  CommandUse.before_create (Command.step s e)
  /\ Command.calls (Command.step s e) = Command.calls s
  /\ Command.emitted (Command.step s e) = Command.emitted s
  /\ Command.combinedOut (Command.step s e) = Command.combinedOut s
  /\ Command.params (Command.step s e) = Command.params s
  /\ (CommandUse.kills [e] = 0 ->
      Command.disposableStore (Command.step s e) = Command.disposableStore s).
Proof.
  intros (Hsh & Hat & Hpr & F1 & F2 & F3) Hc.
  assert (B : CommandUse.before_create s) by (repeat split; assumption).
  destruct e as [r|r|n| | |l|l]; try discriminate; cbn [Command.step].
  - rewrite Hat. repeat split; auto.
  - destruct n; simpl; rewrite ?F1, ?F2, ?F3; simpl; repeat split; auto.
  - unfold Command.afterBarrier. rewrite Hat. repeat split; auto.
  - destruct (kill_fields s) as (K1 & K2 & K3 & K4 & K5 & K6 & K7 & K8 & K9).
    destruct (kill_promise s) as (P1 & P2).
    destruct (dispose_store_flags_off s F1 F2 F3) as (D1 & D2 & D3).
    rewrite Hsh in K9. rewrite app_nil_r in K9.
    unfold CommandUse.before_create.
    rewrite K1, K2, K3, K6, K7, K8, K9, P1, P2, D1, D2, D3.
    assert (Hs : Command.shell (Command.kill s) = None).
    { unfold Command.kill. destruct (dispose_store_promise s) as (_ & _ & X & _).
      rewrite X, Hsh. rewrite X. exact Hsh. }
    rewrite Hs. repeat split; auto. discriminate.
  - unfold CommandUse.before_create; simpl. repeat split; auto.
  - unfold CommandUse.before_create; simpl. repeat split; auto.
Qed.

Section BeforeCreate.

Variable behaviour : Emitter.listener -> jsstring -> list Emitter.action.
Variable fuel : nat.

Lemma before_create_run (es : list Command.event) :
  forall s,
    CommandUse.before_create s ->
    CommandUse.creates es = 0 ->
    CommandFire.run behaviour fuel s es = Some (Command.run s es)
    /\ CommandUse.before_create (Command.run s es)
    /\ Command.calls (Command.run s es) = Command.calls s
    /\ Command.emitted (Command.run s es) = Command.emitted s
    /\ Command.combinedOut (Command.run s es) = Command.combinedOut s
    /\ Command.params (Command.run s es) = Command.params s
    /\ (CommandUse.kills es = 0 ->
        Command.disposableStore (Command.run s es) = Command.disposableStore s).
Proof.
  induction es as [|e es IH]; intros s B Hc.
  { change (Command.run s []) with s. repeat split; auto; apply B. }
  assert (He : CommandUse.creates [e] = 0) by (destruct e; simpl in *; lia || reflexivity).
  assert (Hes : CommandUse.creates es = 0) by (destruct e; simpl in *; lia || assumption).
  destruct (@before_create_step s e B He) as (B' & C1 & C2 & C3 & C4 & C5).
  destruct (IH _ B' Hes) as (R & I1 & I2 & I3 & I4 & I5 & I6).
  change (Command.run s (e :: es)) with (Command.run (Command.step s e) es).
  cbn [CommandFire.run].
  rewrite (@step_no_fire behaviour fuel s e); [|apply B | right; exact He].
  rewrite R, I2, I3, I4, I5, C1, C2, C3, C4.
  split; [reflexivity|]. split; [exact I1|].
  split; [reflexivity|]. split; [reflexivity|].
  split; [reflexivity|]. split; [reflexivity|].
  intros Hk.
  assert (Hk1 : CommandUse.kills [e] = 0) by (destruct e; simpl in *; lia || reflexivity).
  assert (Hk2 : CommandUse.kills es = 0) by (destruct e; simpl in *; lia || assumption).
  rewrite (I6 Hk2). apply C5. exact Hk1.
Qed.

End BeforeCreate.

Lemma quiet_step (s : Command.t) (e : Command.event) :
  CommandUse.quiet s ->
  CommandUse.quiet (Command.step s e)
  /\ Command.emitted (Command.step s e) = Command.emitted s
  /\ (Command.isDisposed (Command.disposableStore s) = true ->
      Command.isDisposed (Command.disposableStore (Command.step s e)) = true).
Proof.
  intros (F1 & F2 & F3 & Hat).
  destruct e as [r|r|n| | |l|l]; cbn [Command.step].
  - destruct Hat as [Hat|Hat]; rewrite Hat; repeat split; auto.
  - destruct Hat as [Hat|Hat]; rewrite Hat; repeat split; auto.
  - destruct n; simpl; rewrite ?F1, ?F2, ?F3; simpl; repeat split; auto.
  - unfold Command.afterBarrier.
    destruct Hat as [Hat|Hat]; rewrite Hat; [|repeat split; auto].
    destruct (Barrier.wait (Command.barrier s)) as [[v|]|]; [| |repeat split; auto];
      destruct (dispose_store_flags_off s F1 F2 F3) as (D1 & D2 & D3);
      destruct (dispose_store_fields s) as (_ & Hd & _);
      unfold CommandUse.quiet; simpl; rewrite dispose_store_emitted;
      repeat split; auto.
  - destruct (kill_fields s) as (K1 & K2 & K3 & K4 & K5 & K6 & _).
    destruct (kill_promise s) as (_ & P2).
    destruct (dispose_store_flags_off s F1 F2 F3) as (D1 & D2 & D3).
    destruct (dispose_store_fields s) as (_ & Hd & _).
    unfold CommandUse.quiet. rewrite K1, K2, K3, K4, K6, P2, D1, D2, D3.
    repeat split; auto.
  - unfold CommandUse.quiet; simpl. repeat split; auto.
  - unfold CommandUse.quiet; simpl. repeat split; auto.
Qed.

Section Quiet.

Variable behaviour : Emitter.listener -> jsstring -> list Emitter.action.
Variable fuel : nat.

(** Once no handler is registered and the session has been created,
    no function registered on [onOutput] is ever called again. *)
Lemma quiet_fire_run (es : list Command.event) :
  forall s,
    CommandUse.quiet s ->
    CommandFire.run behaviour fuel s es = Some (Command.run s es)
    /\ CommandUse.quiet (Command.run s es)
    /\ Command.emitted (Command.run s es) = Command.emitted s.
Proof.
  induction es as [|e es IH]; intros s Q.
  { change (Command.run s []) with s. repeat split; auto; apply Q. }
  destruct (@quiet_step s e Q) as (Q' & E & _).
  destruct (IH _ Q') as (R & Q'' & E').
  change (Command.run s (e :: es)) with (Command.run (Command.step s e) es).
  cbn [CommandFire.run].
  rewrite (@step_no_fire behaviour fuel s e).
  - rewrite R, E', E. split; [reflexivity | split; [exact Q'' | reflexivity]].
  - apply Q.
  - left. destruct Q as (_ & _ & _ & [H|H]); rewrite H; discriminate.
Qed.

End Quiet.

Lemma held_control (s s' : Command.t) :
  CommandFire.control s' = CommandFire.control s ->
  CommandFire.settled_or_held s -> CommandFire.settled_or_held s'.
Proof.
  intros C. destruct (control_fields C) as (_ & C2 & _ & _ & C5 & C6 & C7 & _ & C9 & C10).
  unfold CommandFire.settled_or_held. rewrite C2, C5, C6, C7, C9, C10. tauto.
Qed.

Lemma held_step (s : Command.t) (e : Command.event) :
  CommandFire.settled_or_held s -> CommandFire.settled_or_held (Command.step s e).
Proof.
  intros [(Hat & Hpr & [(F1 & F2 & F3 & Hst)|(F1 & F2 & F3 & Hd)])|(Hat & F1 & F2 & F3)].
  - (* the handlers are registered and held by the store *)
    destruct s as [a st em osh co ba f1 f2 f3 cs emi ph pr]. simpl in *. subst.
    destruct e as [r|r|n| | |l|l]; cbn [Command.step];
      try (left; simpl; repeat split; auto; fail).
    + destruct n as [id out|id code|id]; simpl;
        match goal with |- context [if ?c then _ else _] => destruct c end;
        left; simpl; repeat split; auto.
    + unfold Command.afterBarrier. simpl.
      destruct (Barrier.wait ba) as [[v|]|];
        [right | right | left]; simpl; repeat split; auto.
    + unfold Command.kill, Command.dispose_store. simpl.
      destruct osh; left; simpl; repeat split; auto.
  - (* no handler is registered, the body waits *)
    assert (Q : CommandUse.quiet s) by (repeat split; auto).
    destruct (@quiet_step s e Q) as ((G1 & G2 & G3 & G4) & _ & Gd).
    destruct (@pending_or_completed_step s e (or_intror Hpr)) as [C|P].
    + right. repeat split; assumption.
    + destruct G4 as [G4|G4]; [|right; repeat split; assumption].
      left. repeat split; auto. right. repeat split; auto.
  - (* the body is over *)
    assert (Q : CommandUse.quiet s) by (repeat split; auto).
    destruct (@quiet_step s e Q) as ((G1 & G2 & G3 & _) & _).
    right. split; [apply completed_step; exact Hat | repeat split; assumption].
Qed.

Section Held.

Variable behaviour : Emitter.listener -> jsstring -> list Emitter.action.
Variable fuel : nat.

Lemma held_fire_step (s s' : Command.t) (e : Command.event) :
  CommandFire.settled_or_held s ->
  CommandFire.step behaviour fuel s e = Some s' ->
  CommandFire.settled_or_held s'.
Proof.
  intros H St. destruct (step_control _ _ _ _ St) as [C|(sh & err & _ & Hat & _)].
  - apply (held_control C). apply held_step. exact H.
  - exfalso.
    destruct H as [(X & _)|(X & _)]; rewrite X in Hat; discriminate.
Qed.


End Held.

Lemma created_control (s s' : Command.t) (sh : OpenShellDTO) :
  CommandFire.control s' = CommandFire.control s ->
  CommandUse.created s sh -> CommandUse.created s' sh.
Proof.
  intros C. destruct (control_fields C) as (_ & _ & C3 & _ & _ & _ & _ & _ & C9 & _).
  unfold CommandUse.created. rewrite C3, C9. tauto.
Qed.

Lemma afterCreate_held (s : Command.t) (r : completion OpenShellDTO error) :
  CommandUse.before_create s ->
  Command.disposableStore s
  = {| Command.isDisposed := false; Command.toDispose := [Command.ItemOnOutput] |} ->
  CommandFire.settled_or_held (Command.afterCreate s r).
Proof.
  intros (Hsh & Hat & Hpr & F1 & F2 & F3) Hst.
  destruct r as [sh|e]; [|right; simpl; repeat split; assumption].
  destruct (ShellStatus_eqb (status (dto sh)) FINISHED) eqn:Ef.
  - right. unfold Command.afterCreate. rewrite Ef.
    destruct s as [a st em osh co ba f1 f2 f3 cs emi ph pr]. simpl in *.
    destruct (Command.shellName a) as [n|]; [destruct (truthy n)|]; simpl;
      repeat split; assumption.
  - assert (Hfin : status (dto sh) <> FINISHED)
      by (intros X; rewrite X in Ef; discriminate).
    destruct (@afterCreate_waiting s sh Hat Hpr Hst Hfin)
      as ((W1 & W2 & _ & W4 & W5 & W6 & W7) & _).
    left. split; [exact W1 | split; [exact W2|]]. left. repeat split; assumption.
Qed.

Section Creation.

Variable behaviour : Emitter.listener -> jsstring -> list Emitter.action.
Variable fuel : nat.

Lemma fire_run_app (es es' : list Command.event) :
  forall s,
    CommandFire.run behaviour fuel s (es ++ es')
    = match CommandFire.run behaviour fuel s es with
      | Some s1 => CommandFire.run behaviour fuel s1 es'
      | None => None
      end.
Proof.
  induction es as [|e es IH]; intros s; [reflexivity|].
  simpl. destruct (CommandFire.step behaviour fuel s e) as [s1|]; [apply IH | reflexivity].
Qed.

Lemma afterCreate_fire_held (s s' : Command.t) (r : completion OpenShellDTO error) :
  CommandUse.before_create s ->
  Command.disposableStore s
  = {| Command.isDisposed := false; Command.toDispose := [Command.ItemOnOutput] |} ->
  CommandFire.afterCreate behaviour fuel s r = Some s' ->
  CommandFire.settled_or_held s'.
Proof.
  intros B Hst A.
  destruct (afterCreate_control _ _ _ _ A) as [C|(sh & err & _ & _ & Hat & _ & _ & G1 & G2 & G3 & _)].
  - apply (held_control C). apply afterCreate_held; assumption.
  - destruct B as (_ & _ & _ & F1 & F2 & F3).
    right. rewrite G1, G2, G3. repeat split; assumption.
Qed.

Lemma afterCreate_fire_created (s s' : Command.t) (sh : OpenShellDTO) :
  CommandFire.afterCreate behaviour fuel s (Returned sh) = Some s' ->
  CommandUse.created s' sh
  /\ Command.calls s'
     = Command.calls s
       ++ match Command.shellName (Command.params s) with
          | Some n => if truthy n then [CallRename (shellId (dto sh)) n] else []
          | None => []
          end.
Proof.
  intros A. destruct (afterCreate_created s sh) as [Cr Ca].
  destruct (afterCreate_control _ _ _ _ A)
    as [C|(sh' & err & Hr & _ & Hat & _ & Hsh & _ & _ & _ & _ & _ & Hc)].
  - split; [apply (created_control C Cr)|].
    destruct (control_fields C) as (_ & _ & _ & _ & _ & _ & _ & C8 & _).
    rewrite C8. exact Ca.
  - inversion Hr; subst sh'. split; [split; [exact Hsh | right; exact Hat]|].
    rewrite Hc. exact Ca.
Qed.

Lemma created_fire_step (s s' : Command.t) (sh : OpenShellDTO) (e : Command.event) :
  CommandUse.created s sh ->
  CommandFire.step behaviour fuel s e = Some s' ->
  CommandUse.created s' sh
  /\ Command.calls s'
     = Command.calls s ++ repeat (CallDelete (shellId (dto sh))) (CommandUse.kills [e]).
Proof.
  intros Cr St.
  destruct (@created_step s sh e Cr) as (Cr' & N & K).
  destruct (step_control _ _ _ _ St) as [C|(sh' & err & _ & Hat & _)].
  - split; [apply (created_control C Cr')|].
    destruct (control_fields C) as (_ & _ & _ & _ & _ & _ & _ & C8 & _).
    rewrite C8.
    destruct e;
      try (rewrite (N ltac:(discriminate)); cbn [CommandUse.kills repeat];
           rewrite app_nil_r; reflexivity).
    rewrite (K eq_refl). reflexivity.
  - exfalso. destruct Cr as (_ & [X|X]); rewrite X in Hat; discriminate.
Qed.

Lemma created_fire_run (sh : OpenShellDTO) (es : list Command.event) :
  forall s s',
    CommandUse.created s sh ->
    CommandFire.run behaviour fuel s es = Some s' ->
    CommandUse.created s' sh
    /\ Command.calls s'
       = Command.calls s ++ repeat (CallDelete (shellId (dto sh))) (CommandUse.kills es).
Proof.
  induction es as [|e es IH]; intros s s' Cr R.
  - inversion R; subst. simpl. rewrite app_nil_r. split; [exact Cr | reflexivity].
  - cbn [CommandFire.run] in R.
    destruct (CommandFire.step behaviour fuel s e) as [s1|] eqn:St; [|discriminate].
    destruct (@created_fire_step s s1 sh e Cr St) as (Cr1 & C1).
    destruct (IH s1 s' Cr1 R) as (Cr' & C').
    split; [exact Cr'|]. rewrite C', C1, <- app_assoc, <- repeat_app.
    f_equal. f_equal. destruct e; reflexivity.
Qed.

End Creation.

Lemma shells_run_before_create (ws cmd : jsstring) (opts : option Shells.ShellRunOpts) :
  CommandUse.before_create (Shells.run ws cmd opts)
  /\ Command.disposableStore (Shells.run ws cmd opts)
     = {| Command.isDisposed := false; Command.toDispose := [Command.ItemOnOutput] |}
  /\ Command.emitted (Shells.run ws cmd opts) = []
  /\ Command.combinedOut (Shells.run ws cmd opts) = [].
Proof. repeat split; reflexivity. Qed.

Lemma split_at_create (es : list Command.event) :
  CommandUse.creates es = 0
  \/ exists es0 r es1,
       es = es0 ++ Command.CreateSettled r :: es1 /\ CommandUse.creates es0 = 0.
Proof.
  induction es as [|e es IH]; [left; reflexivity|].
  destruct e as [r|r|n| | |l|l];
    try (destruct IH as [IH|(es0 & r0 & es1 & E & H)];
         [left; exact IH
         | right; eexists (_ :: es0), r0, es1; rewrite E; split; [reflexivity | exact H]]).
  right. exists [], r, es. split; reflexivity.
Qed.

Lemma kills_app (es es' : list Command.event) :
  CommandUse.kills (es ++ es') = CommandUse.kills es + CommandUse.kills es'.
Proof.
  induction es as [|e es IH]; [reflexivity|].
  destruct e; simpl; rewrite IH; reflexivity.
Qed.

(** While the handlers are held by the store and [kill()] is not
    called, a command that still waits has its handlers held. *)
Lemma held_no_kill_step (s : Command.t) (e : Command.event) :
  Command.at_ s = Command.AwaitBarrier ->
  Command.disposableStore s
  = {| Command.isDisposed := false;
       Command.toDispose := [Command.ItemOnOutput; Command.ItemShellOut;
                             Command.ItemShellExited; Command.ItemShellTerminated] |} ->
  CommandUse.kills [e] = 0 ->
  Command.at_ (Command.step s e) = Command.AwaitBarrier ->
  Command.disposableStore (Command.step s e) = Command.disposableStore s.
Proof.
  intros Hat Hst Hk.
  destruct s as [a st em osh co ba f1 f2 f3 cs emi ph pr]. simpl in *. subst.
  destruct e as [r|r|n| | |l|l]; try discriminate; cbn [Command.step]; try reflexivity.
  - destruct n as [id out|id code|id]; simpl;
      match goal with |- context [if ?c then _ else _] => destruct c end; reflexivity.
  - unfold Command.afterBarrier. simpl.
    destruct (Barrier.wait ba) as [[v|]|]; simpl; try discriminate; reflexivity.
Qed.

(** The command waits on its barrier with its three handlers
    registered and held by the store, or its body is over with none
    registered. *)
Lemma held_no_kill_run (behaviour : Emitter.listener -> jsstring -> list Emitter.action)
  (fuel : nat) (es : list Command.event) :
  forall s s',
    CommandFire.settled_or_held s ->
    (Command.at_ s = Command.AwaitBarrier ->
     Command.isDisposed (Command.disposableStore s) = false) ->
    CommandUse.kills es = 0 ->
    CommandFire.run behaviour fuel s es = Some s' ->
    CommandFire.settled_or_held s'
    /\ (Command.at_ s' = Command.AwaitBarrier ->
        Command.isDisposed (Command.disposableStore s') = false).
Proof.
  induction es as [|e es IH]; intros s s' H Hd Hk R.
  - inversion R; subst. split; assumption.
  - cbn [CommandFire.run] in R.
    destruct (CommandFire.step behaviour fuel s e) as [s1|] eqn:St; [|discriminate].
    assert (Hk1 : CommandUse.kills [e] = 0) by (destruct e; simpl in *; lia || reflexivity).
    assert (Hk2 : CommandUse.kills es = 0) by (destruct e; simpl in *; lia || assumption).
    apply (IH s1 s'); [apply (@held_fire_step behaviour fuel s s1 e H St) | | exact Hk2 | exact R].
    intros Hat1.
    destruct (step_control _ _ _ _ St) as [C|(sh & err & _ & _ & _ & X & _)];
      [|rewrite X in Hat1; discriminate].
    destruct (control_fields C) as (_ & C2 & _ & _ & _ & _ & _ & _ & C9 & _).
    rewrite C9 in Hat1. rewrite C2.
    destruct H as [(Hat & _ & [(_ & _ & _ & Hst)|(_ & _ & _ & Hdis)])|(Hat & _)].
    + rewrite (@held_no_kill_step s e Hat Hst Hk1 Hat1), Hst. reflexivity.
    + rewrite (Hd Hat) in Hdis. discriminate.
    + destruct (completed_step s e Hat) as [X _]. rewrite X in Hat1. discriminate.
Qed.

Lemma afterCreate_fire_store (behaviour : Emitter.listener -> jsstring -> list Emitter.action)
  (fuel : nat) (s s' : Command.t) (r : completion OpenShellDTO error) :
  Command.isDisposed (Command.disposableStore s) = false ->
  CommandFire.afterCreate behaviour fuel s r = Some s' ->
  Command.isDisposed (Command.disposableStore s') = false.
Proof.
  intros Hd A.
  destruct (afterCreate_control _ _ _ _ A)
    as [C|(sh & err & _ & _ & _ & _ & _ & _ & _ & _ & X & _)]; [|rewrite X; exact Hd].
  destruct (control_fields C) as (_ & C2 & _). rewrite C2.
  destruct s as [a [d items] em osh co ba f1 f2 f3 cs emi ph pr]. simpl in Hd. subst d.
  destruct r as [sh|e]; [|reflexivity].
  unfold Command.afterCreate.
  destruct (ShellStatus_eqb (status (dto sh)) FINISHED); simpl;
    destruct (Command.shellName a) as [n|]; try destruct (truthy n);
    try destruct (truthy (join newline (buffer sh))); reflexivity.
Qed.

Lemma quiet_of_cut_off (s : Command.t) : Command.cut_off s -> CommandUse.quiet s.
Proof.
  intros (Hat & _ & _ & F1 & F2 & F3 & _).
  repeat split; try assumption. left; exact Hat.
Qed.

(** C4, amended (kill() cuts a waiting command off).  For a command
    started with [shells.run], whatever functions are registered on
    [onOutput] and whatever has happened so far, if [kill()] has not
    been called before and the command waits on its barrier, which no
    terminal notification has opened: its three handlers on the output,
    exited and terminated streams are registered; [kill()] removes
    them, empties the live-output emitter and the store, and sends the
    delete request for the session; it does not settle the promise.
    From then on no notification reaches the command: whatever happens
    afterwards, terminal notifications for the session included, the
    promise stays pending. *)
Theorem run_kill_cuts_off :
  forall (behaviour : Emitter.listener -> jsstring -> list Emitter.action)
         (fuel : nat) (ws cmd : jsstring) (opts : option Shells.ShellRunOpts)
         (es : list Command.event) (s : Command.t) (es' : list Command.event),
    CommandFire.run behaviour fuel (Shells.run ws cmd opts) es = Some s ->
    CommandUse.kills es = 0 ->
    Command.at_ s = Command.AwaitBarrier ->
    Command.barrier s = Barrier.Pending ->
    let k := Command.kill s in
    exists sh,
      Command.shell s = Some sh
      /\ (Command.onShellOut s = true /\ Command.onShellExited s = true
          /\ Command.onShellTerminated s = true)
      /\ CommandFire.step behaviour fuel s Command.KillCalled = Some k
      /\ (Command.onShellOut k = false /\ Command.onShellExited k = false
          /\ Command.onShellTerminated k = false)
      /\ Emitter.registeredListeners (Command.onOutput k) = []
      /\ Command.disposableStore k
         = {| Command.isDisposed := true; Command.toDispose := [] |}
      /\ Command.calls k = Command.calls s ++ [CallDelete (shellId (dto sh))]
      /\ Command.resultPromise k = Command.PromisePending
      /\ exists s',
           CommandFire.run behaviour fuel k es' = Some s'
           /\ Command.resultPromise s' = Command.PromisePending.
Proof.
  intros behaviour fuel ws cmd opts es s es' R Hk Hat Hb k.
  destruct (shells_run_before_create ws cmd opts) as (B0 & St0 & _).
  destruct (split_at_create es) as [Hc|(es0 & r & es1 & E & Hc)].
  { exfalso.
    destruct (@before_create_run behaviour fuel es _ B0 Hc) as (R' & (_ & X & _) & _).
    rewrite R' in R. inversion R; subst s. rewrite X in Hat. discriminate. }
  subst es. rewrite kills_app in Hk.
  assert (Hk0 : CommandUse.kills es0 = 0) by lia.
  assert (Hk1 : CommandUse.kills es1 = 0) by (simpl in Hk; lia).
  rewrite fire_run_app in R.
  destruct (@before_create_run behaviour fuel es0 _ B0 Hc)
    as (R0 & B & _ & _ & _ & _ & Hst).
  rewrite R0 in R. specialize (Hst Hk0). rewrite St0 in Hst.
  set (s0 := Command.run (Shells.run ws cmd opts) es0) in *.
  cbn [CommandFire.run CommandFire.step] in R.
  assert (Hat0 : Command.at_ s0 = Command.AwaitCreate) by apply B.
  rewrite Hat0 in R.
  destruct (CommandFire.afterCreate behaviour fuel s0 r) as [s1|] eqn:A; [|discriminate].
  pose proof (@afterCreate_fire_held behaviour fuel s0 s1 r B Hst A) as H1.
  assert (D1 : Command.isDisposed (Command.disposableStore s1) = false).
  { apply (@afterCreate_fire_store behaviour fuel s0 s1 r); [rewrite Hst; reflexivity | exact A]. }
  destruct (@held_no_kill_run behaviour fuel es1 s1 s H1 (fun _ => D1) Hk1 R) as (H & Hd).
  specialize (Hd Hat).
  destruct H as [(_ & Hpr & [(F1 & F2 & F3 & Hfull)|(_ & _ & _ & X)])|(X & _)];
    [|rewrite X in Hd; discriminate | rewrite X in Hat; discriminate].
  assert (Hsh : exists sh, r = Returned sh /\ Command.shell s = Some sh).
  { destruct r as [sh|e].
    - exists sh. split; [reflexivity|].
      destruct (@afterCreate_fire_created behaviour fuel s0 s1 sh A) as (Cr & _).
      destruct (@created_fire_run behaviour fuel sh es1 s1 s Cr R) as ((X & _) & _).
      exact X.
    - exfalso. simpl in A. inversion A; subst s1.
      assert (Q : CommandUse.quiet (Command.settle s0 (Command.PromiseRejected e))).
      { destruct B as (_ & _ & _ & G1 & G2 & G3).
        repeat split; try assumption. right; reflexivity. }
      destruct (@quiet_fire_run behaviour fuel es1 _ Q) as (R' & _).
      rewrite R' in R. inversion R; subst s.
      destruct (@completed_run es1 (Command.settle s0 (Command.PromiseRejected e)) eq_refl)
        as [X _].
      rewrite X in Hat. discriminate. }
  destruct Hsh as (sh & _ & Hsh). exists sh.
  assert (W : Command.waiting s (shellId (dto sh))).
  { split; [exact Hat | split; [exact Hpr | split; [exists sh; split; [exact Hsh | reflexivity]|]]].
    repeat split; assumption. }
  destruct (kill_waiting W Hb) as (K & Kc & Ke & Kt).
  fold k in K, Kc, Ke, Kt.
  destruct (@quiet_fire_run behaviour fuel es' k (quiet_of_cut_off K)) as (R' & _).
  pose proof (cut_off_run es' K) as K'.
  destruct K as (_ & Kp & _ & G1 & G2 & G3 & Kd).
  destruct K' as (_ & Kp' & _).
  split; [exact Hsh|]. split; [repeat split; assumption|].
  split; [reflexivity|]. split; [repeat split; assumption|].
  split; [exact Ke|]. split.
  { destruct (Command.disposableStore k) as [d items]; simpl in *; subst; reflexivity. }
  split; [exact Kc|]. split; [exact Kp|].
  exists (Command.run k es'). split; [exact R' | exact Kp'].
Qed.

Lemma run_kill_cuts_off_witness :
  let sh := {| dto := {| shellId := str "shell-1"; name := str "sleep";
                         status := RUNNING; exitCode := None |};
               buffer := [] |} in
  let boom := fun (_ : Emitter.listener) (_ : jsstring) =>
                [Emitter.Throw (Error (str "listener failed"))] in
  exists s,
    CommandFire.run boom 5 (Shells.run (str "/project") (str "sleep 9") None)
      [Command.OnOutputCalled 7;
       Command.CreateSettled (Returned sh);
       Command.Notification (ShellOut (str "shell-1") (str "zz"))]
    = Some s
    /\ exists s',
         CommandFire.run boom 5 (Command.kill s)
           [Command.Notification (ShellTerminated (str "shell-1"));
            Command.WaitResumes]
         = Some s'
         /\ Command.resultPromise s' = Command.PromisePending.
Proof.
  cbv zeta. eexists. split; [vm_compute; reflexivity|].
  destruct (@run_kill_cuts_off
              (fun _ _ => [Emitter.Throw (Error (str "listener failed"))]) 5
              (str "/project") (str "sleep 9") None
              [Command.OnOutputCalled 7;
               Command.CreateSettled
                 (Returned {| dto := {| shellId := str "shell-1"; name := str "sleep";
                                        status := RUNNING; exitCode := None |};
                              buffer := [] |});
               Command.Notification (ShellOut (str "shell-1") (str "zz"))]
              _
              [Command.Notification (ShellTerminated (str "shell-1"));
               Command.WaitResumes]
              ltac:(vm_compute; reflexivity) eq_refl eq_refl eq_refl)
    as (sh & _ & _ & _ & _ & _ & _ & _ & _ & H).
  exact H.
Defined.

(** X9 (the requests of a command).  A command started with
    [shells.run], whatever functions are registered on [onOutput]:
    until the promise of the create request settles, the only request
    sent is the create request, with the command prefixed by [env] and
    the default size when none is given, also when [kill()] is called
    meanwhile; once the session is created, the requests sent over the
    whole life of the command are the create request, a rename request
    when a shell name was given and is not empty (also when the session
    is already finished), and one delete request for every call of
    [kill()] made since the session was created, also after the command
    has settled.  It sends nothing else. *)
Theorem run_requests :
  forall (behaviour : Emitter.listener -> jsstring -> list Emitter.action)
         (fuel : nat) (ws cmd : jsstring) (opts : option Shells.ShellRunOpts)
         (es0 : list Command.event) (sh : OpenShellDTO) (es : list Command.event)
         (s : Command.t),
    CommandUse.creates es0 = 0 ->
    CommandFire.run behaviour fuel (Shells.run ws cmd opts)
      (es0 ++ Command.CreateSettled (Returned sh) :: es) = Some s ->
    let create :=
      CallCreate ws
        (match opts with
         | Some o => match Shells.ptySize o with
                     | Some z => z
                     | None => DEFAULT_SHELL_SIZE
                     end
         | None => DEFAULT_SHELL_SIZE
         end)
        (str "env  " ++ cmd) (str "TERMINAL") true in
    (exists s0,
       CommandFire.run behaviour fuel (Shells.run ws cmd opts) es0 = Some s0
       /\ Command.calls s0 = [create])
    /\ Command.calls s
       = [create]
         ++ match opts with
            | Some o => match Shells.shellName o with
                        | Some n => if truthy n then [CallRename (shellId (dto sh)) n] else []
                        | None => []
                        end
            | None => []
            end
         ++ repeat (CallDelete (shellId (dto sh))) (CommandUse.kills es).
Proof.
  intros behaviour fuel ws cmd opts es0 sh es s Hc R create.
  destruct (shells_run_before_create ws cmd opts) as (B0 & _).
  destruct (@before_create_run behaviour fuel es0 _ B0 Hc)
    as (R0 & B & C0 & _ & _ & P0 & _).
  set (s0 := Command.run (Shells.run ws cmd opts) es0) in *.
  assert (Hcreate : Command.calls (Shells.run ws cmd opts) = [create])
    by (destruct opts as [[p n]|]; reflexivity).
  split; [exists s0; split; [exact R0 | rewrite C0; exact Hcreate]|].
  rewrite fire_run_app, R0 in R.
  cbn [CommandFire.run CommandFire.step] in R.
  assert (Hat0 : Command.at_ s0 = Command.AwaitCreate) by apply B.
  rewrite Hat0 in R.
  destruct (CommandFire.afterCreate behaviour fuel s0 (Returned sh)) as [s1|] eqn:A;
    [|discriminate].
  destruct (@afterCreate_fire_created behaviour fuel s0 s1 sh A) as (Cr & C1).
  destruct (@created_fire_run behaviour fuel sh es s1 s Cr R) as (_ & C).
  rewrite C, C1, C0, P0, Hcreate, <- app_assoc.
  destruct opts as [[p n]|]; reflexivity.
Qed.

Lemma run_requests_witness :
  exists s,
    CommandFire.run (fun _ _ => []) 5
      (Shells.run (str "/project") (str "sleep 9")
         (Some {| Shells.ptySize := None; Shells.shellName := Some (str "job") |}))
      ([Command.KillCalled]
       ++ Command.CreateSettled
            (Returned {| dto := {| shellId := str "shell-1"; name := str "sleep";
                                   status := RUNNING; exitCode := None |};
                         buffer := [] |})
          :: [Command.KillCalled; Command.KillCalled])
    = Some s
    /\ Command.calls s
       = [CallCreate (str "/project") DEFAULT_SHELL_SIZE (str "env  sleep 9")
            (str "TERMINAL") true;
          CallRename (str "shell-1") (str "job");
          CallDelete (str "shell-1");
          CallDelete (str "shell-1")].
Proof.
  eexists. split; [vm_compute; reflexivity|].
  exact (proj2 (@run_requests (fun _ _ => []) 5 (str "/project") (str "sleep 9")
           (Some {| Shells.ptySize := None; Shells.shellName := Some (str "job") |})
           [Command.KillCalled]
           {| dto := {| shellId := str "shell-1"; name := str "sleep";
                        status := RUNNING; exitCode := None |};
              buffer := [] |}
           [Command.KillCalled; Command.KillCalled]
           _ eq_refl ltac:(vm_compute; reflexivity))).
Defined.



(* --------------------------------------------------------------------- *)
(** ** Functions that only observe *)
(* --------------------------------------------------------------------- *)

Lemma fire_of_observers (V : Type) (behaviour : Emitter.listener -> V -> list Emitter.action)
  (fuel : nat) (em : Emitter.t) (v : V) :
  (forall l, In l (Emitter.elements (Emitter.registeredListeners em)) ->
             behaviour l v = []) ->
  length (Emitter.registeredListeners em) < fuel ->
  Emitter.fire behaviour fuel em v = Some (em, Emitter.fire_observers em v, Returned tt).
Proof.
  intros Hobs Hlen. destruct em as [d]. simpl in *.
  unfold Emitter.fire, Emitter.fire_observers. simpl.
  pose proof (@forEach_observers_all V behaviour v d [] [] (fuel - length d - 1) Hobs)
    as H.
  replace (length d + S (fuel - length d - 1)) with fuel in H by lia.
  change (length (@nil (option Emitter.listener))) with 0 in H.
  change ([] ++ d) with d in H. rewrite H. reflexivity.
Qed.

Lemma set_onOutput_same (s : Command.t) :
  Command.set_onOutput s (Command.onOutput s) = s.
Proof. destruct s; reflexivity. Qed.

Section Observed.

Variable behaviour : Emitter.listener -> jsstring -> list Emitter.action.
Variable fuel : nat.

Lemma fire_observed (s : Command.t) (v : jsstring) :
  CommandFire.observed behaviour fuel s ->
  CommandFire.fire_onOutput behaviour fuel s v
  = Some (Command.fire_onOutput s v, Returned tt).
Proof.
  intros (Hobs & Hlen). unfold CommandFire.fire_onOutput, Command.fire_onOutput.
  rewrite (@fire_of_observers jsstring behaviour fuel (Command.onOutput s) v);
    [|intros l Hl; apply Hobs; exact Hl | exact Hlen].
  rewrite set_onOutput_same. reflexivity.
Qed.

(** With functions that only observe, the creation of the session and
    the notifications go as in [Command]. *)
Lemma observed_step (s : Command.t) (e : Command.event) :
  CommandFire.observed behaviour fuel s ->
  (forall l, e <> Command.OnOutputCalled l) ->
  CommandFire.step behaviour fuel s e = Some (Command.step s e)
  /\ CommandFire.observed behaviour fuel (Command.step s e).
Proof.
  intros O Hne.
  assert (Keep : forall s', Command.onOutput s' = Command.onOutput s ->
                            CommandFire.observed behaviour fuel s').
  { intros s' E. unfold CommandFire.observed. rewrite E. exact O. }
  assert (Gone : forall s', Emitter.registeredListeners (Command.onOutput s') = [] ->
                            CommandFire.observed behaviour fuel s').
  { intros s' E. unfold CommandFire.observed. rewrite E. split; [intros l v []|].
    destruct O as (_ & L). simpl. lia. }
  destruct e as [r|r|n| | |l|l]; cbn [CommandFire.step Command.step].
  - split; [reflexivity|]. apply Keep.
    destruct (Command.at_ s); try reflexivity.
    destruct r; reflexivity.
  - destruct (Command.at_ s); try (split; [reflexivity | exact O]).
    destruct r as [sh|err]; [|split; [reflexivity | apply Keep; reflexivity]].
    unfold CommandFire.afterCreate, Command.afterCreate. cbv zeta.
    destruct (ShellStatus_eqb (status (dto sh)) FINISHED).
    + split; [reflexivity|]. apply Keep.
      destruct s as [a st em osh co ba f1 f2 f3 cs emi ph pr]. simpl.
      destruct (Command.shellName a) as [n|]; [destruct (truthy n)|]; reflexivity.
    + match goal with
      | |- context [Command.set_combinedOut ?s2 ?j] =>
        set (s3 := Command.set_combinedOut s2 j)
      end.
      assert (O3 : CommandFire.observed behaviour fuel s3).
      { unfold CommandFire.observed, s3.
        destruct s as [a st em osh co ba f1 f2 f3 cs emi ph pr]. simpl in *.
        destruct (Command.shellName a) as [n|]; [destruct (truthy n)|]; exact O. }
      assert (E3 : Command.onOutput s3 = Command.onOutput s).
      { unfold s3. destruct s as [a st em osh co ba f1 f2 f3 cs emi ph pr]. simpl.
        destruct (Command.shellName a) as [n|]; [destruct (truthy n)|]; reflexivity. }
      destruct (truthy (Command.combinedOut s3)).
      * rewrite (fire_observed (Command.combinedOut s3) O3).
        split; [reflexivity|]. apply Keep. simpl. exact E3.
      * split; [reflexivity|]. apply Keep. simpl. exact E3.
  - destruct n as [id out|id code|id].
    + unfold CommandFire.notify, Command.notify.
      destruct (Command.onShellOut s && Command.is_mine s id);
        [|split; [reflexivity | exact O]].
      rewrite (fire_observed out O). split; [reflexivity|]. apply Keep. reflexivity.
    + split; [reflexivity|]. apply Keep. simpl.
      destruct (Command.onShellExited s && Command.is_mine s id); reflexivity.
    + split; [reflexivity|]. apply Keep. simpl.
      destruct (Command.onShellTerminated s && Command.is_mine s id); reflexivity.
  - split; [reflexivity|].
    unfold Command.afterBarrier.
    destruct (Command.at_ s); try exact O.
    destruct (Barrier.wait (Command.barrier s)) as [[v|]|]; try exact O;
      (destruct (dispose_store_fields s) as (_ & _ & _ & _ & _ & [E|E]);
       [apply Keep; simpl; exact E | apply Gone; simpl; exact E]).
  - split; [reflexivity|].
    destruct (kill_fields s) as (_ & _ & _ & _ & K5 & _).
    destruct (dispose_store_fields s) as (_ & _ & _ & _ & _ & [E|E]).
    + apply Keep. rewrite K5. exact E.
    + apply Gone. rewrite K5. exact E.
  - exfalso. apply (Hne l). reflexivity.
  - split; [reflexivity|].
    destruct O as (Hobs & Hlen). split.
    + intros x v Hx. apply Hobs. simpl in Hx.
      rewrite elements_delete in Hx. apply filter_In in Hx. apply Hx.
    + simpl. unfold Emitter.delete. rewrite length_map. exact Hlen.
Qed.

Lemma observed_run (es : list Command.event) :
  forall s,
    CommandFire.observed behaviour fuel s ->
    Forall (fun e => forall l, e <> Command.OnOutputCalled l) es ->
    CommandFire.run behaviour fuel s es = Some (Command.run s es).
Proof.
  induction es as [|e es IH]; intros s O F; [reflexivity|].
  inversion F as [|? ? He Hes]; subst.
  destruct (@observed_step s e O He) as (St & O').
  change (Command.run s (e :: es)) with (Command.run (Command.step s e) es).
  cbn [CommandFire.run]. rewrite St. apply IH; assumption.
Qed.

End Observed.

Lemma creates_listeners (ls : list Emitter.listener) :
  CommandUse.creates (map Command.OnOutputCalled ls) = 0.
Proof. induction ls; [reflexivity | exact IHls]. Qed.

Lemma length_listened (ls : list Emitter.listener) :
  forall em,
    length (Emitter.registeredListeners
              (fold_left (fun em l => fst (Emitter.event em l)) ls em))
    <= length (Emitter.registeredListeners em) + length ls.
Proof.
  induction ls as [|l ls IH]; intros em; [simpl; lia|].
  simpl fold_left. specialize (IH (fst (Emitter.event em l))). simpl in IH |- *.
  pose proof (length_add_le (Emitter.registeredListeners em) l). lia.
Qed.

Lemma observed_after_listeners
  (behaviour : Emitter.listener -> jsstring -> list Emitter.action) (fuel : nat)
  (ws cmd : jsstring) (opts : option Shells.ShellRunOpts) (ls : list Emitter.listener) :
  NoDup ls ->
  (forall l x, In l ls -> behaviour l x = []) ->
  length ls < fuel ->
  CommandFire.observed behaviour fuel
    (Command.run (Shells.run ws cmd opts) (map Command.OnOutputCalled ls)).
Proof.
  intros ND Hobs Hlen.
  destruct (listen_handlers ls (Shells.run ws cmd opts)) as (_ & _ & _ & _ & Lo).
  unfold CommandFire.observed. rewrite Lo. split.
  - intros l x Hl. apply Hobs.
    rewrite elements_listened in Hl; [exact Hl | exact ND].
  - pose proof (length_listened ls (Command.onOutput (Shells.run ws cmd opts))) as L.
    change (length (Emitter.registeredListeners
                      (Command.onOutput (Shells.run ws cmd opts)))) with 0 in L.
    lia.
Qed.

(** X11 (the live stream carries what the result is made of).  For a
    command started with [shells.run], with functions registered on
    [onOutput] before the session is created that only observe what
    they are passed (they return normally and neither register nor
    remove functions), a session that is not reported finished, and
    [kill()] not called: each function is passed, in order, the
    buffered lines joined by newlines as one value if that is not
    empty, then every chunk of the session; the accumulator is the
    concatenation of exactly these values; so when the wait resumes
    after a terminal notification, the output of the result is the
    trimmed concatenation of what each function was passed. *)
Theorem run_live_output_matches_result :
  forall (behaviour : Emitter.listener -> jsstring -> list Emitter.action)
         (fuel : nat) (ws cmd : jsstring) (opts : option Shells.ShellRunOpts)
         (ls : list Emitter.listener) (sh : OpenShellDTO) (ns : list notification)
         (v : option Z),
    NoDup ls ->
    (forall l x, In l ls -> behaviour l x = []) ->
    length ls < fuel ->
    status (dto sh) <> FINISHED ->
    let values := CommandUse.heard (shellId (dto sh)) (buffer sh) ns in
    exists s,
      CommandFire.run behaviour fuel (Shells.run ws cmd opts)
        (map Command.OnOutputCalled ls
         ++ Command.CreateSettled (Returned sh) :: map Command.Notification ns)
      = Some s
      /\ Command.emitted s = CommandUse.delivered ls values
      /\ Command.combinedOut s = concat values
      /\ (Command.first_terminal (shellId (dto sh)) ns = Some v ->
          exists s',
            CommandFire.step behaviour fuel s Command.WaitResumes = Some s'
            /\ Command.resultPromise s'
               = Command.PromiseFulfilled
                   {| Command.output := trim (concat values);
                      Command.resultExitCode := v |}).
Proof.
  intros behaviour fuel ws cmd opts ls sh ns v ND Hobs Hlen Hfin values.
  destruct (shells_run_before_create ws cmd opts) as (B0 & _).
  destruct (@before_create_run behaviour fuel (map Command.OnOutputCalled ls) _ B0
              (creates_listeners ls)) as (R0 & _).
  pose proof (@observed_after_listeners behaviour fuel ws cmd opts ls ND Hobs Hlen) as O.
  assert (F : Forall (fun e => forall l, e <> Command.OnOutputCalled l)
                (Command.CreateSettled (Returned sh) :: map Command.Notification ns)).
  { constructor; [discriminate|]. apply Forall_forall. intros e He.
    apply in_map_iff in He. destruct He as (n & <- & _). discriminate. }
  pose proof (@observed_run behaviour fuel _ _ O F) as R1.
  destruct (@live_output_observed ws cmd opts ls sh ns v ND Hfin) as (E1 & E2 & E3).
  exists (Command.run (Shells.run ws cmd opts)
            (map Command.OnOutputCalled ls
             ++ Command.CreateSettled (Returned sh) :: map Command.Notification ns)).
  split; [|split; [exact E1 | split; [exact E2|]]].
  - rewrite fire_run_app, R0, R1, run_app. reflexivity.
  - intros Ht. eexists. split; [reflexivity | exact (E3 Ht)].
Qed.

Lemma run_live_output_matches_result_witness :
  let sh := {| dto := {| shellId := str "shell-1"; name := str "job";
                         status := RUNNING; exitCode := None |};
               buffer := [str "a"; str "b"] |} in
  let ns := [ShellOut (str "shell-1") (str "c"); ShellExited (str "shell-1") 0] in
  exists s,
    CommandFire.run (fun _ _ => []) 5 (Shells.run (str "/project") (str "job") None)
      (map Command.OnOutputCalled [7]
       ++ Command.CreateSettled (Returned sh) :: map Command.Notification ns)
    = Some s
    /\ Command.emitted s
       = CommandUse.delivered [7] (CommandUse.heard (str "shell-1") [str "a"; str "b"] ns).
Proof.
  cbv zeta.
  destruct (@run_live_output_matches_result (fun _ _ => []) 5
              (str "/project") (str "job") None [7]
              {| dto := {| shellId := str "shell-1"; name := str "job";
                           status := RUNNING; exitCode := None |};
                 buffer := [str "a"; str "b"] |}
              [ShellOut (str "shell-1") (str "c"); ShellExited (str "shell-1") 0]
              (Some 0%Z))
    as (s & R & E & _).
  - repeat constructor. simpl; tauto.
  - reflexivity.
  - simpl; lia.
  - simpl; discriminate.
  - exists s. split; [exact R | exact E].
Defined.

(** A function that throws: the chunk it was passed is missing from the
    result, and the function registered after it is not called. *)
Example throwing_listener_drops_chunk :
  let sh := {| dto := {| shellId := str "shell-1"; name := str "job";
                         status := RUNNING; exitCode := None |};
               buffer := [] |} in
  let behaviour := fun (l : Emitter.listener) (_ : jsstring) =>
                     if Nat.eqb l 7 then [Emitter.Throw (Error (str "boom"))] else [] in
  option_map (fun s => (Command.emitted s, Command.resultPromise s))
    (CommandFire.run behaviour 5 (Shells.run (str "/project") (str "job") None)
       [Command.OnOutputCalled 7; Command.OnOutputCalled 8;
        Command.CreateSettled (Returned sh);
        Command.Notification (ShellOut (str "shell-1") (str "lost"));
        Command.Notification (ShellExited (str "shell-1") 0);
        Command.WaitResumes])
  = Some ([(7, str "lost")],
          Command.PromiseFulfilled
            {| Command.output := []; Command.resultExitCode := Some 0%Z |}).
Proof. reflexivity. Qed.

(** A function that throws on the buffered output: the promise is
    rejected with what it threw and a later exit does not reach the
    command. *)
Example throwing_listener_rejects_at_creation :
  let sh := {| dto := {| shellId := str "shell-1"; name := str "job";
                         status := RUNNING; exitCode := None |};
               buffer := [str "ready"] |} in
  option_map Command.resultPromise
    (CommandFire.run (fun _ _ => [Emitter.Throw (Error (str "boom"))]) 5
       (Shells.run (str "/project") (str "job") None)
       [Command.OnOutputCalled 7;
        Command.CreateSettled (Returned sh);
        Command.Notification (ShellExited (str "shell-1") 0);
        Command.WaitResumes])
  = Some (Command.PromiseRejected (Error (str "boom"))).
Proof. reflexivity. Qed.

(* --------------------------------------------------------------------- *)
(** ** A shell handle and the functions registered on its events *)
(* --------------------------------------------------------------------- *)

Section ShellObserved.

Variable onOutput : Emitter.listener -> jsstring -> list Emitter.action.
Variable onShellUpdated : Emitter.listener -> unit -> list Emitter.action.
Variable fuel : nat.

(** With functions that only observe, a shell handle goes as in
    [ShellInstance]. *)
Lemma shell_observed_step (s : ShellInstance.t) (e : ShellInstance.event) :
  ShellInstanceFire.observed onOutput onShellUpdated fuel s ->
  ShellInstanceFire.step onOutput onShellUpdated fuel s e
  = Some (ShellInstance.step s e)
  /\ ShellInstanceFire.observed onOutput onShellUpdated fuel (ShellInstance.step s e).
Proof.
  intros (O1 & O2 & L1 & L2).
  assert (O : ShellInstanceFire.observed onOutput onShellUpdated fuel s)
    by (repeat split; assumption).
  destruct e as [shells|id out|]; cbn [ShellInstanceFire.step ShellInstance.step].
  - unfold ShellInstanceFire.handleShellsUpdated, ShellInstance.handleShellsUpdated.
    destruct (ShellInstance.onShellsUpdated s); [|split; [reflexivity | exact O]].
    destruct (find _ shells) as [u|]; [|split; [reflexivity | exact O]].
    rewrite (@fire_of_observers unit onShellUpdated fuel
               (ShellInstance.onShellUpdatedEmitter s) tt);
      [|intros l Hl; apply O2; exact Hl | exact L2].
    split; [reflexivity | exact O].
  - unfold ShellInstanceFire.handleShellOut, ShellInstance.handleShellOut.
    destruct (ShellInstance.onShellOut s && JS.eqb id (shellId (ShellInstance.shell s)));
      [|split; [reflexivity | exact O]].
    rewrite (@fire_of_observers jsstring onOutput fuel
               (ShellInstance.onShellOutputEmitter s) out);
      [|intros l Hl; apply O1; exact Hl | exact L1].
    split; [reflexivity | exact O].
  - split; [reflexivity|]. unfold ShellInstance.dispose.
    destruct (ShellInstance.isDisposed s); [exact O|].
    unfold ShellInstanceFire.observed. simpl.
    repeat split; try (intros l v []); lia.
Qed.

Lemma shell_observed_run (es : list ShellInstance.event) :
  forall s,
    ShellInstanceFire.observed onOutput onShellUpdated fuel s ->
    ShellInstanceFire.run onOutput onShellUpdated fuel s es
    = Some (ShellInstance.run s es).
Proof.
  induction es as [|e es IH]; intros s O; [reflexivity|].
  destruct (@shell_observed_step s e O) as (St & O').
  change (ShellInstance.run s (e :: es))
    with (ShellInstance.run (ShellInstance.step s e) es).
  cbn [ShellInstanceFire.run]. rewrite St. apply IH. exact O'.
Qed.

End ShellObserved.


Lemma watched_emitters (sh : ShellDTO) (buf : option (list jsstring))
  (ls : list Emitter.listener) :
  ShellInstance.onShellUpdatedEmitter (ShellHandle.watched sh buf ls)
  = fold_left (fun em l => fst (Emitter.event em l)) ls Emitter.new
  /\ ShellInstance.onShellOutputEmitter (ShellHandle.watched sh buf ls) = Emitter.new.
Proof.
  unfold ShellHandle.watched.
  assert (G : forall ls s,
             ShellInstance.onShellUpdatedEmitter (fold_left ShellHandle.onShellUpdated ls s)
             = fold_left (fun em l => fst (Emitter.event em l)) ls
                 (ShellInstance.onShellUpdatedEmitter s)
             /\ ShellInstance.onShellOutputEmitter
                  (fold_left ShellHandle.onShellUpdated ls s)
                = ShellInstance.onShellOutputEmitter s).
  { clear. induction ls as [|l ls IH]; intros s; [split; reflexivity|].
    simpl fold_left. destruct (IH (ShellHandle.onShellUpdated s l)) as [H1 H2].
    rewrite H1, H2. split; reflexivity. }
  apply (G ls (ShellInstance.new sh buf)).
Qed.



(** A function that throws on a chunk: the function registered after it
    is not called, and the chunk is missing from [getOutput()]. *)
Example throwing_listener_loses_output :
  let behaviour := fun (l : Emitter.listener) (out : jsstring) =>
                     if JS.eqb out (str "bad") then [Emitter.Throw (Error (str "boom"))]
                     else [] in
  option_map (fun s => (ShellInstance.emittedOutput s, ShellInstance.getOutput s))
    (ShellInstanceFire.run behaviour (fun _ _ => []) 5
       (ShellHandle.listened
          {| shellId := str "shell-1"; name := str "bash";
             status := RUNNING; exitCode := None |} None [1; 2])
       [ShellInstance.Out (str "shell-1") (str "a");
        ShellInstance.Out (str "shell-1") (str "bad");
        ShellInstance.Out (str "shell-1") (str "b")])
  = Some ([(1, str "a"); (2, str "a"); (1, str "bad"); (1, str "b"); (2, str "b")],
          str "a" ++ newline ++ str "b").
Proof. reflexivity. Qed.

Section ShellFollows.

Variable onOutput : Emitter.listener -> jsstring -> list Emitter.action.
Variable onShellUpdated : Emitter.listener -> unit -> list Emitter.action.
Variable fuel : nat.

Lemma disposed_fire_run (es : list ShellInstance.event) :
  forall s,
    ShellInstance.isDisposed s = true ->
    ShellInstance.onShellsUpdated s = false ->
    ShellInstance.onShellOut s = false ->
    ShellInstanceFire.run onOutput onShellUpdated fuel s es = Some s.
Proof.
  induction es as [|e es IH]; intros s D H1 H2; [reflexivity|].
  cbn [ShellInstanceFire.run].
  assert (St : ShellInstanceFire.step onOutput onShellUpdated fuel s e = Some s).
  { destruct e as [shells|id out|]; cbn [ShellInstanceFire.step].
    - unfold ShellInstanceFire.handleShellsUpdated. rewrite H1. reflexivity.
    - unfold ShellInstanceFire.handleShellOut. rewrite H2. reflexivity.
    - unfold ShellInstance.dispose. rewrite D. reflexivity. }
  rewrite St. apply IH; assumption.
Qed.

(** Whatever the registered functions do, the record of a handle is
    replaced by every update that lists its shell. *)
Lemma follows_fire_run (id : Id) (es : list ShellInstance.event) :
  forall s s',
    shellId (ShellInstance.shell s) = id ->
    ShellInstance.onShellsUpdated s = true ->
    ShellInstance.isDisposed s = false ->
    ShellInstanceFire.run onOutput onShellUpdated fuel s es = Some s' ->
    ShellInstance.shell s' = last (ShellHandle.updates_for id es) (ShellInstance.shell s).
Proof.
  induction es as [|e es IH]; intros s s' Hid Hon Hdis R.
  - inversion R; reflexivity.
  - cbn [ShellInstanceFire.run] in R.
    destruct e as [shells|i out|];
      cbn [ShellInstanceFire.step ShellHandle.updates_for] in R |- *.
    + unfold ShellInstanceFire.handleShellsUpdated in R. rewrite Hon, Hid in R.
      destruct (find (fun x => JS.eqb (shellId x) id) shells) as [u|] eqn:E.
      * destruct (Emitter.fire onShellUpdated fuel
                    (ShellInstance.onShellUpdatedEmitter s) tt) as [[[em log] c]|];
          [|discriminate].
        apply find_some in E. destruct E as [_ E]. apply jseqb_eq in E.
        rewrite last_cons_default.
        refine (IH _ s' _ _ _ R); [exact E | reflexivity | exact Hdis].
      * apply (IH s s' Hid Hon Hdis R).
    + unfold ShellInstanceFire.handleShellOut in R.
      destruct (ShellInstance.onShellOut s && JS.eqb i (shellId (ShellInstance.shell s))).
      * destruct (Emitter.fire onOutput fuel
                    (ShellInstance.onShellOutputEmitter s) out) as [[[em log] c]|];
          [|discriminate].
        refine (IH _ s' _ _ _ R); [exact Hid | exact Hon | exact Hdis].
      * apply (IH s s' Hid Hon Hdis R).
    + rewrite disposed_fire_run in R.
      * inversion R. unfold ShellInstance.dispose. rewrite Hdis. reflexivity.
      * unfold ShellInstance.dispose. rewrite Hdis. reflexivity.
      * unfold ShellInstance.dispose. rewrite Hdis. reflexivity.
      * unfold ShellInstance.dispose. rewrite Hdis. reflexivity.
Qed.

End ShellFollows.

Lemma latest_update_id (sh : ShellDTO) (es : list ShellInstance.event) :
  forall d, shellId d = shellId sh ->
            shellId (last (ShellHandle.updates_for (shellId sh) es) d) = shellId sh.
Proof.
  induction es as [|e es IH]; intros d Hd; [exact Hd|].
  destruct e as [shells|i out|]; cbn [ShellHandle.updates_for].
  - destruct (find _ shells) as [u|] eqn:E; [|apply IH; exact Hd].
    rewrite last_cons_default. apply IH.
    apply find_some in E. destruct E as [_ E]. apply jseqb_eq in E. exact E.
  - apply IH; exact Hd.
  - exact Hd.
Qed.

(** X14 (a shell handle follows the updates of its shell).  With
    functions registered on [onShellUpdated] of a new shell handle,
    whatever they do: the record behind the getters [name], [status]
    and [exitCode] is, at any time, the entry of the latest update
    batch that listed the handle's shell before [dispose()] (the first
    such entry of that batch), and the record the handle was created
    with when there was none; the id never changes.  And when the
    functions only observe (they return normally and neither register
    nor remove functions), each of them has been called once for every
    such batch, in arrival order, and for no other batch. *)
Theorem shell_handle_follows_updates :
  forall (onOutput : Emitter.listener -> jsstring -> list Emitter.action)
         (onShellUpdated : Emitter.listener -> unit -> list Emitter.action)
         (fuel : nat) (sh : ShellDTO) (buf : option (list jsstring))
         (ls : list Emitter.listener) (es : list ShellInstance.event),
    NoDup ls ->
    let latest := last (ShellHandle.updates_for (shellId sh) es) sh in
    (forall s,
       ShellInstanceFire.run onOutput onShellUpdated fuel
         (ShellHandle.watched sh buf ls) es = Some s ->
       ShellHandle.name s = name latest
       /\ ShellHandle.status s = status latest
       /\ ShellHandle.exitCode s = exitCode latest
       /\ ShellHandle.id s = shellId sh)
    /\ ((forall l x, In l ls -> onShellUpdated l x = []) ->
        length ls < fuel ->
        exists s,
          ShellInstanceFire.run onOutput onShellUpdated fuel
            (ShellHandle.watched sh buf ls) es = Some s
          /\ ShellInstance.emittedUpdated s
             = flat_map (fun _ => map (fun l => (l, tt)) ls)
                        (ShellHandle.updates_for (shellId sh) es)).
Proof.
  intros onOutput onShellUpdated fuel sh buf ls es ND latest.
  destruct (watched_start sh buf ls) as (Hd & Hon & Hsh & Hem & Hl).
  split.
  - intros s R.
    pose proof (@follows_fire_run onOutput onShellUpdated fuel (shellId sh) es
                  (ShellHandle.watched sh buf ls) s
                  ltac:(rewrite Hsh; reflexivity) Hon Hd R) as F.
    rewrite Hsh in F. fold latest in F.
    unfold ShellHandle.name, ShellHandle.status, ShellHandle.exitCode, ShellHandle.id.
    rewrite F. repeat split; try reflexivity.
    apply latest_update_id. reflexivity.
  - intros Hobs Hlen.
    destruct (watched_emitters sh buf ls) as (E1 & E2).
    assert (O : ShellInstanceFire.observed onOutput onShellUpdated fuel
                  (ShellHandle.watched sh buf ls)).
    { unfold ShellInstanceFire.observed. rewrite E1, E2. repeat split.
      - intros l x [].
      - intros l x Hin. apply Hobs.
        rewrite elements_listened in Hin; [exact Hin | exact ND].
      - change (length (Emitter.registeredListeners Emitter.new)) with 0. lia.
      - pose proof (length_listened ls Emitter.new) as L.
        change (length (Emitter.registeredListeners Emitter.new)) with 0 in L. lia. }
    exists (ShellInstance.run (ShellHandle.watched sh buf ls) es).
    split; [apply shell_observed_run; exact O|].
    apply (@follows_updates_observed sh buf ls es ND).
Qed.

Lemma shell_handle_follows_updates_witness :
  let sh := {| shellId := str "shell-1"; name := str "bash";
               status := RUNNING; exitCode := None |} in
  let done := {| shellId := str "shell-1"; name := str "bash";
                 status := FINISHED; exitCode := Some 0%Z |} in
  let other := {| shellId := str "shell-2"; name := str "zsh";
                  status := KILLED; exitCode := None |} in
  let boom := fun (_ : Emitter.listener) (_ : unit) =>
                [Emitter.Throw (Error (str "boom"))] in
  exists s,
    ShellInstanceFire.run (fun _ _ => []) boom 5 (ShellHandle.watched sh None [1])
      [ShellInstance.ShellsUpdated [other];
       ShellInstance.ShellsUpdated [other; done];
       ShellInstance.DisposeCalled;
       ShellInstance.ShellsUpdated [sh]]
    = Some s
    /\ ShellHandle.status s = FINISHED.
Proof.
  cbv zeta. eexists. split; [vm_compute; reflexivity|].
  refine (proj1 (proj2 (proj1 (@shell_handle_follows_updates
            (fun _ _ => []) (fun _ _ => [Emitter.Throw (Error (str "boom"))]) 5
            {| shellId := str "shell-1"; name := str "bash";
               status := RUNNING; exitCode := None |} None [1]
            [ShellInstance.ShellsUpdated
               [ {| shellId := str "shell-2"; name := str "zsh";
                    status := KILLED; exitCode := None |} ];
             ShellInstance.ShellsUpdated
               [ {| shellId := str "shell-2"; name := str "zsh";
                    status := KILLED; exitCode := None |};
                 {| shellId := str "shell-1"; name := str "bash";
                    status := FINISHED; exitCode := Some 0%Z |} ];
             ShellInstance.DisposeCalled;
             ShellInstance.ShellsUpdated
               [ {| shellId := str "shell-1"; name := str "bash";
                    status := RUNNING; exitCode := None |} ]] _) _ _))).
  - repeat constructor. simpl; tauto.
  - vm_compute; reflexivity.
Defined.

(* --------------------------------------------------------------------- *)
(** ** interpreter.run *)
(* --------------------------------------------------------------------- *)

Lemma after_run (es : list LanguageInterpreter.event) :
  forall c,
    LanguageInterpreter.after c es
    = Command.run c (map LanguageInterpreter.to_command es).
Proof.
  induction es as [|e es IH]; intros c; [reflexivity|].
  change (LanguageInterpreter.after c (e :: es))
    with (LanguageInterpreter.after (LanguageInterpreter.step c e) es).
  rewrite IH. reflexivity.
Qed.

Lemma after_app (es es' : list LanguageInterpreter.event) (c : Command.t) :
  LanguageInterpreter.after c (es ++ es')
  = LanguageInterpreter.after (LanguageInterpreter.after c es) es'.
Proof. unfold LanguageInterpreter.after. apply fold_left_app. Qed.

Lemma kills_interpreter (es : list LanguageInterpreter.event) :
  CommandUse.kills (map LanguageInterpreter.to_command es) = 0.
Proof. induction es as [|[w|r|n|] es IH]; simpl; exact IH || reflexivity. Qed.

(** Without [kill()] and without a shell name, nothing is sent once the
    create request is out. *)
Lemma no_kill_calls (es : list Command.event) (s : Command.t) :
  CommandUse.before_create s ->
  Command.shellName (Command.params s) = None ->
  CommandUse.kills es = 0 ->
  Command.calls (Command.run s es) = Command.calls s.
Proof.
  intros B Hn Hk.
  destruct (split_at_create es) as [Hc|(es0 & r & es1 & E & Hc)].
  - apply (@before_create_run (fun _ _ => []) 0 es s B Hc).
  - subst es. rewrite kills_app in Hk.
    assert (Hk1 : CommandUse.kills es1 = 0) by (simpl in Hk; lia).
    destruct (@before_create_run (fun _ _ => []) 0 es0 s B Hc)
      as (_ & B' & C0 & _ & _ & P0 & _).
    rewrite run_app.
    set (s0 := Command.run s es0) in *.
    change (Command.run s0 (Command.CreateSettled r :: es1))
      with (Command.run (Command.step s0 (Command.CreateSettled r)) es1).
    assert (Hat0 : Command.at_ s0 = Command.AwaitCreate) by apply B'.
    cbn [Command.step]. rewrite Hat0.
    destruct r as [sh|e].
    + destruct (afterCreate_created s0 sh) as [Cr Ca].
      rewrite (@created_calls sh es1 _ Cr), Ca, Hk1, P0, Hn, C0.
      simpl. rewrite !app_nil_r. reflexivity.
    + rewrite no_shell_run; [exact C0 | reflexivity | apply B'].
Qed.

Lemma await_write_step (s : Command.t) (e : LanguageInterpreter.event) :
  Command.at_ s = Command.AwaitPreCommand ->
  Command.onShellOut s = false -> Command.onShellExited s = false ->
  Command.onShellTerminated s = false ->
  (forall w, e <> LanguageInterpreter.WriteSettled w) ->
  LanguageInterpreter.step s e = s.
Proof.
  intros Hat F1 F2 F3 Hne. unfold LanguageInterpreter.step.
  destruct e as [w|r|n|]; cbn [LanguageInterpreter.to_command Command.step].
  - exfalso. apply (Hne w). reflexivity.
  - rewrite Hat. reflexivity.
  - destruct n; simpl; rewrite ?F1, ?F2, ?F3; reflexivity.
  - unfold Command.afterBarrier. rewrite Hat. reflexivity.
Qed.

Lemma await_write_after (es : list LanguageInterpreter.event) (s : Command.t) :
  Command.at_ s = Command.AwaitPreCommand ->
  Command.onShellOut s = false -> Command.onShellExited s = false ->
  Command.onShellTerminated s = false ->
  Forall (fun e => forall w, e <> LanguageInterpreter.WriteSettled w) es ->
  LanguageInterpreter.after s es = s.
Proof.
  intros Hat F1 F2 F3 F. induction F as [|e es He Hes IH]; [reflexivity|].
  change (LanguageInterpreter.after s (e :: es))
    with (LanguageInterpreter.after (LanguageInterpreter.step s e) es).
  rewrite (@await_write_step s e Hat F1 F2 F3 He). exact IH.
Qed.

(** X15 (the requests of an interpreter run).  [interpreter.run(code)]
    hands out a promise only, so the command it starts is never
    killed.  It sends the write of the temporary file, with the code
    as content and both flags set, and nothing else until that write
    has settled; once the write has succeeded, the requests sent over
    the whole life of the command are that write and the create
    request, whose command is [env], the variables of the interpreter
    as [key=value] joined by spaces, the runtime and the very file that
    was written, with the default size.  No rename request and no
    delete request is ever sent. *)
Theorem interpreter_run_requests :
  forall (ws : jsstring) (opts : LanguageInterpreter.ILanguageInterpreterOpts)
         (randomString code : jsstring)
         (es0 es : list LanguageInterpreter.event),
    Forall (fun e => forall w, e <> LanguageInterpreter.WriteSettled w) es0 ->
    let file := LanguageInterpreter.tmpFileName opts randomString in
    let c := LanguageInterpreter.run ws opts randomString code in
    let write := CallWriteFile file code true true in
    let create :=
      CallCreate ws DEFAULT_SHELL_SIZE
        (str "env "
         ++ join (str " ")
              (map (fun kv => fst kv ++ str "=" ++ snd kv)
                   (LanguageInterpreter.env opts))
         ++ str " " ++ LanguageInterpreter.runtime opts ++ str " " ++ file)
        (str "TERMINAL") true in
    Command.calls (LanguageInterpreter.after c es0) = [write]
    /\ Command.calls
         (LanguageInterpreter.after c
            (es0 ++ LanguageInterpreter.WriteSettled
                      (Returned LanguageInterpreter.WriteOk) :: es))
       = [write; create].
Proof.
  intros ws opts randomString code es0 es F file c write create.
  assert (E0 : LanguageInterpreter.after c es0 = c)
    by (apply await_write_after; try reflexivity; exact F).
  split; [rewrite E0; reflexivity|].
  rewrite after_app, E0.
  change (LanguageInterpreter.after c
            (LanguageInterpreter.WriteSettled (Returned LanguageInterpreter.WriteOk) :: es))
    with (LanguageInterpreter.after
            (LanguageInterpreter.step c
               (LanguageInterpreter.WriteSettled (Returned LanguageInterpreter.WriteOk)))
            es).
  rewrite after_run.
  rewrite no_kill_calls.
  - reflexivity.
  - repeat split; reflexivity.
  - reflexivity.
  - apply kills_interpreter.
Qed.

Lemma interpreter_run_requests_witness :
  Command.calls
    (LanguageInterpreter.after
       (LanguageInterpreter.run (str "/project") LanguageInterpreter.js
          (str "k3x9") (str "1+1"))
       ([LanguageInterpreter.Notification (ShellOut (str "other") (str "zz"))]
        ++ LanguageInterpreter.WriteSettled (Returned LanguageInterpreter.WriteOk)
           :: [LanguageInterpreter.CreateSettled
                 (Returned {| dto := {| shellId := str "shell-1"; name := str "node";
                                        status := RUNNING; exitCode := None |};
                              buffer := [] |});
               LanguageInterpreter.Notification (ShellExited (str "shell-1") 0);
               LanguageInterpreter.WaitResumes]))
  = [CallWriteFile (str "/tmp/tmp.k3x9.js") (str "1+1") true true;
     CallCreate (str "/project") DEFAULT_SHELL_SIZE
       (str "env NO_COLOR=true node /tmp/tmp.k3x9.js") (str "TERMINAL") true].
Proof.
  refine (proj2 (@interpreter_run_requests (str "/project") LanguageInterpreter.js
            (str "k3x9") (str "1+1")
            [LanguageInterpreter.Notification (ShellOut (str "other") (str "zz"))]
            [LanguageInterpreter.CreateSettled
               (Returned {| dto := {| shellId := str "shell-1"; name := str "node";
                                      status := RUNNING; exitCode := None |};
                            buffer := [] |});
             LanguageInterpreter.Notification (ShellExited (str "shell-1") 0);
             LanguageInterpreter.WaitResumes] _)).
  repeat constructor; discriminate.
Defined.

(* --------------------------------------------------------------------- *)
(** ** Before the session exists *)
(* --------------------------------------------------------------------- *)

Lemma shell_some_step (s : Command.t) (e : Command.event) :
  Command.shell s <> None -> Command.shell (Command.step s e) <> None.
Proof.
  intros H. destruct e as [r|r|n| | |l|l]; cbn [Command.step].
  - destruct (Command.at_ s); try exact H. destruct r; exact H.
  - destruct (Command.at_ s); try exact H.
    destruct r as [sh|err]; [|exact H].
    destruct (afterCreate_created s sh) as [[X _] _]. rewrite X. discriminate.
  - destruct n; simpl;
      match goal with |- context [if ?c then _ else _] => destruct c end; exact H.
  - unfold Command.afterBarrier.
    destruct (Command.at_ s); try exact H.
    destruct (Barrier.wait (Command.barrier s)) as [[v|]|]; try exact H;
      simpl; destruct (dispose_store_promise s) as (_ & _ & X & _); rewrite X; exact H.
  - unfold Command.kill.
    destruct (dispose_store_promise s) as (_ & _ & X & _).
    destruct (Command.shell (Command.dispose_store s)) eqn:E;
      [simpl; rewrite E; discriminate | rewrite <- X in H; contradiction].
  - exact H.
  - exact H.
Qed.

(** No session is known, no handler is registered, and the body does
    not wait on the barrier. *)
Lemma unborn_step (s : Command.t) (e : Command.event) :
  Command.shell s = None ->
  Command.onShellOut s = false -> Command.onShellExited s = false ->
  Command.onShellTerminated s = false ->
  Command.at_ s <> Command.AwaitBarrier ->
  Command.shell (Command.step s e) = None ->
  (Command.onShellOut (Command.step s e) = false
   /\ Command.onShellExited (Command.step s e) = false
   /\ Command.onShellTerminated (Command.step s e) = false)
  /\ Command.at_ (Command.step s e) <> Command.AwaitBarrier
  /\ (CommandUse.kills [e] = 0 ->
      Command.disposableStore (Command.step s e) = Command.disposableStore s).
Proof.
  intros Hsh F1 F2 F3 Hat.
  destruct e as [r|r|n| | |l|l]; cbn [Command.step].
  - destruct (Command.at_ s) eqn:A; try (intros _; repeat split; auto; congruence).
    destruct r; intros _; simpl; repeat split; auto; discriminate.
  - destruct (Command.at_ s) eqn:A; try (intros _; repeat split; auto; congruence).
    destruct r as [sh|err].
    + destruct (afterCreate_created s sh) as [[X _] _]. rewrite X. discriminate.
    + intros _; simpl; repeat split; auto; discriminate.
  - destruct n; simpl; rewrite ?F1, ?F2, ?F3; simpl; intros _; repeat split; auto.
  - unfold Command.afterBarrier.
    destruct (Command.at_ s) eqn:A; try (intros _; repeat split; auto; congruence).
  - intros _.
    destruct (kill_fields s) as (K1 & K2 & K3 & _).
    destruct (kill_promise s) as (_ & P2).
    destruct (dispose_store_flags_off s F1 F2 F3) as (D1 & D2 & D3).
    rewrite K1, K2, K3, P2. repeat split; auto. discriminate.
  - intros _; simpl; repeat split; auto.
  - intros _; simpl; repeat split; auto.
Qed.

Section Unborn.

Variable behaviour : Emitter.listener -> jsstring -> list Emitter.action.
Variable fuel : nat.

Lemma shell_some_fire_run (es : list Command.event) :
  forall s s',
    Command.shell s <> None ->
    CommandFire.run behaviour fuel s es = Some s' ->
    Command.shell s' <> None.
Proof.
  induction es as [|e es IH]; intros s s' H R.
  - inversion R; subst; exact H.
  - cbn [CommandFire.run] in R.
    destruct (CommandFire.step behaviour fuel s e) as [s1|] eqn:St; [|discriminate].
    apply (IH s1 s'); [|exact R].
    destruct (step_control _ _ _ _ St)
      as [C|(sh & err & _ & _ & _ & _ & _ & X & _)]; [|rewrite X; discriminate].
    destruct (control_fields C) as (_ & _ & C3 & _). rewrite C3.
    apply shell_some_step. exact H.
Qed.

Lemma unborn_fire_step (s s' : Command.t) (e : Command.event) :
  Command.onShellOut s = false ->
  CommandFire.step behaviour fuel s e = Some s' ->
  Command.shell s' = None ->
  s' = Command.step s e.
Proof.
  intros F1 St Hs'.
  destruct e as [r|r|n| | |l|l];
    try (match type of St with
         | CommandFire.step _ _ _ ?e = _ =>
           rewrite (@step_no_fire behaviour fuel s e F1 (or_intror eq_refl)) in St
         end;
         injection St as <-; reflexivity).
  cbn [CommandFire.step] in St. cbn [Command.step].
  destruct (Command.at_ s) eqn:A; try (injection St as <-; reflexivity).
  destruct r as [sh|err];
    [|unfold CommandFire.afterCreate in St; injection St as <-; reflexivity].
  exfalso. destruct (@afterCreate_fire_created behaviour fuel s s' sh St) as [[X _] _].
  rewrite X in Hs'. discriminate.
Qed.

Lemma unborn_fire_run (es : list Command.event) :
  forall s s',
    Command.shell s = None ->
    Command.onShellOut s = false -> Command.onShellExited s = false ->
    Command.onShellTerminated s = false ->
    Command.at_ s <> Command.AwaitBarrier ->
    CommandFire.run behaviour fuel s es = Some s' ->
    Command.shell s' = None ->
    (Command.onShellOut s' = false /\ Command.onShellExited s' = false
     /\ Command.onShellTerminated s' = false)
    /\ (CommandUse.kills es = 0 ->
        Command.disposableStore s' = Command.disposableStore s).
Proof.
  induction es as [|e es IH]; intros s s' Hsh F1 F2 F3 Hat R Hs'.
  - inversion R; subst. repeat split; auto.
  - cbn [CommandFire.run] in R.
    destruct (CommandFire.step behaviour fuel s e) as [s1|] eqn:St; [|discriminate].
    destruct (Command.shell s1) as [x|] eqn:E1.
    { exfalso. apply (@shell_some_fire_run es s1 s'); [rewrite E1; discriminate | exact R | exact Hs']. }
    pose proof (@unborn_fire_step s s1 e F1 St E1) as Eq. subst s1.
    destruct (@unborn_step s e Hsh F1 F2 F3 Hat E1) as ((G1 & G2 & G3) & Hat1 & Hst).
    destruct (IH _ s' E1 G1 G2 G3 Hat1 R Hs') as (Fl & Hst').
    split; [exact Fl|]. intros Hk.
    assert (Hk1 : CommandUse.kills [e] = 0) by (destruct e; simpl in *; lia || reflexivity).
    assert (Hk2 : CommandUse.kills es = 0) by (destruct e; simpl in *; lia || assumption).
    rewrite (Hst' Hk2). apply Hst. exact Hk1.
Qed.

End Unborn.

Lemma runCommandAsUser_unborn (a : Command.args) :
  Command.shell (Command.runCommandAsUser a) = None
  /\ Command.onShellOut (Command.runCommandAsUser a) = false
  /\ Command.onShellExited (Command.runCommandAsUser a) = false
  /\ Command.onShellTerminated (Command.runCommandAsUser a) = false
  /\ Command.at_ (Command.runCommandAsUser a) <> Command.AwaitBarrier
  /\ Command.disposableStore (Command.runCommandAsUser a)
     = {| Command.isDisposed := false; Command.toDispose := [Command.ItemOnOutput] |}.
Proof.
  unfold Command.runCommandAsUser.
  destruct (Command.runPreCommand a) as [requests|];
    [|repeat split; try reflexivity; discriminate].
  assert (G : forall rq s,
             Command.onShellOut (fold_left Command.send rq s) = Command.onShellOut s
             /\ Command.onShellExited (fold_left Command.send rq s)
                = Command.onShellExited s
             /\ Command.onShellTerminated (fold_left Command.send rq s)
                = Command.onShellTerminated s).
  { induction rq as [|c rq IH]; intros s; [repeat split; reflexivity|].
    simpl fold_left. destruct (IH (Command.send s c)) as (H1 & H2 & H3).
    rewrite H1, H2, H3. repeat split; reflexivity. }
  match goal with
  | |- context [fold_left Command.send requests ?s0] =>
    destruct (fold_left_send requests s0) as (H1 & _ & H3 & _);
    destruct (G requests s0) as (G1 & G2 & G3)
  end.
  simpl. rewrite H1, H3, G1, G2, G3. repeat split; try reflexivity. discriminate.
Qed.

(** C10 (a failing pre-command; kill() before the session exists).
    When [runCommandAsUser] is given a pre-command and the promise of
    the pre-command rejects with [e], the command promise is rejected
    with [e]; the only requests ever sent are those of the pre-command,
    so no session is created, then or later, and no function registered
    on [onOutput] is called.  This is the case of [interpreter.run(code)]
    when writing the temporary file fails, be it by an error answer (the
    error then is [errno: error], the number in decimal digits) or by a
    rejected request.  And for any arguments, with or without a
    pre-command, whatever functions are registered on [onOutput] and
    whatever has happened so far: as long as no session is known, no
    handler is registered on the notification streams, and [kill()]
    sends no request, leaves the promise as it is, registers nothing
    and leaves the store disposed; when it is the first [kill()], it
    empties the live-output emitter and the store. *)
Theorem runCommandAsUser_preCommand_fails :
  forall (behaviour : Emitter.listener -> jsstring -> list Emitter.action)
         (fuel : nat)
         (ws cmd : jsstring) (size : ShellSize) (requests : list remote_call)
         (env : option (list (jsstring * jsstring))) (shellName : option jsstring)
         (e : error) (es : list Command.event)
         (opts : LanguageInterpreter.ILanguageInterpreterOpts)
         (randomString code : jsstring) (errno : Z) (msg : jsstring)
         (ies : list LanguageInterpreter.event)
         (b : Command.args) (hs : list Command.event) (s : Command.t),
    (Z.abs errno < 10 ^ 21)%Z ->
    let a := {| Command.workspacePath := ws; Command.command := cmd;
                Command.shellSize := size;
                Command.runPreCommand := Some requests;
                Command.env := env; Command.shellName := shellName |} in
    let failed := Command.step (Command.runCommandAsUser a)
                    (Command.PreCommandSettled (Threw e)) in
    let written w :=
      LanguageInterpreter.after
        (LanguageInterpreter.step
           (LanguageInterpreter.run ws opts randomString code)
           (LanguageInterpreter.WriteSettled w)) ies in
    let writeFile := CallWriteFile (LanguageInterpreter.tmpFileName opts randomString)
                       code true true in
    (CommandFire.run behaviour fuel failed es = Some (Command.run failed es)
     /\ Command.resultPromise (Command.run failed es) = Command.PromiseRejected e
     /\ Command.calls (Command.run failed es) = requests
     /\ Command.emitted (Command.run failed es) = [])
    /\ (LanguageInterpreter.promise
          (written (Returned (LanguageInterpreter.WriteError errno msg)))
        = Command.PromiseRejected (Error (of_int errno ++ str ": " ++ msg))
        /\ Command.calls (written (Returned (LanguageInterpreter.WriteError errno msg)))
           = [writeFile])
    /\ (LanguageInterpreter.promise (written (Threw e)) = Command.PromiseRejected e
        /\ Command.calls (written (Threw e)) = [writeFile])
    /\ (CommandFire.run behaviour fuel (Command.runCommandAsUser b) hs = Some s ->
        Command.shell s = None ->
        let k := Command.kill s in
        (Command.onShellOut s = false /\ Command.onShellExited s = false
         /\ Command.onShellTerminated s = false)
        /\ CommandFire.step behaviour fuel s Command.KillCalled = Some k
        /\ Command.calls k = Command.calls s
        /\ Command.resultPromise k = Command.resultPromise s
        /\ Command.shell k = None
        /\ (Command.onShellOut k = false /\ Command.onShellExited k = false
            /\ Command.onShellTerminated k = false)
        /\ Command.isDisposed (Command.disposableStore k) = true
        /\ (CommandUse.kills hs = 0 ->
            Emitter.registeredListeners (Command.onOutput k) = []
            /\ Command.disposableStore k
               = {| Command.isDisposed := true; Command.toDispose := [] |})).
Proof.
  intros behaviour fuel ws cmd size requests env shellName e es opts randomString
         code errno msg ies b hs s _ a failed written writeFile.
  assert (Ha : Command.runPreCommand a = Some requests) by reflexivity.
  split; [|split; [|split]].
  - destruct (preCommand_failed a e es Ha) as (P & C).
    fold failed in P, C.
    destruct (runCommandAsUser_preCommand a Ha) as (_ & D & _).
    destruct (runCommandAsUser_unborn a) as (_ & F1 & F2 & F3 & _).
    assert (G : forall rq s1, Command.emitted (fold_left Command.send rq s1)
                              = Command.emitted s1).
    { induction rq as [|c rq IH]; intros s1; [reflexivity|].
      simpl fold_left. rewrite IH. reflexivity. }
    assert (Em : Command.emitted (Command.runCommandAsUser a) = []).
    { unfold Command.runCommandAsUser. rewrite Ha.
      unfold Command.suspend. simpl. apply G. }
    assert (Fd : failed = Command.settle (Command.runCommandAsUser a)
                            (Command.PromiseRejected e)).
    { unfold failed. cbn [Command.step]. rewrite D. reflexivity. }
    assert (Q : CommandUse.quiet failed).
    { rewrite Fd. unfold CommandUse.quiet, Command.settle. simpl.
      repeat split; try assumption. right; reflexivity. }
    destruct (@quiet_fire_run behaviour fuel es failed Q) as (R & _ & E).
    split; [exact R | split; [exact P | split; [exact C|]]].
    rewrite E, Fd. unfold Command.settle. simpl. exact Em.
  - unfold written, LanguageInterpreter.promise. rewrite after_run.
    unfold LanguageInterpreter.step.
    cbn [LanguageInterpreter.to_command LanguageInterpreter.preCommand].
    apply preCommand_failed. reflexivity.
  - unfold written, LanguageInterpreter.promise. rewrite after_run.
    unfold LanguageInterpreter.step.
    cbn [LanguageInterpreter.to_command LanguageInterpreter.preCommand].
    apply preCommand_failed. reflexivity.
  - intros R Hsh k.
    destruct (runCommandAsUser_unborn b) as (U0 & U1 & U2 & U3 & U4 & U5).
    destruct (@unborn_fire_run behaviour fuel hs _ s U0 U1 U2 U3 U4 R Hsh)
      as ((F1 & F2 & F3) & Hst).
    destruct (kill_fields s) as (K1 & K2 & K3 & K4 & K5 & _ & _ & _ & K9).
    destruct (kill_promise s) as (P1 & _).
    destruct (dispose_store_flags_off s F1 F2 F3) as (D1 & D2 & D3).
    destruct (dispose_store_fields s) as (_ & Hd & _).
    destruct (dispose_store_promise s) as (_ & _ & Dsh & _).
    fold k in K1, K2, K3, K4, K5, K9, P1.
    rewrite Hsh, app_nil_r in K9.
    split; [repeat split; assumption|]. split; [reflexivity|].
    split; [exact K9|]. split; [exact P1|]. split.
    { unfold k, Command.kill. rewrite Dsh, Hsh. rewrite Dsh. exact Hsh. }
    split; [rewrite K1, K2, K3; repeat split; assumption|].
    split; [rewrite K4; exact Hd|].
    intros Hk. specialize (Hst Hk). rewrite U5 in Hst.
    rewrite K4, K5. unfold Command.dispose_store. rewrite Hst. simpl.
    split; reflexivity.
Qed.

Lemma runCommandAsUser_preCommand_fails_witness :
  (LanguageInterpreter.promise
     (LanguageInterpreter.after
        (LanguageInterpreter.step
           (LanguageInterpreter.run (str "/project") LanguageInterpreter.python
              (str "k3x9") (str "print(1)"))
           (LanguageInterpreter.WriteSettled
              (Returned (LanguageInterpreter.WriteError 28 (str "No space left")))))
        [LanguageInterpreter.CreateSettled (Threw (Error (str "late")))])
   = Command.PromiseRejected (Error (str "28: No space left")))
  /\ exists s,
       CommandFire.run (fun _ _ => []) 5
         (Shells.run (str "/project") (str "sleep 9") None)
         [Command.OnOutputCalled 7] = Some s
       /\ Command.calls (Command.kill s) = Command.calls s
       /\ Emitter.registeredListeners (Command.onOutput (Command.kill s)) = [].
Proof.
  pose proof (@runCommandAsUser_preCommand_fails (fun _ _ => []) 5
                (str "/project") (str "true") DEFAULT_SHELL_SIZE [] None None
                (Error (str "e")) []
                LanguageInterpreter.python (str "k3x9") (str "print(1)")
                28%Z (str "No space left")
                [LanguageInterpreter.CreateSettled (Threw (Error (str "late")))]
                {| Command.workspacePath := str "/project";
                   Command.command := str "sleep 9";
                   Command.shellSize := DEFAULT_SHELL_SIZE;
                   Command.runPreCommand := None;
                   Command.env := None;
                   Command.shellName := None |}
                [Command.OnOutputCalled 7]
                (Command.run (Shells.run (str "/project") (str "sleep 9") None)
                   [Command.OnOutputCalled 7])
                ltac:(vm_compute; reflexivity)) as (_ & (P & _) & _ & K).
  split; [exact P|].
  eexists. split; [reflexivity|].
  destruct (K eq_refl eq_refl) as (_ & _ & Kc & _ & _ & _ & _ & Ke).
  split; [exact Kc | exact (proj1 (Ke eq_refl))].
Defined.
